(** * Digest: the k-mer cursor of [include/digest/digester.hpp]

    A shallow embedding of [digest::Digester<P>]: the ACTG classification
    table, the cursor state, construction, [new_seq], [roll_one],
    [append_seq] and [get_pos], under both bad-character policies.

    Conventions.
    - [size_t] values are integers in [Z]; every operation of the source
      that can leave the range [0, 2^64) is written with [u64].  The
      [unsigned] value [k - 1] is written with [u32].
    - A sequence is the list of its bytes.  An index outside the list is an
      out-of-bounds read and has no defined result.
    - The ntHash primitives ([nthash/nthash.hpp]) are not part of this
      repository.  They are a record of functions [nthash]; their rolling
      identity is the predicate [nthash_rolls].  They are specified on
      ACGT/acgt input only, so every call site checks its arguments and a
      call with another byte has no defined result.
    - A member function maps the cursor to an [outcome]: it returns a value
      and the new cursor, or throws and leaves the cursor as it was at the
      [throw], or has no defined result. *)

From Stdlib Require Import Strings.String Strings.Byte.
From Stdlib Require Import ZArith List Bool Lia.
Import ListNotations.
Open Scope Z_scope.

(** ** Machine integers *)

Definition u64 (x : Z) : Z := x mod 2 ^ 64.
Definition u32 (x : Z) : Z := x mod 2 ^ 32.

Definition size_t (x : Z) : Prop := 0 <= x < 2 ^ 64.
Definition unsigned (x : Z) : Prop := 0 <= x < 2 ^ 32.

Definition size {A : Type} (l : list A) : Z := Z.of_nat (length l).

(** ** Bytes, strings and the classification table *)

Definition byte_value (b : byte) : Z := Z.of_N (Byte.to_N b).

Definition bytes (s : string) : list byte := list_byte_of_string s.

(** [std::array<bool, 256> actg], row by row as in the source; an
    initialiser [0] is [false], any other is [true]. *)
Definition actg : list bool :=
  map (fun n : nat => negb (Nat.eqb n 0))
   [0; 0; 0; 0; 0; 0; 0; 0; 0; 0; 0; 0; 0; 0; 0; 0;
    0; 0; 0; 0; 0; 0; 0; 0; 0; 0; 0; 0; 0; 0; 0; 0;
    0; 0; 0; 0; 0; 0; 0; 0; 0; 0; 0; 0; 0; 0; 0; 0;
    0; 0; 0; 0; 0; 0; 0; 0; 0; 0; 0; 0; 0; 0; 0; 0;
    0; 1; 0; 1; 0; 0; 0; 1; 0; 0; 0; 0; 0; 0; 0; 0;
    0; 0; 0; 0; 1; 0; 0; 0; 0; 0; 0; 0; 0; 0; 0; 0;
    0; 1; 0; 1; 0; 0; 0; 1; 0; 0; 0; 0; 0; 0; 0; 0;
    0; 0; 0; 0; 1; 0; 0; 0; 0; 0; 0; 0; 0; 0; 0; 0;
    0; 0; 0; 0; 0; 0; 0; 0; 0; 0; 0; 0; 0; 0; 0; 0;
    0; 0; 0; 0; 0; 0; 0; 0; 0; 0; 0; 0; 0; 0; 0; 0;
    0; 0; 0; 0; 0; 0; 0; 0; 0; 0; 0; 0; 0; 0; 0; 0;
    0; 0; 0; 0; 0; 0; 0; 0; 0; 0; 0; 0; 0; 0; 0; 0;
    0; 0; 0; 0; 0; 0; 0; 0; 0; 0; 0; 0; 0; 0; 0; 0;
    0; 0; 0; 0; 0; 0; 0; 0; 0; 0; 0; 0; 0; 0; 0; 0;
    0; 0; 0; 0; 0; 0; 0; 0; 0; 0; 0; 0; 0; 0; 0; 0;
    0; 0; 0; 0; 0; 0; 0; 0; 0; 0; 0; 0; 0; 0; 0; 0]%nat.

(** [actg[pos]] for a [size_t] index: defined inside the array only. *)
Definition actg_at (pos : Z) : option bool :=
  if (0 <=? pos) && (pos <? size actg) then nth_error actg (Z.to_nat pos)
  else None.

(** The value of a plain [char] that holds the byte [b].  Whether plain
    [char] is signed is fixed by the target ([true] on x86-64). *)
Definition char_value (plain_char_signed : bool) (b : byte) : Z :=
  if plain_char_signed && (128 <=? byte_value b) then byte_value b - 256
  else byte_value b.

(** The eight nucleotide bytes, as the comment above the table lists them:
    0x41 0x43 0x47 0x54 0x61 0x63 0x67 0x74. *)
Definition nucleotide (b : byte) : bool :=
  existsb (Byte.eqb b) (bytes "ACGTacgt").

(** A byte whose [char] value indexes the table in bounds. *)
Definition indexable (plain_char_signed : bool) (b : byte) : bool :=
  negb plain_char_signed || (byte_value b <? 128).

(** ** Errors and outcomes *)

Inductive exception : Type :=
| BadConstructionException
| NotRolledTillEndException.

Inductive undefined : Type :=
| OutOfBoundsRead      (* a read outside the sequence or the table *)
| NonACTGHashed        (* an ntHash primitive applied to a non-ACGT byte *)
| OutOfFuel.           (* a loop of the model ran out of its iteration bound *)

Inductive MinimizedHashType : Type := CANON | FORWARD | REVERSE.

(** The [int] value of an enumerator; [minimized_h] is stored as this
    value, since a [MinimizedHashType] object can hold any [int]. *)
Definition hash_type_value (h : MinimizedHashType) : Z :=
  match h with CANON => 0 | FORWARD => 1 | REVERSE => 2 end.

Definition int (x : Z) : Prop := - 2 ^ 31 <= x < 2 ^ 31.

Inductive BadCharPolicy : Type := WRITEOVER | SKIPOVER.

(** ** The cursor *)

Record Digester : Type := mkDigester {
  seq : list byte;        (* const char *seq: the borrowed buffer *)
  len : Z;                (* size_t len *)
  offset : Z;             (* size_t offset *)
  start : Z;              (* size_t start *)
  end_ : Z;               (* size_t end *)
  chash : Z;              (* uint64_t chash *)
  fhash : Z;              (* uint64_t fhash *)
  rhash : Z;              (* uint64_t rhash *)
  k : Z;                  (* unsigned k *)
  c_outs : list byte;     (* std::deque<char> c_outs, front first *)
  minimized_h : Z;        (* MinimizedHashType minimized_h *)
  is_valid_hash : bool    (* bool is_valid_hash = false *)
}.

Definition set_seq (s : list byte) (l : Z) (d : Digester) : Digester :=
  mkDigester s l (offset d) (start d) (end_ d) (chash d) (fhash d) (rhash d)
             (k d) (c_outs d) (minimized_h d) (is_valid_hash d).
Definition set_offset (o : Z) (d : Digester) : Digester :=
  mkDigester (seq d) (len d) o (start d) (end_ d) (chash d) (fhash d)
             (rhash d) (k d) (c_outs d) (minimized_h d) (is_valid_hash d).
Definition set_start (s : Z) (d : Digester) : Digester :=
  mkDigester (seq d) (len d) (offset d) s (end_ d) (chash d) (fhash d)
             (rhash d) (k d) (c_outs d) (minimized_h d) (is_valid_hash d).
Definition set_end (e : Z) (d : Digester) : Digester :=
  mkDigester (seq d) (len d) (offset d) (start d) e (chash d) (fhash d)
             (rhash d) (k d) (c_outs d) (minimized_h d) (is_valid_hash d).
(** The hashes are passed as (forward, reverse, canonical). *)
Definition set_hashes (h : Z * Z * Z) (d : Digester) : Digester :=
  mkDigester (seq d) (len d) (offset d) (start d) (end_ d) (snd h)
             (fst (fst h)) (snd (fst h))
             (k d) (c_outs d) (minimized_h d) (is_valid_hash d).
Definition set_c_outs (c : list byte) (d : Digester) : Digester :=
  mkDigester (seq d) (len d) (offset d) (start d) (end_ d) (chash d)
             (fhash d) (rhash d) (k d) c (minimized_h d) (is_valid_hash d).
Definition set_is_valid_hash (v : bool) (d : Digester) : Digester :=
  mkDigester (seq d) (len d) (offset d) (start d) (end_ d) (chash d)
             (fhash d) (rhash d) (k d) (c_outs d) (minimized_h d) v.

Inductive outcome (A : Type) : Type :=
| Returns (x : A)
| Throws (e : exception) (d : Digester)
| Undefined (u : undefined).
Arguments Returns {A} x.
Arguments Throws {A} e d.
Arguments Undefined {A} u.

Definition bind {A B : Type} (m : outcome A) (f : A -> outcome B) : outcome B :=
  match m with
  | Returns x => f x
  | Throws e d => Throws e d
  | Undefined u => Undefined u
  end.

Notation "x <- m ;; f" := (bind m (fun x => f))
  (at level 61, m at next level, right associativity).

(** [bool is_ACTG(char in) { return actg[in]; }]: the [char] is converted
    to the [size_t] index of [std::array::operator[]]. *)
Definition is_ACTG (plain_char_signed : bool) (in_ : byte) : outcome bool :=
  match actg_at (u64 (char_value plain_char_signed in_)) with
  | Some b => Returns b
  | None => Undefined OutOfBoundsRead
  end.

(** [seq[i]]: a read of the borrowed buffer. *)
Definition read (s : list byte) (i : Z) : outcome byte :=
  if (0 <=? i) && (i <? size s) then
    match nth_error s (Z.to_nat i) with
    | Some c => Returns c
    | None => Undefined OutOfBoundsRead
    end
  else Undefined OutOfBoundsRead.

(** The [n] bytes at [s + i], as a primitive reads them. *)
Fixpoint read_n (s : list byte) (i : Z) (n : nat) : outcome (list byte) :=
  match n with
  | O => Returns []
  | S n' => c <- read s i ;; cs <- read_n s (i + 1) n' ;; Returns (c :: cs)
  end.

(** ** The ntHash primitives *)

Record nthash : Type := mkNtHash {
  base_forward_hash : list byte -> Z -> Z;
  base_reverse_hash : list byte -> Z -> Z;
  next_forward_hash : Z -> Z -> byte -> byte -> Z;
  next_reverse_hash : Z -> Z -> byte -> byte -> Z;
  canonical : Z -> Z -> Z
}.

(** The rolling identity of the primitives: on a k-mer of nucleotides,
    rolling the first byte out and a nucleotide in gives the base hash of
    the shifted k-mer. *)
Definition nthash_rolls (H : nthash) : Prop :=
  forall (c : byte) (t : list byte) (b : byte),
    forallb nucleotide (c :: t) = true -> nucleotide b = true ->
    next_forward_hash H (base_forward_hash H (c :: t) (size (c :: t)))
                      (size (c :: t)) c b
      = base_forward_hash H (t ++ [b]) (size (c :: t)) /\
    next_reverse_hash H (base_reverse_hash H (c :: t) (size (c :: t)))
                      (size (c :: t)) c b
      = base_reverse_hash H (t ++ [b]) (size (c :: t)).

(** ** Member functions *)

Section Digest.

(** The target's plain [char], the hash primitives, and the template
    parameter [P]. *)
Variable plain_char_signed : bool.
Variable H : nthash.
Variable P : BadCharPolicy.

(** [is_ACTG(c) ? c : 'A'] *)
Definition or_A (c : byte) : outcome byte :=
  b <- is_ACTG plain_char_signed c ;; Returns (if b then c else "A"%byte).

(** The three hashes of the k-mer at the head of [buf], as
    [base_forward_hash(buf, k)], [base_reverse_hash(buf, k)] and
    [nthash::canonical] compute them. *)
Definition kmer_hashes (kmer : list byte) (k : Z) : Z * Z * Z :=
  let f := base_forward_hash H kmer k in
  let r := base_reverse_hash H kmer k in
  (f, r, canonical H f r).

Definition base_hashes (buf : list byte) (k : Z) : outcome (Z * Z * Z) :=
  let kmer := firstn (Z.to_nat k) buf in
  if size kmer <? k then Undefined OutOfBoundsRead
  else if forallb nucleotide kmer then Returns (kmer_hashes kmer k)
  else Undefined NonACTGHashed.

(** [fhash = next_forward_hash(fhash, k, out, in)],
    [rhash = next_reverse_hash(rhash, k, out, in)],
    [chash = nthash::canonical(fhash, rhash)]. *)
Definition next_hashes (d : Digester) (out_ in_ : byte) : outcome (Z * Z * Z) :=
  if nucleotide out_ && nucleotide in_ then
    let f := next_forward_hash H (fhash d) (k d) out_ in_ in
    let r := next_reverse_hash H (rhash d) (k d) out_ in_ in
    Returns (f, r, canonical H f r)
  else Undefined NonACTGHashed.

(** [size_t get_pos() { return offset + start - c_outs.size(); }] *)
Definition get_pos (d : Digester) : Z :=
  u64 (offset d + start d - size (c_outs d)).

(** The body of [for (size_t i = start; i < end; i++)] in
    [init_hash_skip_over], for the [n = end - i] indices still to visit:
    the first index that holds a non-ACTG byte, if there is one. *)
Fixpoint first_bad (s : list byte) (n : nat) (i : Z) : outcome (option Z) :=
  match n with
  | O => Returns None
  | S n' =>
      c <- read s i ;;
      b <- is_ACTG plain_char_signed c ;;
      if b then first_bad s n' (i + 1) else Returns (Some i)
  end.

(** The [while (end - 1 < len)] loop of [init_hash_skip_over]. *)
Fixpoint init_hash_skip_over_loop (fuel : nat) (d : Digester)
  : outcome (bool * Digester) :=
  if u64 (end_ d - 1) <? len d then
    match fuel with
    | O => Undefined OutOfFuel
    | S fuel' =>
        bad <- first_bad (seq d) (Z.to_nat (end_ d - start d)) (start d) ;;
        match bad with
        | Some i =>
            let d1 := set_start (u64 (i + 1)) d in
            let d2 := set_end (u64 (start d1 + k d1)) d1 in
            init_hash_skip_over_loop fuel' d2
        | None =>
            kmer <- read_n (seq d) (start d) (Z.to_nat (k d)) ;;
            h <- base_hashes kmer (k d) ;;
            Returns (true, set_is_valid_hash true (set_hashes h d))
        end
    end
  else Returns (false, set_is_valid_hash false d).

Definition init_hash_skip_over (d : Digester) : outcome (bool * Digester) :=
  init_hash_skip_over_loop (S (length (seq d))) (set_c_outs [] d).

(** The [for] loop of [init_hash_write_over] that fills [init_str]. *)
Fixpoint init_str (s : list byte) (n : nat) (i : Z) : outcome (list byte) :=
  match n with
  | O => Returns []
  | S n' =>
      c <- read s i ;;
      a <- or_A c ;;
      cs <- init_str s n' (i + 1) ;;
      Returns (a :: cs)
  end.

(** The [while] of [init_hash_write_over] returns in its first iteration. *)
Definition init_hash_write_over (d : Digester) : outcome (bool * Digester) :=
  let d := set_c_outs [] d in
  if u64 (end_ d - 1) <? len d then
    str <- init_str (seq d) (Z.to_nat (end_ d - start d)) (start d) ;;
    h <- base_hashes str (k d) ;;
    Returns (true, set_is_valid_hash true (set_hashes h d))
  else Returns (false, set_is_valid_hash false d).

Definition init_hash (d : Digester) : outcome (bool * Digester) :=
  match P with
  | SKIPOVER => init_hash_skip_over d
  | WRITEOVER => init_hash_write_over d
  end.

Definition roll_one_skip_over (d : Digester) : outcome (bool * Digester) :=
  if negb (is_valid_hash d) then Returns (false, d)
  else if len d <=? end_ d then Returns (false, set_is_valid_hash false d)
  else
    c <- read (seq d) (end_ d) ;;
    b <- is_ACTG plain_char_signed c ;;
    match c_outs d with
    | front :: rest =>
        if b then
          h <- next_hashes d front c ;;
          Returns (true, set_hashes h (set_end (u64 (end_ d + 1))
                                         (set_c_outs rest d)))
        else
          let d1 := set_c_outs [] d in
          let d2 := set_start (u64 (end_ d1 + 1)) d1 in
          let d3 := set_end (u64 (start d2 + k d2)) d2 in
          init_hash d3
    | [] =>
        if b then
          out_ <- read (seq d) (start d) ;;
          h <- next_hashes d out_ c ;;
          Returns (true, set_hashes h (set_end (u64 (end_ d + 1))
                                         (set_start (u64 (start d + 1)) d)))
        else
          let d2 := set_start (u64 (end_ d + 1)) d in
          let d3 := set_end (u64 (start d2 + k d2)) d2 in
          init_hash d3
    end.

Definition roll_one_write_over (d : Digester) : outcome (bool * Digester) :=
  if negb (is_valid_hash d) then Returns (false, d)
  else if len d <=? end_ d then Returns (false, set_is_valid_hash false d)
  else
    c <- read (seq d) (end_ d) ;;
    next_char <- or_A c ;;
    match c_outs d with
    | front :: rest =>
        h <- next_hashes d front next_char ;;
        Returns (true, set_hashes h (set_end (u64 (end_ d + 1))
                                       (set_c_outs rest d)))
    | [] =>
        o <- read (seq d) (start d) ;;
        out_char <- or_A o ;;
        h <- next_hashes d out_char next_char ;;
        Returns (true, set_hashes h (set_end (u64 (end_ d + 1))
                                       (set_start (u64 (start d + 1)) d)))
    end.

Definition roll_one (d : Digester) : outcome (bool * Digester) :=
  match P with
  | SKIPOVER => roll_one_skip_over d
  | WRITEOVER => roll_one_write_over d
  end.

(** The first [while] of [append_seq]: characters of the tail of the old
    sequence are pushed on [temp_vec], last first.  [c] is the size of
    [c_outs]; SKIPOVER breaks at a non-ACTG byte, WRITEOVER pushes 'A'. *)
Fixpoint append_tail (fuel : nat) (d : Digester) (temp_vec : list byte)
  (ind : Z) : outcome (list byte) :=
  if (size temp_vec + size (c_outs d) <? u32 (k d - 1)) && (start d <=? ind)
  then
    match fuel with
    | O => Undefined OutOfFuel
    | S fuel' =>
        c <- read (seq d) ind ;;
        b <- is_ACTG plain_char_signed c ;;
        match P, b with
        | SKIPOVER, false => Returns temp_vec
        | _, _ =>
            let temp_vec := temp_vec ++ [if b then c else "A"%byte] in
            if ind =? 0 then Returns temp_vec
            else append_tail fuel' d temp_vec (u64 (ind - 1))
        end
    end
  else Returns temp_vec.

(** The second [while] of [append_seq_skip_over], for the [n = len - ind]
    characters of the new sequence still to visit. *)
Fixpoint append_head_skip_over (n : nat) (seq' : list byte) (len' : Z)
  (ind : Z) (d : Digester) : outcome Digester :=
  match n with
  | O => Returns d
  | S n' =>
      if size (c_outs d) <? k d then
        c <- read seq' ind ;;
        b <- is_ACTG plain_char_signed c ;;
        if negb b then
          let d1 := set_start (u64 (ind + 1)) d in
          let d2 := set_end (u64 (start d1 + k d1)) d1 in
          let d3 := set_c_outs [] (set_seq seq' len' d2) in
          r <- init_hash d3 ;;
          Returns (snd r)
        else
          append_head_skip_over n' seq' len' (ind + 1)
            (set_end (u64 (end_ d + 1))
               (set_start (u64 (start d + 1))
                  (set_c_outs (c_outs d ++ [c]) d)))
      else Returns d
  end.

(** The second [while] of [append_seq_write_over]. *)
Fixpoint append_head_write_over (n : nat) (seq' : list byte) (ind : Z)
  (d : Digester) : outcome Digester :=
  match n with
  | O => Returns d
  | S n' =>
      if size (c_outs d) <? k d then
        c <- read seq' ind ;;
        a <- or_A c ;;
        append_head_write_over n' seq' (ind + 1)
          (set_end (u64 (end_ d + 1))
             (set_start (u64 (start d + 1))
                (set_c_outs (c_outs d ++ [a]) d)))
      else Returns d
  end.

(** [void append_seq_skip_over(const char *seq, size_t len)] and
    [void append_seq_write_over(const char *seq, size_t len)]: the two
    differ in the loops above only. *)
Definition append_seq (seq' : list byte) (len' : Z) (d : Digester)
  : outcome (unit * Digester) :=
  if end_ d <? len d then Throws NotRolledTillEndException d
  else
    let d := set_offset (u64 (offset d + len d)) d in
    let ind := u64 (len d - 1) in
    let d :=
      if (negb (start d =? end_ d) || (size (c_outs d) =? k d))
         && (0 <? size (c_outs d))
      then set_c_outs (tl (c_outs d)) d else d in
    temp_vec <- append_tail (Z.to_nat (k d)) d [] ind ;;
    let d := set_c_outs (c_outs d ++ rev temp_vec) d in
    let d := set_end 0 (set_start 0 d) in
    d <- match P with
         | SKIPOVER => append_head_skip_over (Z.to_nat len') seq' len' 0 d
         | WRITEOVER => append_head_write_over (Z.to_nat len') seq' 0 d
         end ;;
    d <- (if size (c_outs d) =? k d then
            h <- base_hashes (c_outs d) (k d) ;;
            Returns (set_is_valid_hash true (set_hashes h d))
          else Returns d) ;;
    Returns (tt, set_seq seq' len' d).

(** [virtual void new_seq(const char *seq, size_t len, size_t start)] *)
Definition new_seq (seq' : list byte) (len' : Z) (start' : Z) (d : Digester)
  : outcome (unit * Digester) :=
  let d := set_seq seq' len' d in
  let d := set_offset 0 d in
  let d := set_start start' d in
  let d := set_end (u64 (start' + k d)) d in
  let d := set_is_valid_hash false d in
  if len' <=? start' then Throws BadConstructionException d
  else r <- init_hash d ;; Returns (tt, snd r).

(** [Digester(const char *seq, size_t len, unsigned k, size_t start,
    MinimizedHashType minimized_h)].  When the constructor throws there is
    no object; the cursor in [Throws] is the members as initialised. *)
Definition Digester_new (seq' : list byte) (len' : Z) (k' : Z) (start' : Z)
  (minimized_h' : Z) : outcome Digester :=
  let d := mkDigester seq' len' 0 start' (u64 (start' + k')) 0 0 0 k' []
                      minimized_h' false in
  if (k' <? 4) || (len' <=? start') || (2 <? minimized_h')
  then Throws BadConstructionException d
  else r <- init_hash d ;; Returns (snd r).

(** The [std::string] overloads pass [seq.c_str()] and [seq.size()]. *)
Definition Digester_of_string (s : list byte) (k' start' minimized_h' : Z)
  : outcome Digester :=
  Digester_new s (size s) k' start' minimized_h'.

Definition new_seq_string (s : list byte) (pos : Z) (d : Digester)
  : outcome (unit * Digester) :=
  new_seq s (size s) pos d.

Definition append_seq_string (s : list byte) (d : Digester)
  : outcome (unit * Digester) :=
  append_seq s (size s) d.

End Digest.

(** ** A reference instance of the primitives

    A multiply-add rolling hash over 64-bit words with the interface of the
    ntHash primitives: the forward hash reads the k-mer left to right, the
    reverse hash is the forward hash of the reverse complement, and the
    canonical hash is the lesser of the two.  It serves the closed examples
    below; the theorems hold for every instance that rolls. *)

Module RefHash.

Definition code (c : byte) : Z :=
  match c with
  | "A"%byte | "a"%byte => 1
  | "C"%byte | "c"%byte => 2
  | "G"%byte | "g"%byte => 3
  | "T"%byte | "t"%byte => 4
  | _ => 0
  end.

(** The code of the complementary base. *)
Definition ccode (c : byte) : Z :=
  match c with
  | "A"%byte | "a"%byte => 4
  | "C"%byte | "c"%byte => 3
  | "G"%byte | "g"%byte => 2
  | "T"%byte | "t"%byte => 1
  | _ => 0
  end.

(** The inverse of 5 modulo 2^64. *)
Definition inv5 : Z := 14757395258967641293.

Definition forward (buf : list byte) (k : Z) : Z :=
  fold_left (fun h c => u64 (h * 5 + code c)) buf 0.

Definition reverse (buf : list byte) (k : Z) : Z :=
  u64 (fold_right (fun c h => ccode c + 5 * h) 0 buf).

Definition roll_forward (prev k : Z) (out_ in_ : byte) : Z :=
  u64 (prev * 5 + code in_ - code out_ * 5 ^ k).

Definition roll_reverse (prev k : Z) (out_ in_ : byte) : Z :=
  u64 ((prev - ccode out_) * inv5 + ccode in_ * 5 ^ (k - 1)).

Definition hash : nthash :=
  mkNtHash forward reverse roll_forward roll_reverse Z.min.

End RefHash.

(** ** Observing a cursor *)

(** What a caller reads off a cursor: [get_pos()], [get_fhash()],
    [get_rhash()], [get_chash()]. *)
Definition report (d : Digester) : Z * Z * Z * Z :=
  (get_pos d, fhash d, rhash d, chash d).

(** The [n] elements of [s] from index [i]. *)
Definition slice {A : Type} (s : list A) (i n : Z) : list A :=
  firstn (Z.to_nat n) (skipn (Z.to_nat i) s).

(** [c_outs] followed by [seq[start..end)]: the bytes of the current
    k-mer that the cursor holds. *)
Definition current_kmer (d : Digester) : list byte :=
  c_outs d ++ slice (seq d) (start d) (end_ d - start d).

(** Every byte of [seq[start..end)] that can be read is a nucleotide. *)
Definition ranged_nucleotide (d : Digester) : Prop :=
  forall i c, start d <= i < end_ d -> read (seq d) i = Returns c ->
              nucleotide c = true.

(** The calls a client can make on a constructed cursor. *)
Inductive call : Type :=
| RollOne
| AppendSeq (s : list byte)
| NewSeq (s : list byte) (pos : Z).

Section Runs.

Variable plain_char_signed : bool.
Variable H : nthash.
Variable P : BadCharPolicy.

Definition perform (c : call) (d : Digester) : outcome Digester :=
  match c with
  | RollOne => r <- roll_one plain_char_signed H P d ;; Returns (snd r)
  | AppendSeq s =>
      r <- append_seq_string plain_char_signed H P s d ;; Returns (snd r)
  | NewSeq s pos =>
      r <- new_seq_string plain_char_signed H P s pos d ;; Returns (snd r)
  end.

(** Arguments of the types the signatures give them. *)
Definition typed_call (c : call) : Prop :=
  match c with
  | RollOne => True
  | AppendSeq s => size_t (size s)
  | NewSeq s pos => size_t (size s) /\ size_t pos
  end.

(** The cursors a client can hold: constructed, then driven by any calls;
    a call that throws leaves the cursor it had at the [throw]. *)
Inductive reachable : Digester -> Prop :=
| reach_new s k' start' mh d :
    size_t (size s) -> unsigned k' -> size_t start' -> int mh ->
    Digester_of_string plain_char_signed H P s k' start' mh = Returns d ->
    reachable d
| reach_call c d d' :
    reachable d -> typed_call c -> perform c d = Returns d' -> reachable d'
| reach_throw c d e d' :
    reachable d -> typed_call c -> perform c d = Throws e d' -> reachable d'.

(** The first [n] calls of [roll_one] on [d], stopped at the first that
    returns [false]: what each successful call lets the caller read. *)
Fixpoint rolls (n : nat) (d : Digester) : outcome (list (Z * Z * Z * Z) * Digester) :=
  match n with
  | O => Returns ([], d)
  | S n' =>
      r <- roll_one plain_char_signed H P d ;;
      if fst r then
        rest <- rolls n' (snd r) ;;
        Returns (report (snd r) :: fst rest, snd rest)
      else Returns ([], snd r)
  end.

(** The stream read off a cursor as the tests read it: the current k-mer
    if the cursor is valid, then every k-mer [roll_one] reaches. *)
Definition emit (n : nat) (d : Digester) : outcome (list (Z * Z * Z * Z) * Digester) :=
  if is_valid_hash d then
    r <- rolls n d ;; Returns (report d :: fst r, snd r)
  else Returns ([], d).

(** The stream of a cursor constructed on [s]. *)
Definition digest (n : nat) (s : list byte) (k' start' mh : Z)
  : outcome (list (Z * Z * Z * Z) * Digester) :=
  d <- Digester_of_string plain_char_signed H P s k' start' mh ;; emit n d.

(** The stream continued across [append_seq(s)]. *)
Definition and_then (n : nat) (s : list byte)
  (m : outcome (list (Z * Z * Z * Z) * Digester))
  : outcome (list (Z * Z * Z * Z) * Digester) :=
  r <- m ;;
  a <- append_seq_string plain_char_signed H P s (snd r) ;;
  r' <- emit n (snd a) ;;
  Returns (fst r ++ fst r', snd r').

End Runs.

(** What a client sees of a stream: the tuples it read, the exception that
    ended it, or that the run has no defined behaviour. *)
Inductive observation : Type :=
| Emits (l : list (Z * Z * Z * Z))
| Raises (e : exception)
| NoBehaviour (u : undefined).

Definition observe (m : outcome (list (Z * Z * Z * Z) * Digester))
  : observation :=
  match m with
  | Returns r => Emits (fst r)
  | Throws e _ => Raises e
  | Undefined u => NoBehaviour u
  end.

(** The position in a tuple read off a cursor. *)
Definition reported_pos (t : Z * Z * Z * Z) : Z := fst (fst (fst t)).

(** The policy's view of a byte and of a sequence: WRITEOVER reads every
    non-ACTG byte as 'A'. *)
Definition written_over (c : byte) : byte :=
  if nucleotide c then c else "A"%byte.

Definition view_byte (P : BadCharPolicy) (c : byte) : byte :=
  match P with
  | WRITEOVER => written_over c
  | SKIPOVER => c
  end.

Definition view (P : BadCharPolicy) (s : list byte) : list byte :=
  match P with
  | WRITEOVER => map written_over s
  | SKIPOVER => s
  end.

(** The cursor over the sequence as WRITEOVER reads it, and the run that
    ends in it. *)
Definition substituted (d : Digester) : Digester :=
  set_seq (map written_over (seq d)) (len d) d.

Definition substituted_run {A : Type} (m : outcome (A * Digester))
  : outcome (A * Digester) :=
  match m with
  | Returns r => Returns (fst r, substituted (snd r))
  | Throws e d => Throws e (substituted d)
  | Undefined u => Undefined u
  end.

(** ** Reasoning about outcomes *)

(** [wp Q m]: [m] does not throw, applies no hash primitive to a non-ACTG
    byte and does not exhaust a loop bound of the model; if it returns,
    the result satisfies [Q].  The only undefined behaviour left open is a
    read out of bounds. *)
Definition wp {A : Type} (Q : A -> Prop) (m : outcome A) : Prop :=
  match m with
  | Returns x => Q x
  | Throws _ _ => False
  | Undefined u => u = OutOfBoundsRead
  end.

(** The state of every cursor a client can hold. *)
Definition well_formed (P : BadCharPolicy) (d : Digester) : Prop :=
  unsigned (k d) /\ 4 <= k d /\
  len d = size (seq d) /\ size_t (len d) /\
  size_t (start d) /\ size_t (end_ d) /\
  size (c_outs d) <= k d /\
  forallb nucleotide (c_outs d) = true /\
  (is_valid_hash d = true -> start d <= end_ d <= len d) /\
  (P = SKIPOVER -> is_valid_hash d = true -> ranged_nucleotide d).

(** What [init_hash] leaves behind when called on [d] with [c_outs] to be
    cleared and [end = start + k]: the cursor sits at the first index [p] at
    or after [start] whose k-mer lies in the sequence and, under the
    policy's view, holds nucleotides only, or [init_hash] fails. *)
Definition init_hash_post (H : nthash) (P : BadCharPolicy) (d : Digester)
  (r : bool * Digester) : Prop :=
  exists p,
    start d <= p /\
    (P = WRITEOVER -> p = start d) /\
    (p = start d \/ p <= len d) /\
    (forall q, start d <= q < p ->
       exists j c, q <= j < q + k d /\ j < p /\
                   read (seq d) j = Returns c /\ nucleotide c = false) /\
    if fst r then
      p + k d <= len d /\
      forallb nucleotide (view P (slice (seq d) p (k d))) = true /\
      snd r = set_is_valid_hash true
                (set_hashes (kmer_hashes H (view P (slice (seq d) p (k d))) (k d))
                   (set_end (p + k d) (set_start p (set_c_outs [] d))))
    else
      (p + k d < 2 ^ 64 -> len d < p + k d) /\
      snd r = set_is_valid_hash false
                (set_end (u64 (p + k d)) (set_start p (set_c_outs [] d))).

(** What the first loop of [append_seq] collects from the tail of the old
    sequence: the bytes of [seq[j..len)], last first, as the policy reads
    them, for the least [j] the budget, [start] and (under SKIPOVER) the
    last non-ACTG byte allow. *)
Definition append_tail_post (P : BadCharPolicy) (d : Digester)
  (temp_vec : list byte) : Prop :=
  exists j,
    0 <= j <= len d /\
    (j = len d \/ start d <= j) /\
    temp_vec = rev (map written_over (slice (seq d) j (len d - j))) /\
    (P = SKIPOVER ->
     forallb nucleotide (slice (seq d) j (len d - j)) = true) /\
    (size (c_outs d) <= k d - 1 -> len d - j + size (c_outs d) <= k d - 1) /\
    (k d - 1 <= len d - j + size (c_outs d) \/ j <= start d \/
     (P = SKIPOVER /\
      exists b, read (seq d) (j - 1) = Returns b /\ nucleotide b = false)).

(** What the second loop of [append_seq] does from index [ind] of the new
    sequence [seq'], with [start = end = ind]: it moves [m] bytes to the
    back of [c_outs], until [c_outs] holds [k] bytes or the new sequence is
    used up; or, under SKIPOVER, it meets a non-ACTG byte at [j] first and
    reinitialises on the new sequence from [j + 1]. *)
Definition append_head_post (H : nthash) (P : BadCharPolicy)
  (seq' : list byte) (len' ind : Z) (d d' : Digester) : Prop :=
  (exists m,
     0 <= m /\ ind + m <= len' /\
     (P = SKIPOVER -> forallb nucleotide (slice seq' ind m) = true) /\
     (0 < m -> size (c_outs d) + m <= k d) /\
     (k d <= size (c_outs d) + m \/ ind + m = len') /\
     d' = set_end (ind + m)
            (set_start (ind + m)
               (set_c_outs (c_outs d ++ map written_over (slice seq' ind m)) d)))
  \/
  (P = SKIPOVER /\
   exists j b r,
     ind <= j < len' /\
     forallb nucleotide (slice seq' ind (j - ind)) = true /\
     size (c_outs d) + (j - ind) < k d /\
     read seq' j = Returns b /\ nucleotide b = false /\
     init_hash_post H P
       (set_seq seq' len' (set_end (u64 (j + 1 + k d)) (set_start (j + 1) d)))
       r /\
     d' = snd r).

(** The cursor of [append_seq] after [offset += len] and the conditional
    [c_outs.pop_front()]. *)
Definition append_popped (d : Digester) : Digester :=
  let d := set_offset (u64 (offset d + len d)) d in
  if (negb (start d =? end_ d) || (size (c_outs d) =? k d))
     && (0 <? size (c_outs d))
  then set_c_outs (tl (c_outs d)) d else d.

(** The cursor on which the second loop of [append_seq] starts. *)
Definition append_carried (d : Digester) (temp_vec : list byte) : Digester :=
  set_end 0 (set_start 0 (set_c_outs (c_outs d ++ rev temp_vec) d)).

(** The last step of [append_seq]: a hash is initialised from [c_outs] if
    it holds [k] bytes, and the backing sequence is switched. *)
Definition append_finished (H : nthash) (s : list byte) (d : Digester)
  : Digester :=
  set_seq s (size s)
    (if size (c_outs d) =? k d
     then set_is_valid_hash true
            (set_hashes (kmer_hashes H (c_outs d) (k d)) d)
     else d).

(** [append_seq(s)] on [d], step by step. *)
Definition append_seq_post (H : nthash) (P : BadCharPolicy) (s : list byte)
  (d d' : Digester) : Prop :=
  exists temp_vec d3,
    append_tail_post P (append_popped d) temp_vec /\
    append_head_post H P s (size s) 0
      (append_carried (append_popped d) temp_vec) d3 /\
    forallb nucleotide (c_outs d3) = true /\
    d' = append_finished H s d3.

(** What each call leaves behind: a well-formed cursor with the same [k],
    whether the call returns or throws; no call applies a hash primitive to
    a non-ACTG byte or exhausts a loop bound. *)
Definition safe_outcome (P : BadCharPolicy) (k0 : Z) (m : outcome Digester)
  : Prop :=
  match m with
  | Returns d' => well_formed P d' /\ k d' = k0
  | Throws _ d' => well_formed P d' /\ k d' = k0
  | Undefined u => u = OutOfBoundsRead
  end.

(** A computation that does not leave through an exception. *)
Definition no_throw {A : Type} (m : outcome A) : Prop :=
  forall e d, m <> Throws e d.

(** [n] further calls of [roll_one], with the value each returned. *)
Fixpoint roll_times (pcs : bool) (H : nthash) (P : BadCharPolicy) (n : nat)
  (d : Digester) : outcome (list bool * Digester) :=
  match n with
  | O => Returns ([], d)
  | S n' =>
      r <- roll_one pcs H P d ;;
      rest <- roll_times pcs H P n' (snd r) ;;
      Returns (fst r :: fst rest, snd rest)
  end.

(** ** Runs over a virtual concatenation *)

Section Appended.

Variable plain_char_signed : bool.
Variable H : nthash.
Variable P : BadCharPolicy.

(** [appended T d]: the cursor [d] was constructed on a first sequence, or
    restarted by a [new_seq] that returned, then rolled and extended by
    [append_seq]; [T] is the concatenation of the sequences it was given
    since.  An empty sequence is appended to an invalid cursor only. *)
Inductive appended : list byte -> Digester -> Prop :=
| appended_new s k' start' mh d :
    size_t (size s) -> unsigned k' -> size_t start' -> int mh ->
    Digester_of_string plain_char_signed H P s k' start' mh = Returns d ->
    appended s d
| appended_new_seq T d s pos r :
    appended T d -> size_t (size s) -> size_t pos ->
    new_seq_string plain_char_signed H P s pos d = Returns r ->
    appended s (snd r)
| appended_roll T d r :
    appended T d ->
    roll_one plain_char_signed H P d = Returns r ->
    appended T (snd r)
| appended_append T d s r :
    appended T d -> size_t (size s) ->
    is_valid_hash d = false \/ s <> [] ->
    append_seq_string plain_char_signed H P s d = Returns r ->
    appended (T ++ s) (snd r).

(** The position [get_pos] computes, before it is reduced modulo 2^64. *)
Definition position (d : Digester) : Z :=
  offset d + start d - size (c_outs d).

(** [coherent T d]: the cursor agrees with the concatenation [T] as the
    policy reads it.  Its sequence is the tail of [T] from [offset], and it
    is in one of three shapes.
    - It holds a k-mer: the [k] bytes of [T] at [position d] are
      nucleotides, [c_outs] is their prefix, [seq[start..end)] the rest,
      and a valid cursor stores their hashes, if the primitives roll.
    - [init_hash] failed: no k-mer fits from [start].
    - It holds a carry shorter than [k] that ends [T], and the sequence is
      used up. *)
Definition coherent (T : list byte) (d : Digester) : Prop :=
  (exists pre, T = pre ++ seq d /\ size pre = offset d) /\
  let n := size (c_outs d) in
  let p := position d in
  (0 <= p /\ end_ d = start d + k d - n /\ end_ d <= len d /\ n <= k d /\
   forallb nucleotide (slice (view P T) p (k d)) = true /\
   c_outs d = slice (view P T) p n /\
   (is_valid_hash d = true -> nthash_rolls H ->
    (fhash d, rhash d, chash d)
    = kmer_hashes H (slice (view P T) p (k d)) (k d)))
  \/
  (is_valid_hash d = false /\ c_outs d = [] /\
   end_ d = start d + k d /\ len d < end_ d /\ start d <= len d)
  \/
  (is_valid_hash d = false /\ n < k d /\ start d = len d /\ end_ d = len d /\
   0 <= p /\ c_outs d = slice (view P T) p n /\
   forallb nucleotide (c_outs d) = true).

End Appended.


(** ** Defined behaviour *)

(** A computation none of whose reads leaves the sequence or the table. *)
Definition in_bounds {A : Type} (m : outcome A) : Prop :=
  m <> Undefined OutOfBoundsRead.

(** A sequence every byte of which [is_ACTG] can classify. *)
Definition classifiable (pcs : bool) (s : list byte) : Prop :=
  forallb (indexable pcs) s = true.

(** The members no call but [new_seq] and [append_seq] changes, and the
    members no call changes. *)
Definition same_sequence (d d' : Digester) : Prop :=
  seq d' = seq d /\ len d' = len d /\ offset d' = offset d.

Definition same_parameters (d d' : Digester) : Prop :=
  k d' = k d /\ minimized_h d' = minimized_h d.

(** ** The k-mers of a sequence *)

(** A k-mer starts at [q] in [T]: the [k] bytes from [q] lie in [T] and,
    as the policy reads them, are nucleotides. *)
Definition kmer_at (P : BadCharPolicy) (T : list byte) (k q : Z) : bool :=
  (0 <=? q) && (q + k <=? size T)
  && forallb nucleotide (slice (view P T) q k).

(** What a cursor on the k-mer at [q] lets a caller read. *)
Definition kmer_tuple (H : nthash) (P : BadCharPolicy) (T : list byte)
  (k q : Z) : Z * Z * Z * Z :=
  let h := kmer_hashes H (slice (view P T) q k) k in
  (q, fst (fst h), snd (fst h), snd h).

(** The k-mers of [T] that start at [q], [q + 1], ..., [q + n - 1], in
    order. *)
Fixpoint kmers_from (H : nthash) (P : BadCharPolicy) (T : list byte)
  (k q : Z) (n : nat) : list (Z * Z * Z * Z) :=
  match n with
  | O => []
  | S n' =>
      (if kmer_at P T k q then [kmer_tuple H P T k q] else [])
      ++ kmers_from H P T k (q + 1) n'
  end.

(** What [roll_one] finds from the k-mer at [p]: the next k-mer of [T], or
    that there is none. *)
Definition next_kmer (P : BadCharPolicy) (T : list byte) (k p : Z)
  (r : bool * Digester) : Prop :=
  if fst r then
    p < position (snd r) /\
    forall q, p < q < position (snd r) -> kmer_at P T k q = false
  else forall q, p < q -> kmer_at P T k q = false.

(** ** [new_seq] against construction *)


(** ** Across [append_seq] *)

(** No k-mer starts at [q], whatever is appended to [T]: a byte of [T]
    within [k] of [q] is not a nucleotide as the policy reads it. *)
Definition blocked (P : BadCharPolicy) (T : list byte) (k q : Z) : Prop :=
  exists j c, q <= j < q + k /\ read T j = Returns c /\
              nucleotide (view_byte P c) = false.

(** The first position whose k-mer the cursor has not visited: the one
    after the k-mer it holds, or the position of its carry if it holds
    less than a k-mer. *)
Definition frontier (d : Digester) : Z :=
  if (end_ d <=? len d) && (size (c_outs d) + (end_ d - start d) =? k d)
  then position d + 1 else position d.

(** Every position from [from] to [f] whose k-mer does not lie in [T] is
    blocked. *)
Definition settled (P : BadCharPolicy) (T : list byte) (k from f : Z)
  : Prop :=
  forall q, from <= q < f -> size T < q + k -> blocked P T k q.

(** The stream continued across [append_seq] of each of [parts] in turn. *)
Fixpoint appends (pcs : bool) (H : nthash) (P : BadCharPolicy) (n : nat)
  (parts : list (list byte))
  (m : outcome (list (Z * Z * Z * Z) * Digester))
  : outcome (list (Z * Z * Z * Z) * Digester) :=
  match parts with
  | [] => m
  | s :: rest => appends pcs H P n rest (and_then pcs H P n s m)
  end.

(** Every sequence but the last is not empty. *)
Fixpoint inner_nonempty (parts : list (list byte)) : Prop :=
  match parts with
  | [] => True
  | s :: rest =>
      match rest with
      | [] => True
      | _ :: _ => s <> [] /\ inner_nonempty rest
      end
  end.


(** How far a cursor has read: the position of its k-mer if it is valid,
    its frontier otherwise. *)
Definition reached (d : Digester) : Z :=
  if is_valid_hash d then position d else frontier d.

(** [streamed T k0 from sp (l, d)]: the cursor [d] was given the sequences
    [T], of which [sp] is the last; every position from [from] up to where
    it has read is visited or holds no k-mer, and [l] is the k-mers of [T]
    that start there. *)
Definition streamed (pcs : bool) (H : nthash) (P : BadCharPolicy)
  (T : list byte) (k0 from : Z) (sp : list byte)
  (r : list (Z * Z * Z * Z) * Digester) : Prop :=
  appended pcs H P T (snd r) /\ k (snd r) = k0 /\ seq (snd r) = sp /\
  from <= reached (snd r) /\
  settled P T k0 from (reached (snd r)) /\
  (is_valid_hash (snd r) = false -> size T - k0 < reached (snd r)) /\
  fst r = kmers_from H P T k0 from (Z.to_nat (reached (snd r) - from)).

(** The positions [q], [q + 1], ..., [q + n - 1]. *)
Fixpoint positions_from (q : Z) (n : nat) : list Z :=
  match n with
  | O => []
  | S n' => q :: positions_from (q + 1) n'
  end.
(** * Properties *)

(** ** The classification table *)

Lemma is_ACTG_sound pcs c b :
  is_ACTG pcs c = Returns b -> b = nucleotide c.
Proof.
  destruct pcs; destruct c; vm_compute; congruence.
Qed.

Lemma is_ACTG_indexable pcs c :
  indexable pcs c = true -> is_ACTG pcs c = Returns (nucleotide c).
Proof.
  destruct pcs; destruct c; vm_compute; congruence.
Qed.

Lemma is_ACTG_cases pcs c :
  is_ACTG pcs c = Returns (nucleotide c) \/
  is_ACTG pcs c = Undefined OutOfBoundsRead.
Proof.
  destruct pcs; destruct c; vm_compute; auto.
Qed.

(** C9.  On a target whose plain [char] is signed, [is_ACTG] applied to the
    byte 0x80 indexes [actg] at 2^64 - 128, outside its 256 entries: the
    lookup is out of bounds and no classification is returned. *)
Theorem is_ACTG_byte_x80_out_of_bounds :
  char_value true "128"%byte = -128 /\
  u64 (char_value true "128"%byte) = 2 ^ 64 - 128 /\
  actg_at (u64 (char_value true "128"%byte)) = None /\
  is_ACTG true "128"%byte = Undefined OutOfBoundsRead.
Proof. vm_compute. auto. Qed.

(** Arithmetic modulo 2^64 and 2^32 is decided by [lia] once the
    remainders are replaced by their defining equations. *)
Ltac Zify.zify_post_hook ::= Z.to_euclidean_division_equations.

Ltac wrap_lia := unfold u64, u32, size_t, unsigned, int in *; lia.

(** Projections of updated cursors. *)
Ltac fields :=
  cbn [seq len offset start end_ chash fhash rhash k c_outs minimized_h
       is_valid_hash set_seq set_offset set_start set_end set_hashes
       set_c_outs set_is_valid_hash] in *.

Ltac same_cursor :=
  unfold set_seq, set_offset, set_start, set_end, set_hashes, set_c_outs,
    set_is_valid_hash;
  cbn [seq len offset start end_ chash fhash rhash k c_outs minimized_h
       is_valid_hash];
  f_equal; try reflexivity; try lia.

(** Splits a conjunction without introducing anything. *)
Ltac conj := repeat match goal with |- _ /\ _ => split end.

(** ** Outcomes *)

Lemma wp_mono {A} (Q Q' : A -> Prop) m :
  wp Q m -> (forall x, Q x -> Q' x) -> wp Q' m.
Proof. destruct m; simpl; auto. Qed.

Lemma wp_bind {A B} (Q : B -> Prop) (m : outcome A) (f : A -> outcome B) :
  wp (fun x => wp Q (f x)) m -> wp Q (x <- m ;; f x).
Proof. destruct m; simpl; auto. Qed.

Lemma wp_Returns {A} (Q : A -> Prop) m x : wp Q m -> m = Returns x -> Q x.
Proof. intros Hw ->. exact Hw. Qed.

Lemma wp_no_throw {A} (Q : A -> Prop) m e d : wp Q m -> m <> Throws e d.
Proof. intros Hw ->. exact Hw. Qed.

Lemma wp_undefined {A} (Q : A -> Prop) m u :
  wp Q m -> m = Undefined u -> u = OutOfBoundsRead.
Proof. intros Hw ->. exact Hw. Qed.

Lemma size_nonneg {A} (l : list A) : 0 <= size l.
Proof. unfold size. lia. Qed.

Lemma size_app {A} (l1 l2 : list A) : size (l1 ++ l2) = size l1 + size l2.
Proof. unfold size. rewrite length_app. lia. Qed.

Lemma size_cons {A} (x : A) (l : list A) : size (x :: l) = size l + 1.
Proof. unfold size. simpl length. lia. Qed.

Lemma size_nil {A} : size (@nil A) = 0.
Proof. reflexivity. Qed.

Lemma u64_small x : 0 <= x < 2 ^ 64 -> u64 x = x.
Proof. intros. unfold u64. apply Z.mod_small. assumption. Qed.

Lemma u32_small x : 0 <= x < 2 ^ 32 -> u32 x = x.
Proof. intros. unfold u32. apply Z.mod_small. assumption. Qed.

Lemma u64_range x : size_t (u64 x).
Proof. unfold size_t, u64. apply Z.mod_pos_bound. lia. Qed.

Lemma read_Returns s i c :
  read s i = Returns c <->
  0 <= i < size s /\ nth_error s (Z.to_nat i) = Some c.
Proof.
  unfold read.
  destruct (0 <=? i) eqn:H0; destruct (i <? size s) eqn:H1; simpl;
    try (split; [discriminate | lia]).
  destruct (nth_error s (Z.to_nat i)) eqn:Hn.
  - split; [intros [= ->]; split; [lia | reflexivity] | intros [_ [= ->]]; reflexivity].
  - split; [discriminate | intros [_ [=]]].
Qed.

Lemma read_in_range s i :
  0 <= i < size s -> exists c, read s i = Returns c.
Proof.
  intros Hi. destruct (nth_error s (Z.to_nat i)) eqn:Hn.
  - exists b. apply read_Returns. auto.
  - apply nth_error_None in Hn. unfold size in Hi. lia.
Qed.

Lemma wp_read s i :
  wp (fun c => 0 <= i < size s /\ nth_error s (Z.to_nat i) = Some c) (read s i).
Proof.
  destruct (read s i) eqn:Hr; simpl.
  - apply read_Returns. assumption.
  - unfold read in Hr. repeat destruct (_ : bool) in Hr; try discriminate.
    destruct nth_error in Hr; discriminate.
  - unfold read in Hr. destruct (_ && _) in Hr.
    + destruct nth_error in Hr; congruence.
    + congruence.
Qed.

Lemma wp_is_ACTG pcs c : wp (fun b => b = nucleotide c) (is_ACTG pcs c).
Proof.
  destruct (is_ACTG_cases pcs c) as [-> | ->]; reflexivity.
Qed.

Lemma wp_or_A pcs c :
  wp (fun a => a = written_over c) (or_A pcs c).
Proof.
  unfold or_A. apply wp_bind. eapply wp_mono; [apply wp_is_ACTG |].
  intros b ->. reflexivity.
Qed.

Lemma nucleotide_written_over c : nucleotide (written_over c) = true.
Proof. unfold written_over. destruct (nucleotide c) eqn:E; auto. Qed.

(** ** Slices of a sequence *)

Lemma skipn_nth_error {A} (s : list A) m c :
  nth_error s m = Some c -> skipn m s = c :: skipn (S m) s.
Proof.
  revert m. induction s as [| x s IH]; intros [| m] Hn; simpl in *;
    try discriminate.
  - congruence.
  - apply IH in Hn. rewrite Hn. reflexivity.
Qed.

Lemma slice_nonpos {A} (s : list A) i n : n <= 0 -> slice s i n = [].
Proof.
  intros Hn. unfold slice. replace (Z.to_nat n) with O by lia. reflexivity.
Qed.

Lemma slice_cons s i n c :
  read s i = Returns c -> 0 <= n ->
  slice s i (n + 1) = c :: slice s (i + 1) n.
Proof.
  intros Hr Hn. apply read_Returns in Hr as [Hi Hr].
  unfold slice. replace (Z.to_nat (n + 1)) with (S (Z.to_nat n)) by lia.
  rewrite (skipn_nth_error _ _ _ Hr). simpl.
  replace (Z.to_nat (i + 1)) with (S (Z.to_nat i)) by lia. reflexivity.
Qed.

Lemma slice_size {A} (s : list A) i n :
  0 <= i -> 0 <= n -> i + n <= size s -> size (slice s i n) = n.
Proof.
  intros Hi Hn Hs. unfold slice, size in *.
  rewrite length_firstn, length_skipn. lia.
Qed.

Lemma slice_size_le {A} (s : list A) i n : 0 <= n -> size (slice s i n) <= n.
Proof.
  intros Hn. unfold slice, size. rewrite length_firstn. lia.
Qed.

Lemma slice_full {A} (s : list A) : slice s 0 (size s) = s.
Proof.
  unfold slice, size. simpl. rewrite Nat2Z.id. apply firstn_all.
Qed.

Lemma slice_app {A} (s : list A) i n m :
  0 <= i -> 0 <= n -> 0 <= m ->
  slice s i (n + m) = slice s i n ++ slice s (i + n) m.
Proof.
  intros Hi Hn Hm. unfold slice.
  replace (Z.to_nat (n + m)) with (Z.to_nat n + Z.to_nat m)%nat by lia.
  replace (Z.to_nat (i + n)) with (Z.to_nat n + Z.to_nat i)%nat by lia.
  rewrite <- skipn_skipn.
  set (t := skipn (Z.to_nat i) s).
  rewrite <- (firstn_skipn (Z.to_nat n) t) at 1.
  rewrite firstn_app, firstn_firstn.
  replace (Nat.min (Z.to_nat n + Z.to_nat m) (Z.to_nat n)) with (Z.to_nat n) by lia.
  f_equal. rewrite length_firstn.
  destruct (Nat.le_gt_cases (Z.to_nat n) (length t)) as [Hl | Hl].
  - f_equal. lia.
  - rewrite (skipn_all2 t) by lia. rewrite !firstn_nil. reflexivity.
Qed.

Lemma slice_one s i c : read s i = Returns c -> slice s i 1 = [c].
Proof.
  intros Hr. change 1 with (0 + 1). rewrite (slice_cons _ _ _ _ Hr) by lia.
  rewrite slice_nonpos by lia. reflexivity.
Qed.

Lemma slice_snoc s i n c :
  0 <= i -> 0 <= n -> read s (i + n) = Returns c ->
  slice s i (n + 1) = slice s i n ++ [c].
Proof.
  intros Hi Hn Hr. rewrite slice_app by lia.
  rewrite (slice_one _ _ _ Hr). reflexivity.
Qed.

Lemma read_app_l s1 s2 i : i < size s1 -> read (s1 ++ s2) i = read s1 i.
Proof.
  intros Hi. unfold read. rewrite size_app.
  pose proof (size_nonneg s2).
  destruct (0 <=? i) eqn:H0; simpl; [| reflexivity].
  replace (i <? size s1 + size s2) with true by (symmetry; apply Z.ltb_lt; lia).
  replace (i <? size s1) with true by (symmetry; apply Z.ltb_lt; lia).
  rewrite nth_error_app1; [reflexivity |]. unfold size in Hi. lia.
Qed.

Lemma read_app_r s1 s2 i :
  size s1 <= i -> read (s1 ++ s2) i = read s2 (i - size s1).
Proof.
  intros Hi. unfold read. rewrite size_app.
  pose proof (size_nonneg s1).
  replace (0 <=? i) with true by (symmetry; apply Z.leb_le; lia).
  replace (0 <=? i - size s1) with true by (symmetry; apply Z.leb_le; lia).
  replace (i <? size s1 + size s2) with (i - size s1 <? size s2)
    by (destruct (Z.ltb_spec (i - size s1) (size s2));
        destruct (Z.ltb_spec i (size s1 + size s2)); lia).
  simpl. destruct (_ <? _); [| reflexivity].
  rewrite nth_error_app2 by (unfold size in *; lia).
  replace (Z.to_nat i - length s1)%nat with (Z.to_nat (i - size s1))
    by (unfold size; lia).
  reflexivity.
Qed.

Lemma slice_app_l {A} (s1 s2 : list A) i n :
  0 <= i -> i + n <= size s1 -> slice (s1 ++ s2) i n = slice s1 i n.
Proof.
  intros Hi Hn. unfold slice, size in *.
  rewrite skipn_app, firstn_app, length_skipn.
  replace (Z.to_nat n - (length s1 - Z.to_nat i))%nat with O by lia.
  rewrite firstn_O, app_nil_r. reflexivity.
Qed.

Lemma slice_app_r {A} (s1 s2 : list A) i n :
  size s1 <= i -> slice (s1 ++ s2) i n = slice s2 (i - size s1) n.
Proof.
  intros Hi. unfold slice, size in *.
  rewrite skipn_app, (skipn_all2 s1) by lia. simpl.
  replace (Z.to_nat i - length s1)%nat
    with (Z.to_nat (i - Z.of_nat (length s1))) by lia.
  reflexivity.
Qed.

Lemma slice_map {A B} (f : A -> B) s i n :
  slice (map f s) i n = map f (slice s i n).
Proof. unfold slice. rewrite skipn_map, firstn_map. reflexivity. Qed.

Lemma view_slice P s i n : slice (view P s) i n = view P (slice s i n).
Proof. destruct P; simpl; [apply slice_map | reflexivity]. Qed.

Lemma view_app P s1 s2 : view P (s1 ++ s2) = view P s1 ++ view P s2.
Proof. destruct P; simpl; [apply map_app | reflexivity]. Qed.

Lemma view_size P s : size (view P s) = size s.
Proof. destruct P; simpl; [unfold size; rewrite length_map |]; reflexivity. Qed.

Lemma forallb_slice_intro (Q : byte -> bool) s i n :
  0 <= i ->
  (forall j, i <= j < i + Z.of_nat n ->
             exists c, read s j = Returns c /\ Q c = true) ->
  forallb Q (slice s i (Z.of_nat n)) = true.
Proof.
  intros Hi. induction n as [| n IH]; intros Hall.
  - reflexivity.
  - destruct (Hall (i + Z.of_nat n)) as (c & Hr & Hq); [lia |].
    replace (Z.of_nat (S n)) with (Z.of_nat n + 1) by lia.
    rewrite (slice_snoc s i (Z.of_nat n) c Hi (Nat2Z.is_nonneg n) Hr).
    rewrite forallb_app, IH; [simpl; rewrite Hq; reflexivity |].
    intros j Hj. apply Hall. lia.
Qed.

Lemma forallb_slice_elim (Q : byte -> bool) s i n j c :
  0 <= i -> forallb Q (slice s i n) = true -> i <= j < i + n ->
  read s j = Returns c -> Q c = true.
Proof.
  intros Hi Hall Hj Hr.
  replace n with ((j - i) + (1 + (n - (j - i) - 1))) in Hall by lia.
  rewrite slice_app in Hall by lia.
  rewrite forallb_app in Hall. apply andb_prop in Hall as [_ Hall].
  rewrite slice_app in Hall by lia.
  rewrite forallb_app in Hall. apply andb_prop in Hall as [Hall _].
  replace (i + (j - i)) with j in Hall by lia.
  rewrite (slice_one _ _ _ Hr) in Hall. simpl in Hall.
  apply andb_prop in Hall as [Hall _]. exact Hall.
Qed.

Lemma slice_read s i n j :
  0 <= i -> 0 <= j < n -> i + n <= size s ->
  read (slice s i n) j = read s (i + j).
Proof.
  intros Hi Hj Hn. unfold read.
  rewrite slice_size by lia.
  replace (0 <=? j) with true by (symmetry; apply Z.leb_le; lia).
  replace (j <? n) with true by (symmetry; apply Z.ltb_lt; lia).
  replace (0 <=? i + j) with true by (symmetry; apply Z.leb_le; lia).
  replace (i + j <? size s) with true by (symmetry; apply Z.ltb_lt; lia).
  simpl. unfold slice.
  rewrite nth_error_firstn.
  replace (Z.to_nat j <? Z.to_nat n)%nat with true
    by (symmetry; apply Nat.ltb_lt; lia).
  rewrite nth_error_skipn.
  replace (Z.to_nat i + Z.to_nat j)%nat with (Z.to_nat (i + j)) by lia.
  reflexivity.
Qed.

(** ** The loops of the cursor *)

Lemma read_n_wp s i n :
  0 <= i ->
  wp (fun l => l = slice s i (Z.of_nat n) /\
               (n <> O -> i + Z.of_nat n <= size s))
     (read_n s i n).
Proof.
  revert i. induction n as [| n IH]; intros i Hi; simpl.
  - split; [reflexivity | congruence].
  - apply wp_bind. eapply wp_mono; [apply wp_read |].
    intros c [Hc Hn]. apply wp_bind.
    eapply wp_mono; [apply (IH (i + 1)); lia |].
    intros cs [-> Hb]. simpl.
    assert (Hr : read s i = Returns c) by (apply read_Returns; auto).
    split.
    + replace (Z.pos (Pos.of_succ_nat n)) with (Z.of_nat n + 1) by lia.
      symmetry. apply slice_cons; [assumption | lia].
    + intros _. destruct n; [lia |]. specialize (Hb ltac:(congruence)). lia.
Qed.

Lemma init_str_wp pcs s i n :
  0 <= i ->
  wp (fun l => l = map written_over (slice s i (Z.of_nat n)) /\
               (n <> O -> i + Z.of_nat n <= size s))
     (init_str pcs s n i).
Proof.
  revert i. induction n as [| n IH]; intros i Hi; simpl.
  - split; [reflexivity | congruence].
  - apply wp_bind. eapply wp_mono; [apply wp_read |].
    intros c [Hc Hn]. apply wp_bind.
    eapply wp_mono; [apply wp_or_A |]. intros a ->.
    apply wp_bind. eapply wp_mono; [apply (IH (i + 1)); lia |].
    intros cs [-> Hb]. simpl.
    assert (Hr : read s i = Returns c) by (apply read_Returns; auto).
    split.
    + replace (Z.pos (Pos.of_succ_nat n)) with (Z.of_nat n + 1) by lia.
      rewrite (slice_cons _ _ _ _ Hr) by lia. reflexivity.
    + intros _. destruct n; [lia |]. specialize (Hb ltac:(congruence)). lia.
Qed.

Lemma first_bad_wp pcs s n i :
  0 <= i ->
  wp (fun r =>
        match r with
        | None =>
            forallb nucleotide (slice s i (Z.of_nat n)) = true /\
            (n <> O -> i + Z.of_nat n <= size s)
        | Some j =>
            i <= j < i + Z.of_nat n /\ j < size s /\
            forallb nucleotide (slice s i (j - i)) = true /\
            exists c, read s j = Returns c /\ nucleotide c = false
        end)
     (first_bad pcs s n i).
Proof.
  revert i. induction n as [| n IH]; intros i Hi; simpl.
  - split; [reflexivity | congruence].
  - apply wp_bind. eapply wp_mono; [apply wp_read |].
    intros c [Hc Hn].
    assert (Hr : read s i = Returns c) by (apply read_Returns; auto).
    apply wp_bind. eapply wp_mono; [apply wp_is_ACTG |]. intros b ->.
    destruct (nucleotide c) eqn:Hnc.
    + eapply wp_mono; [apply (IH (i + 1)); lia |].
      intros [j |].
      * intros (Hj & Hjs & Hall & Hbad). repeat split; try lia; [| assumption].
        replace (j - i) with ((j - (i + 1)) + 1) by lia.
        rewrite (slice_cons _ _ _ _ Hr) by lia. simpl. rewrite Hnc. exact Hall.
      * intros [Hall Hb]. split.
        -- replace (Z.pos (Pos.of_succ_nat n)) with (Z.of_nat n + 1) by lia.
           rewrite (slice_cons _ _ _ _ Hr) by lia. simpl. rewrite Hnc.
           exact Hall.
        -- intros _. destruct n; [lia |]. specialize (Hb ltac:(congruence)). lia.
    + simpl. repeat split; try lia.
      * rewrite slice_nonpos by lia. reflexivity.
      * exists c. auto.
Qed.

Lemma base_hashes_wp H buf k :
  forallb nucleotide (firstn (Z.to_nat k) buf) = true ->
  wp (fun h => size (firstn (Z.to_nat k) buf) >= k /\
               h = kmer_hashes H (firstn (Z.to_nat k) buf) k)
     (base_hashes H buf k).
Proof.
  intros Hall. unfold base_hashes.
  destruct (Z.ltb_spec (size (firstn (Z.to_nat k) buf)) k); simpl.
  - reflexivity.
  - rewrite Hall. simpl. split; [lia | reflexivity].
Qed.

Lemma next_hashes_wp H d o i :
  nucleotide o = true -> nucleotide i = true ->
  wp (fun h => h = (next_forward_hash H (fhash d) (k d) o i,
                    next_reverse_hash H (rhash d) (k d) o i,
                    canonical H (next_forward_hash H (fhash d) (k d) o i)
                                (next_reverse_hash H (rhash d) (k d) o i)))
     (next_hashes H d o i).
Proof.
  intros Ho Hi. unfold next_hashes. rewrite Ho, Hi. reflexivity.
Qed.

Lemma init_hash_skip_over_loop_wp pcs H fuel d :
  unsigned (k d) -> 4 <= k d -> len d = size (seq d) -> size_t (len d) ->
  size_t (start d) -> end_ d = u64 (start d + k d) -> c_outs d = [] ->
  0 < Z.of_nat fuel -> len d - start d < Z.of_nat fuel ->
  wp (init_hash_post H SKIPOVER d) (init_hash_skip_over_loop pcs H fuel d).
Proof.
  revert d. induction fuel as [| fuel IH];
    intros d Hk Hk4 Hlen Hsz Hst Hend Hc Hf0 Hf; [lia |].
  cbn [init_hash_skip_over_loop].
  destruct (Z.ltb_spec (u64 (end_ d - 1)) (len d)) as [Hg | Hg].
  - apply wp_bind. eapply wp_mono; [apply first_bad_wp; wrap_lia |].
    intros [i |].
    + intros (Hi & Hisz & Hall & c & Hr & Hbad).
      assert (He : end_ d = start d + k d) by wrap_lia.
      eapply wp_mono.
      { apply IH; cbn [k len seq start end_ c_outs set_start set_end];
          try assumption; try wrap_lia. }
      unfold init_hash_post.
      cbn [k len seq start end_ c_outs set_start set_end set_c_outs].
      rewrite (u64_small (i + 1)) by wrap_lia.
      intros r (p & Hp & _ & Hple & Hskip & Hres). exists p.
      split; [lia |]. split; [discriminate |]. split; [right; lia |]. split.
      * intros q Hq. destruct (Z_le_gt_dec q i) as [Hqi | Hqi].
        -- exists i, c. repeat split; try lia; assumption.
        -- apply Hskip. lia.
      * destruct (fst r).
        -- exact Hres.
        -- exact Hres.
    + intros [Hall Hb]. apply wp_bind.
      eapply wp_mono; [apply read_n_wp; wrap_lia |].
      intros kmer [-> Hb2]. rewrite Z2Nat.id in * by lia.
      specialize (Hb2 ltac:(lia)).
      assert (He : end_ d = start d + k d) by wrap_lia.
      assert (Hsl : size (slice (seq d) (start d) (k d)) = k d)
        by (apply slice_size; wrap_lia).
      assert (Hfn : firstn (Z.to_nat (k d)) (slice (seq d) (start d) (k d))
                    = slice (seq d) (start d) (k d)).
      { unfold slice. rewrite firstn_firstn. f_equal. lia. }
      rewrite He in Hall. replace (start d + k d - start d) with (k d) in Hall by lia.
      rewrite Z2Nat.id in Hall by lia.
      apply wp_bind. eapply wp_mono; [apply base_hashes_wp; rewrite Hfn; exact Hall |].
      intros h [_ ->]. rewrite Hfn. cbn [wp fst snd].
      exists (start d). split; [lia |]. split; [reflexivity |]. split; [left; reflexivity |]. split; [intros; lia |].
      cbn [view]. split; [lia |]. split; [exact Hall |].
      rewrite <- He. destruct d; cbn in *. subst. reflexivity.
  - cbn [wp fst snd]. exists (start d).
    split; [lia |]. split; [reflexivity |]. split; [left; reflexivity |].
    split; [intros; lia |]. cbn [fst snd]. split; [wrap_lia |].
    rewrite <- Hend. destruct d; cbn in *. subst. reflexivity.
Qed.

Lemma init_hash_wp pcs H P d :
  unsigned (k d) -> 4 <= k d -> len d = size (seq d) -> size_t (len d) ->
  size_t (start d) -> end_ d = u64 (start d + k d) ->
  wp (init_hash_post H P d) (init_hash pcs H P d).
Proof.
  intros Hk Hk4 Hlen Hsz Hst Hend. unfold init_hash. destruct P.
  - unfold init_hash_write_over.
    cbn [k len seq start end_ c_outs set_c_outs].
    destruct (Z.ltb_spec (u64 (end_ d - 1)) (len d)) as [Hg | Hg].
    + apply wp_bind. eapply wp_mono; [apply init_str_wp; wrap_lia |].
      intros str [-> Hb].
      set (n := Z.to_nat (end_ d - start d)) in *.
      apply wp_bind.
      eapply wp_mono.
      { apply base_hashes_wp. rewrite firstn_map.
        rewrite forallb_forall. intros x Hx. apply in_map_iff in Hx as (y & <- & _).
        apply nucleotide_written_over. }
      intros h [Hsize ->]. cbn [wp fst snd].
      rewrite firstn_map in *. unfold size in Hsize.
      rewrite length_map in Hsize. fold (size (firstn (Z.to_nat (k d)) (slice (seq d) (start d) (Z.of_nat n)))) in Hsize.
      assert (He : end_ d = start d + k d).
      { pose proof (slice_size_le (seq d) (start d) (Z.of_nat n) ltac:(lia)).
        assert (size (firstn (Z.to_nat (k d)) (slice (seq d) (start d) (Z.of_nat n)))
                <= size (slice (seq d) (start d) (Z.of_nat n))).
        { unfold size. rewrite length_firstn. lia. }
        subst n. wrap_lia. }
      assert (Hn : Z.of_nat n = k d) by (subst n; lia).
      rewrite Hn in *.
      assert (Hfn : firstn (Z.to_nat (k d)) (slice (seq d) (start d) (k d))
                    = slice (seq d) (start d) (k d)).
      { unfold slice. rewrite firstn_firstn. f_equal. lia. }
      rewrite Hfn in *.
      exists (start d). split; [lia |]. split; [reflexivity |]. split; [left; reflexivity |]. split; [intros; lia |].
      cbn [view fst snd]. split; [subst n; lia |]. split.
      * rewrite forallb_forall. intros x Hx. apply in_map_iff in Hx as (y & <- & _).
        apply nucleotide_written_over.
      * rewrite <- He. destruct d; cbn in *. reflexivity.
    + cbn [wp fst snd]. exists (start d).
      split; [lia |]. split; [reflexivity |]. split; [left; reflexivity |].
      split; [intros; lia |]. cbn [fst snd]. split; [wrap_lia |].
      rewrite <- Hend. destruct d; cbn in *. reflexivity.
  - unfold init_hash_skip_over.
    eapply wp_mono.
    { apply init_hash_skip_over_loop_wp;
        cbn [k len seq start end_ c_outs set_c_outs]; try assumption;
        try reflexivity; unfold size in *; wrap_lia. }
    intros r Hr. exact Hr.
Qed.

Lemma size_rev {A} (l : list A) : size (rev l) = size l.
Proof. unfold size. rewrite length_rev. reflexivity. Qed.

Lemma size_map {A B} (f : A -> B) (l : list A) : size (map f l) = size l.
Proof. unfold size. rewrite length_map. reflexivity. Qed.

Lemma append_tail_loop pcs P fuel d temp ind :
  unsigned (k d) -> 4 <= k d -> len d = size (seq d) -> size_t (len d) ->
  size_t (start d) ->
  0 <= ind < len d ->
  temp = rev (map written_over (slice (seq d) (ind + 1) (len d - 1 - ind))) ->
  (P = SKIPOVER ->
   forallb nucleotide (slice (seq d) (ind + 1) (len d - 1 - ind)) = true) ->
  (ind + 1 = len d \/ start d <= ind + 1) ->
  (size (c_outs d) <= k d - 1 -> size temp + size (c_outs d) <= k d - 1) ->
  k d - 1 - size (c_outs d) - size temp < Z.of_nat fuel ->
  wp (append_tail_post P d) (append_tail pcs P fuel d temp ind).
Proof.
  intros Hk Hk4 Hlen Hsz Hst. revert temp ind.
  induction fuel as [| fuel IH]; intros temp ind Hind Htemp Hall Hj Hcap Hfuel.
  - assert (Hs : size temp = len d - 1 - ind).
    { subst temp. rewrite size_rev, size_map. apply slice_size; lia. }
    cbn [append_tail].
    destruct (Z.ltb_spec (size temp + size (c_outs d)) (u32 (k d - 1)));
      cbn [andb]; [wrap_lia |].
    cbn [wp]. exists (ind + 1).
    replace (len d - (ind + 1)) with (len d - 1 - ind) by lia.
    repeat split; try lia; try assumption.
  - assert (Hs : size temp = len d - 1 - ind).
    { subst temp. rewrite size_rev, size_map. apply slice_size; lia. }
    cbn [append_tail].
    destruct (Z.ltb_spec (size temp + size (c_outs d)) (u32 (k d - 1))) as [Hg1 | Hg1];
      destruct (Z.leb_spec (start d) ind) as [Hg2 | Hg2]; cbn [andb].
    2-4: cbn [wp]; exists (ind + 1);
         replace (len d - (ind + 1)) with (len d - 1 - ind) by lia;
         repeat split; try lia; try assumption;
         solve [left; wrap_lia | right; left; lia].
    apply wp_bind. eapply wp_mono; [apply wp_read |]. intros x [Hx Hn].
    assert (Hr : read (seq d) ind = Returns x) by (apply read_Returns; auto).
    apply wp_bind. eapply wp_mono; [apply wp_is_ACTG |]. intros b ->.
    assert (Hsl : slice (seq d) ind (len d - ind)
                  = x :: slice (seq d) (ind + 1) (len d - 1 - ind)).
    { replace (len d - ind) with (len d - 1 - ind + 1) by lia.
      apply slice_cons; [assumption | lia]. }
    assert (Hpush : forall t,
      (P = SKIPOVER -> nucleotide x = true) ->
      t = temp ++ [written_over x] ->
      wp (append_tail_post P d)
         (if ind =? 0 then Returns t
          else append_tail pcs P fuel d t (u64 (ind - 1)))).
    { intros t Hnx ->.
      assert (Ht : temp ++ [written_over x]
                   = rev (map written_over (slice (seq d) ind (len d - ind)))).
      { rewrite Hsl. cbn [map rev]. rewrite <- Htemp. reflexivity. }
      assert (Hall' : P = SKIPOVER ->
                forallb nucleotide (slice (seq d) ind (len d - ind)) = true).
      { intros HP. rewrite Hsl. cbn [forallb]. rewrite (Hnx HP), (Hall HP).
        reflexivity. }
      destruct (Z.eqb_spec ind 0) as [-> | Hne].
      - cbn [wp]. exists 0. rewrite Z.sub_0_r in *.
        repeat split; try lia; try assumption.
        + intros Hc. specialize (Hcap Hc). wrap_lia.
        + right. left. wrap_lia.
      - rewrite (u64_small (ind - 1)) by wrap_lia.
        apply IH.
        + lia.
        + replace (ind - 1 + 1) with ind by lia.
          replace (len d - 1 - (ind - 1)) with (len d - ind) by lia. exact Ht.
        + replace (ind - 1 + 1) with ind by lia.
          replace (len d - 1 - (ind - 1)) with (len d - ind) by lia. exact Hall'.
        + right. lia.
        + intros Hc. rewrite size_app, size_cons, size_nil. wrap_lia.
        + rewrite size_app, size_cons, size_nil. lia. }
    destruct P; destruct (nucleotide x) eqn:Hnx.
    + apply Hpush; [discriminate |]. unfold written_over. rewrite Hnx. reflexivity.
    + apply Hpush; [discriminate |]. unfold written_over. rewrite Hnx. reflexivity.
    + apply Hpush; [reflexivity |]. unfold written_over. rewrite Hnx. reflexivity.
    + cbn [wp]. exists (ind + 1).
      replace (len d - (ind + 1)) with (len d - 1 - ind) by lia.
      repeat split; try lia; try assumption.
      right. right. split; [reflexivity |]. exists x.
      replace (ind + 1 - 1) with ind by lia. auto.
Qed.

Lemma append_tail_wp pcs P d :
  unsigned (k d) -> 4 <= k d -> len d = size (seq d) -> size_t (len d) ->
  size_t (start d) ->
  wp (append_tail_post P d)
     (append_tail pcs P (Z.to_nat (k d)) d [] (u64 (len d - 1))).
Proof.
  intros Hk Hk4 Hlen Hsz Hst.
  destruct (Z.eq_dec (len d) 0) as [H0 | H0].
  - destruct (Z.to_nat (k d)) as [| fuel] eqn:Hfuel; [lia |].
    cbn [append_tail].
    destruct (Z.ltb_spec (size (@nil byte) + size (c_outs d)) (u32 (k d - 1))) as [Hg1 | Hg1];
      destruct (Z.leb_spec (start d) (u64 (len d - 1))) as [Hg2 | Hg2]; cbn [andb].
    2-4: cbn [wp]; exists 0; rewrite H0; rewrite size_nil in *;
         repeat split; try lia; try reflexivity; wrap_lia.
    apply wp_bind. eapply wp_mono; [apply wp_read |]. intros x [Hx _]. wrap_lia.
  - rewrite (u64_small (len d - 1)) by wrap_lia.
    apply append_tail_loop; try assumption; try wrap_lia.
    + replace (len d - 1 - (len d - 1)) with 0 by lia.
      rewrite slice_nonpos by lia. reflexivity.
    + intros _. rewrite slice_nonpos by lia. reflexivity.
    + rewrite size_nil. lia.
    + rewrite size_nil. pose proof (size_nonneg (c_outs d)). wrap_lia.
Qed.

Lemma append_head_skip_over_wp pcs H n seq' len' ind d :
  unsigned (k d) -> 4 <= k d -> len' = size seq' -> size_t len' ->
  0 <= ind -> ind + Z.of_nat n = len' -> start d = ind -> end_ d = ind ->
  wp (append_head_post H SKIPOVER seq' len' ind d)
     (append_head_skip_over pcs H SKIPOVER n seq' len' ind d).
Proof.
  revert ind d. induction n as [| n IH];
    intros ind d Hk Hk4 Hlen Hsz Hind Hn Hs He.
  - cbn [append_head_skip_over wp]. left. exists 0.
    rewrite slice_nonpos by lia. cbn [map]. rewrite app_nil_r, !Z.add_0_r.
    repeat split; try lia. destruct d; cbn in *; subst; reflexivity.
  - cbn [append_head_skip_over].
    destruct (Z.ltb_spec (size (c_outs d)) (k d)) as [Hg | Hg].
    + apply wp_bind. eapply wp_mono; [apply wp_read |]. intros x [Hx Hnth].
      assert (Hr : read seq' ind = Returns x) by (apply read_Returns; auto).
      apply wp_bind. eapply wp_mono; [apply wp_is_ACTG |]. intros b ->.
      destruct (nucleotide x) eqn:Hnx; cbn [negb].
      * eapply wp_mono.
        { apply (IH (ind + 1)); cbn [k start end_ set_end set_start set_c_outs];
            try assumption; try wrap_lia. }
        intros d' Hd'. unfold append_head_post in Hd' |- *.
        cbn [k start end_ set_end set_start set_c_outs c_outs] in Hd'.
        rewrite Hs, He, !(u64_small (ind + 1)) in Hd' by wrap_lia.
        destruct Hd' as [(m & Hm & Hle & Hall & Hcap & Hstop & ->) | (HP & j & b & r & Hj & Hall & Hcap & Hrj & Hb & Hpost & ->)].
        -- left. exists (m + 1).
           rewrite size_app, size_cons, size_nil in *.
           replace (m + 1) with (1 + m) by lia.
           rewrite (slice_app seq' ind 1 m) by lia.
           rewrite (slice_one _ _ _ Hr).
           repeat split; try lia.
           ++ intros _. cbn [app forallb]. rewrite Hnx. apply Hall. reflexivity.
           ++ cbn [app map]. unfold written_over at 2. rewrite Hnx.
              rewrite <- app_assoc. cbn [app].
              same_cursor.
        -- right. split; [reflexivity |]. exists j, b, r.
           rewrite size_app, size_cons, size_nil in *.
           repeat split; try lia; try assumption.
           replace (j - ind) with (1 + (j - (ind + 1))) by lia.
           rewrite (slice_app seq' ind 1) by lia.
           rewrite (slice_one _ _ _ Hr). cbn [app forallb]. rewrite Hnx. exact Hall.
      * rewrite (u64_small (ind + 1)) by wrap_lia.
        apply wp_bind. eapply wp_mono.
        { apply init_hash_wp;
            cbn [k len seq start end_ set_end set_start set_c_outs set_seq];
            try assumption; try wrap_lia. }
        intros r Hpost. cbn [wp]. right. split; [reflexivity |].
        exists ind, x, r. replace (ind - ind) with 0 by lia.
        rewrite slice_nonpos by lia.
        repeat split; try lia; try assumption.
    + cbn [wp]. left. exists 0.
      rewrite slice_nonpos by lia. cbn [map]. rewrite app_nil_r, !Z.add_0_r.
      repeat split; try lia. destruct d; cbn in *; subst; reflexivity.
Qed.

Lemma append_head_write_over_wp pcs H n seq' len' ind d :
  unsigned (k d) -> 4 <= k d -> len' = size seq' -> size_t len' ->
  0 <= ind -> ind + Z.of_nat n = len' -> start d = ind -> end_ d = ind ->
  wp (append_head_post H WRITEOVER seq' len' ind d)
     (append_head_write_over pcs n seq' ind d).
Proof.
  revert ind d. induction n as [| n IH];
    intros ind d Hk Hk4 Hlen Hsz Hind Hn Hs He.
  - cbn [append_head_write_over wp]. left. exists 0.
    rewrite slice_nonpos by lia. cbn [map]. rewrite app_nil_r, !Z.add_0_r.
    repeat split; try lia; try discriminate. destruct d; cbn in *; subst; reflexivity.
  - cbn [append_head_write_over].
    destruct (Z.ltb_spec (size (c_outs d)) (k d)) as [Hg | Hg].
    + apply wp_bind. eapply wp_mono; [apply wp_read |]. intros x [Hx Hnth].
      assert (Hr : read seq' ind = Returns x) by (apply read_Returns; auto).
      apply wp_bind. eapply wp_mono; [apply wp_or_A |]. intros a ->.
      eapply wp_mono.
      { apply (IH (ind + 1)); fields; try assumption; try wrap_lia. }
      intros d' Hd'. unfold append_head_post in Hd' |- *. fields.
      rewrite Hs, He, !(u64_small (ind + 1)) in Hd' by wrap_lia.
      destruct Hd' as [(m & Hm & Hle & Hall & Hcap & Hstop & ->) | (HP & _)];
        [| discriminate].
      left. exists (m + 1).
      rewrite size_app, size_cons, size_nil in *.
      replace (m + 1) with (1 + m) by lia.
      rewrite (slice_app seq' ind 1 m) by lia.
      rewrite (slice_one _ _ _ Hr).
      repeat split; try lia; try discriminate.
      cbn [app map]. rewrite <- app_assoc. cbn [app]. same_cursor.
    + cbn [wp]. left. exists 0.
      rewrite slice_nonpos by lia. cbn [map]. rewrite app_nil_r, !Z.add_0_r.
      repeat split; try lia; try discriminate. destruct d; cbn in *; subst; reflexivity.
Qed.

Lemma init_hash_well_formed pcs H P d :
  unsigned (k d) -> 4 <= k d -> len d = size (seq d) -> size_t (len d) ->
  size_t (start d) -> end_ d = u64 (start d + k d) ->
  wp (fun r => well_formed P (snd r) /\ is_valid_hash (snd r) = fst r /\
               c_outs (snd r) = [] /\ k (snd r) = k d)
     (init_hash pcs H P d).
Proof.
  intros Hk Hk4 Hlen Hsz Hst Hend.
  eapply wp_mono; [apply init_hash_wp; assumption |].
  intros [b d'] (p & Hp & _ & Hple & _ & Hres). cbn [fst snd] in *.
  destruct b.
  - destruct Hres as (Hpk & Hall & ->). unfold well_formed. fields.
    rewrite size_nil.
    conj; try assumption; try reflexivity; try wrap_lia.
    intros -> _ i c Hi Hr. fields. cbn [view] in Hall.
    eapply forallb_slice_elim; [| exact Hall | | exact Hr]; wrap_lia.
  - destruct Hres as (Hgt & ->). unfold well_formed. fields.
    rewrite size_nil.
    pose proof (u64_range (p + k d)).
    conj; try assumption; try reflexivity; try discriminate;
      try wrap_lia.
Qed.

Lemma roll_one_well_formed pcs H P d :
  well_formed P d ->
  wp (fun r => well_formed P (snd r) /\ is_valid_hash (snd r) = fst r /\
               k (snd r) = k d /\
               (fst r = true -> size (c_outs (snd r)) <= k d - 1))
     (roll_one pcs H P d).
Proof.
  intros (Hk & Hk4 & Hlen & Hsz & Hst & Hen & Hc & Hall & Hse & Hrn).
  assert (Hinit : forall d3,
    k d3 = k d -> seq d3 = seq d -> len d3 = len d ->
    size_t (start d3) -> end_ d3 = u64 (start d3 + k d3) ->
    wp (fun r => well_formed P (snd r) /\ is_valid_hash (snd r) = fst r /\
                 k (snd r) = k d /\
                 (fst r = true -> size (c_outs (snd r)) <= k d - 1))
       (init_hash pcs H P d3)).
  { intros d3 E1 E2 E3 Hs3 He3.
    eapply wp_mono; [apply init_hash_well_formed; congruence |].
    intros r (Hwf & Hv & Hc0 & Hk0). conj; try assumption; try congruence.
    intros _. rewrite Hc0, size_nil. lia. }
  unfold roll_one. destruct P.
  - (* WRITEOVER *)
    unfold roll_one_write_over.
    destruct (is_valid_hash d) eqn:Hv; cbn [negb].
    2:{ cbn [wp fst snd]. unfold well_formed. rewrite Hv.
        conj; try assumption; try discriminate; try reflexivity. }
    specialize (Hse eq_refl).
    destruct (Z.leb_spec (len d) (end_ d)) as [Hle | Hlt].
    { cbn [wp fst snd]. unfold well_formed. fields.
      conj; try assumption; try discriminate; try reflexivity. }
    apply wp_bind. eapply wp_mono; [apply wp_read |]. intros c [Hci Hcn].
    apply wp_bind. eapply wp_mono; [apply wp_or_A |]. intros nc ->.
    destruct (c_outs d) as [| front rest] eqn:Hco.
    + apply wp_bind. eapply wp_mono; [apply wp_read |]. intros o [Hoi Hon].
      apply wp_bind. eapply wp_mono; [apply wp_or_A |]. intros oc ->.
      apply wp_bind.
      eapply wp_mono; [apply next_hashes_wp; apply nucleotide_written_over |].
      intros h ->. cbn [wp fst snd]. unfold well_formed. fields.
      rewrite Hco, size_nil.
      pose proof (u64_range (start d + 1)). pose proof (u64_range (end_ d + 1)).
      conj; try assumption; try reflexivity; try discriminate;
        try wrap_lia.
    + cbn [forallb] in Hall. apply andb_prop in Hall as [Hf Hall].
      rewrite size_cons in Hc.
      apply wp_bind.
      eapply wp_mono; [apply next_hashes_wp;
                       [exact Hf | apply nucleotide_written_over] |].
      intros h ->. cbn [wp fst snd]. unfold well_formed. fields.
      pose proof (u64_range (end_ d + 1)).
      conj; try assumption; try reflexivity; try discriminate;
        try wrap_lia.
  - (* SKIPOVER *)
    unfold roll_one_skip_over.
    destruct (is_valid_hash d) eqn:Hv; cbn [negb].
    2:{ cbn [wp fst snd]. unfold well_formed. rewrite Hv.
        conj; try assumption; try discriminate; try reflexivity. }
    specialize (Hse eq_refl). specialize (Hrn eq_refl eq_refl).
    destruct (Z.leb_spec (len d) (end_ d)) as [Hle | Hlt].
    { cbn [wp fst snd]. unfold well_formed. fields.
      conj; try assumption; try discriminate; try reflexivity. }
    apply wp_bind. eapply wp_mono; [apply wp_read |]. intros c [Hci Hcn].
    assert (Hrc : read (seq d) (end_ d) = Returns c)
      by (apply read_Returns; auto).
    apply wp_bind. eapply wp_mono; [apply wp_is_ACTG |]. intros b ->.
    destruct (c_outs d) as [| front rest] eqn:Hco;
      destruct (nucleotide c) eqn:Hnc.
    + apply wp_bind. eapply wp_mono; [apply wp_read |]. intros o [Hoi Hon].
      assert (Hro : read (seq d) (start d) = Returns o)
        by (apply read_Returns; auto).
      assert (Hno : nucleotide o = true).
      { destruct (Z.eq_dec (start d) (end_ d)) as [E | E].
        - rewrite E in Hro. congruence.
        - apply (Hrn (start d) o); [lia | assumption]. }
      apply wp_bind.
      eapply wp_mono; [apply next_hashes_wp; assumption |].
      intros h ->. cbn [wp fst snd]. unfold well_formed. fields.
      rewrite Hco, size_nil.
      pose proof (u64_range (start d + 1)). pose proof (u64_range (end_ d + 1)).
      conj; try assumption; try reflexivity; try discriminate;
        try wrap_lia.
      intros _ _ i x Hi Hr. fields.
      rewrite (u64_small (start d + 1)), (u64_small (end_ d + 1)) in Hi by wrap_lia.
      destruct (Z.eq_dec i (end_ d)) as [-> | E]; [congruence |].
      apply (Hrn i x); [lia | assumption].
    + apply Hinit; fields; try reflexivity. apply u64_range.
    + cbn [forallb] in Hall. apply andb_prop in Hall as [Hf Hall].
      rewrite size_cons in Hc.
      apply wp_bind.
      eapply wp_mono; [apply next_hashes_wp; assumption |].
      intros h ->. cbn [wp fst snd]. unfold well_formed. fields.
      pose proof (u64_range (end_ d + 1)).
      conj; try assumption; try reflexivity; try discriminate;
        try wrap_lia.
      intros _ _ i x Hi Hr. fields.
      rewrite (u64_small (end_ d + 1)) in Hi by wrap_lia.
      destruct (Z.eq_dec i (end_ d)) as [-> | E]; [congruence |].
      apply (Hrn i x); [lia | assumption].
    + apply Hinit; fields; try reflexivity. apply u64_range.
Qed.

Lemma forallb_written_over s : forallb nucleotide (map written_over s) = true.
Proof.
  rewrite forallb_forall. intros x Hx. apply in_map_iff in Hx as (y & <- & _).
  apply nucleotide_written_over.
Qed.

Lemma forallb_tl (Q : byte -> bool) s :
  forallb Q s = true -> forallb Q (tl s) = true.
Proof.
  destruct s; cbn; [auto |]. intros Hq. apply andb_prop in Hq. tauto.
Qed.

Lemma size_tl {A} (s : list A) : 0 < size s -> size (tl s) = size s - 1.
Proof.
  destruct s; [intros Hs; unfold size in Hs; simpl in Hs; lia |]. intros _. rewrite size_cons. cbn [tl]. lia.
Qed.

Lemma append_popped_fields d :
  seq (append_popped d) = seq d /\ len (append_popped d) = len d /\
  start (append_popped d) = start d /\ end_ (append_popped d) = end_ d /\
  k (append_popped d) = k d /\
  is_valid_hash (append_popped d) = is_valid_hash d /\
  offset (append_popped d) = u64 (offset d + len d) /\
  fhash (append_popped d) = fhash d /\ rhash (append_popped d) = rhash d /\
  chash (append_popped d) = chash d /\
  minimized_h (append_popped d) = minimized_h d.
Proof.
  unfold append_popped. fields. destruct (_ && _); fields; repeat split.
Qed.

Lemma append_popped_carry P d :
  well_formed P d ->
  size (c_outs (append_popped d)) <= k d - 1 /\
  forallb nucleotide (c_outs (append_popped d)) = true.
Proof.
  intros (Hk & Hk4 & Hlen & Hsz & Hst & Hen & Hc & Hall & Hse & Hrn).
  unfold append_popped. fields.
  destruct (Z.eqb_spec (size (c_outs d)) (k d)) as [E | E];
    destruct (Z.ltb_spec 0 (size (c_outs d))) as [Hp | Hp];
    destruct (start d =? end_ d); cbn [negb orb andb]; fields;
    try (split; [lia | assumption]);
    (split; [rewrite size_tl by assumption; lia
            | apply forallb_tl; assumption]).
Qed.

Lemma append_head_wp pcs H P s d :
  unsigned (k d) -> 4 <= k d -> size_t (size s) ->
  start d = 0 -> end_ d = 0 ->
  wp (append_head_post H P s (size s) 0 d)
     (match P with
      | SKIPOVER =>
          append_head_skip_over pcs H P (Z.to_nat (size s)) s (size s) 0 d
      | WRITEOVER => append_head_write_over pcs (Z.to_nat (size s)) s 0 d
      end).
Proof.
  intros Hk Hk4 Hs H0 H1. destruct P.
  - apply append_head_write_over_wp; try assumption; try reflexivity;
      unfold size in *; lia.
  - apply append_head_skip_over_wp; try assumption; try reflexivity;
      unfold size in *; lia.
Qed.

Lemma append_seq_unfold pcs H P s d :
  append_seq pcs H P s (size s) d =
  if end_ d <? len d then Throws NotRolledTillEndException d
  else
    temp_vec <- append_tail pcs P (Z.to_nat (k (append_popped d)))
                  (append_popped d) []
                  (u64 (len (append_popped d) - 1)) ;;
    d3 <- match P with
          | SKIPOVER =>
              append_head_skip_over pcs H P (Z.to_nat (size s)) s (size s) 0
                (append_carried (append_popped d) temp_vec)
          | WRITEOVER =>
              append_head_write_over pcs (Z.to_nat (size s)) s 0
                (append_carried (append_popped d) temp_vec)
          end ;;
    d4 <- (if size (c_outs d3) =? k d3 then
             h <- base_hashes H (c_outs d3) (k d3) ;;
             Returns (set_is_valid_hash true (set_hashes h d3))
           else Returns d3) ;;
    Returns (tt, set_seq s (size s) d4).
Proof.
  unfold append_seq, append_popped, append_carried. fields.
  destruct (end_ d <? len d); [reflexivity |].
  destruct (_ && _); reflexivity.
Qed.

Lemma forallb_rev_true (Q : byte -> bool) s :
  forallb Q s = true -> forallb Q (rev s) = true.
Proof.
  rewrite !forallb_forall. intros Hq x Hx. apply Hq, in_rev. exact Hx.
Qed.

Lemma firstn_size {A} (s : list A) n : size s = n -> firstn (Z.to_nat n) s = s.
Proof. intros <-. unfold size. rewrite Nat2Z.id. apply firstn_all. Qed.

Lemma append_head_post_carry H P s ind d d' :
  forallb nucleotide (c_outs d) = true ->
  append_head_post H P s (size s) ind d d' ->
  forallb nucleotide (c_outs d') = true /\ k d' = k d.
Proof.
  intros Hall [(m & _ & _ & _ & _ & _ & ->) | (_ & j & b & r & _ & _ & _ & _ & _ & Hpost & ->)].
  - fields. rewrite forallb_app, Hall, forallb_written_over. auto.
  - destruct Hpost as (p & _ & _ & _ & _ & Hres). destruct (fst r).
    + destruct Hres as (_ & _ & ->). fields. auto.
    + destruct Hres as (_ & ->). fields. auto.
Qed.

Lemma append_seq_wp pcs H P s d :
  well_formed P d -> size_t (size s) -> len d <= end_ d ->
  wp (fun r => append_seq_post H P s d (snd r))
     (append_seq pcs H P s (size s) d).
Proof.
  intros Hwf Hs Hle.
  destruct (append_popped_carry P d Hwf) as [Hpc Hpn].
  destruct Hwf as (Hk & Hk4 & Hlen & Hsz & Hst & Hen & Hc & Hall & Hse & Hrn).
  destruct (append_popped_fields d)
    as (F1 & F2 & F3 & F4 & F5 & F6 & F7 & F8 & F9 & F10 & F11).
  rewrite append_seq_unfold.
  destruct (Z.ltb_spec (end_ d) (len d)); [lia |].
  apply wp_bind. eapply wp_mono.
  { apply append_tail_wp; rewrite ?F1, ?F2, ?F3, ?F5; assumption. }
  intros temp Htemp.
  assert (Hrt : forallb nucleotide (rev temp) = true).
  { destruct Htemp as (j & _ & _ & -> & _). rewrite rev_involutive.
    apply forallb_written_over. }
  apply wp_bind. eapply wp_mono.
  { apply append_head_wp; unfold append_carried; fields;
      rewrite ?F5; try assumption; reflexivity. }
  intros d3 Hhead.
  assert (Hcar : forallb nucleotide
                   (c_outs (append_carried (append_popped d) temp)) = true).
  { unfold append_carried. fields. rewrite forallb_app, Hpn, Hrt. reflexivity. }
  destruct (append_head_post_carry H P s 0 _ d3 Hcar Hhead) as [Hn3 Hk3].
  assert (HP : append_seq_post H P s d
                 (append_finished H s d3)).
  { exists temp, d3. auto. }
  destruct (Z.eqb_spec (size (c_outs d3)) (k d3)) as [E | E].
  - apply wp_bind. apply wp_bind. eapply wp_mono.
    { apply base_hashes_wp. rewrite (firstn_size _ _ E). exact Hn3. }
    intros h [_ ->]. rewrite (firstn_size _ _ E). cbn [wp bind snd].
    unfold append_finished in HP.
    destruct (Z.eqb_spec (size (c_outs d3)) (k d3)); [exact HP | contradiction].
  - cbn [wp bind snd]. unfold append_finished in HP.
    destruct (Z.eqb_spec (size (c_outs d3)) (k d3)); [contradiction | exact HP].
Qed.

Lemma init_hash_post_well_formed H P d r :
  unsigned (k d) -> 4 <= k d -> len d = size (seq d) -> size_t (len d) ->
  size_t (start d) -> init_hash_post H P d r ->
  well_formed P (snd r) /\ is_valid_hash (snd r) = fst r /\
  c_outs (snd r) = [] /\ k (snd r) = k d /\
  seq (snd r) = seq d /\ len (snd r) = len d /\ offset (snd r) = offset d.
Proof.
  intros Hk Hk4 Hlen Hsz Hst (p & Hp & _ & Hple & _ & Hres).
  destruct r as [b d']. cbn [fst snd] in *. destruct b.
  - destruct Hres as (Hpk & Hall & ->). unfold well_formed. fields.
    rewrite size_nil.
    conj; try assumption; try reflexivity; try wrap_lia.
    intros -> _ i c Hi Hr. fields. cbn [view] in Hall.
    eapply forallb_slice_elim; [| exact Hall | | exact Hr]; wrap_lia.
  - destruct Hres as (Hgt & ->). unfold well_formed. fields.
    rewrite size_nil.
    pose proof (u64_range (p + k d)).
    conj; try assumption; try reflexivity; try discriminate;
      try wrap_lia.
Qed.

Lemma set_seq_same d : set_seq (seq d) (len d) d = d.
Proof. destruct d; reflexivity. Qed.

Lemma append_tail_post_size P d temp :
  len d = size (seq d) -> append_tail_post P d temp ->
  size (c_outs d) <= k d - 1 ->
  size (c_outs d) + size temp <= k d - 1.
Proof.
  intros Hlen (j & Hj & _ & -> & _ & Hcap & _) Hc.
  rewrite size_rev, size_map, slice_size by lia. specialize (Hcap Hc). lia.
Qed.

Lemma append_seq_post_well_formed H P s d d' :
  well_formed P d -> size_t (size s) -> append_seq_post H P s d d' ->
  well_formed P d' /\ k d' = k d /\ seq d' = s /\ len d' = size s.
Proof.
  intros Hwf Hs (temp & d3 & Htail & Hhead & Hn3 & ->).
  destruct (append_popped_carry P d Hwf) as [Hpc Hpn].
  destruct (append_popped_fields d)
    as (F1 & F2 & F3 & F4 & F5 & F6 & F7 & F8 & F9 & F10 & F11).
  destruct Hwf as (Hk & Hk4 & Hlen & Hsz & Hst & Hen & Hc & Hall & Hse & Hrn).
  assert (Hts : size (c_outs (append_popped d)) + size temp <= k d - 1).
  { rewrite <- F5. apply (append_tail_post_size P); rewrite ?F1, ?F2, ?F5; assumption. }
  destruct Hhead as [(m & Hm & Hle & Hsl & Hcap & Hstop & ->)
                    | (HP & j & b & r & Hj & Hsl & Hcap & Hrj & Hb & Hpost & ->)].
  - unfold append_carried in *. fields. rewrite F5 in *.
    rewrite size_app, size_rev in Hcap.
    assert (Hsz3 : size ((c_outs (append_popped d) ++ rev temp)
                         ++ map written_over (slice s 0 m)) <= k d).
    { rewrite !size_app, size_rev, size_map, slice_size by lia. lia. }
    unfold append_finished. fields. rewrite F5.
    destruct (_ =? _); unfold well_formed; fields; rewrite ?F5, ?F6;
      (conj; try assumption; try reflexivity; try wrap_lia;
       intros; intros i c Hi; fields; lia).
  - apply init_hash_post_well_formed in Hpost;
      unfold append_carried in *; fields; rewrite ?F5; try assumption;
      try reflexivity; try wrap_lia.
    destruct Hpost as (Hwf3 & _ & Hc3 & Hk3 & Hs3 & Hl3 & _).
    unfold append_finished. rewrite Hc3, size_nil.
    destruct (Z.eqb_spec 0 (k (snd r))); [lia |].
    rewrite <- Hs3 at 1. rewrite <- Hl3. rewrite set_seq_same.
    rewrite F5 in *. auto.
Qed.

Lemma new_seq_safe pcs H P s pos d :
  well_formed P d -> size_t (size s) -> size_t pos ->
  safe_outcome P (k d) (perform pcs H P (NewSeq s pos) d).
Proof.
  intros (Hk & Hk4 & Hlen & Hsz & Hst & Hen & Hc & Hall & Hse & Hrn) Hs Hpos.
  unfold perform, new_seq_string, new_seq. fields.
  destruct (Z.leb_spec (size s) pos) as [Hle | Hlt]; cbn [bind safe_outcome].
  - unfold well_formed. fields. pose proof (u64_range (pos + k d)).
    conj; try assumption; try reflexivity; try discriminate.
  - pose proof (init_hash_well_formed pcs H P
      (set_is_valid_hash false (set_end (u64 (pos + k d))
         (set_start pos (set_offset 0 (set_seq s (size s) d)))))) as Hw.
    fields. specialize (Hw Hk Hk4 eq_refl Hs Hpos eq_refl).
    destruct (init_hash _ _ _ _) as [[b d'] | |]; cbn [wp bind safe_outcome snd] in *.
    + tauto.
    + contradiction.
    + assumption.
Qed.

Lemma perform_safe pcs H P c d :
  well_formed P d -> typed_call c ->
  safe_outcome P (k d) (perform pcs H P c d).
Proof.
  intros Hwf Hc. destruct c as [| s | s pos].
  - pose proof (roll_one_well_formed pcs H P d Hwf) as Hw.
    cbn [perform]. destruct (roll_one _ _ _ _) as [[b d'] | |];
      cbn [wp bind safe_outcome snd] in *; tauto.
  - cbn [perform typed_call] in *. unfold append_seq_string.
    destruct (Z.ltb_spec (end_ d) (len d)) as [Hlt | Hle].
    + unfold append_seq.
      destruct (Z.ltb_spec (end_ d) (len d)); [| lia].
      cbn [bind safe_outcome]. auto.
    + pose proof (append_seq_wp pcs H P s d Hwf Hc Hle) as Hw.
      destruct (append_seq _ _ _ _ _ _) as [[u d'] | |];
        cbn [wp bind safe_outcome snd] in *; try tauto.
      apply append_seq_post_well_formed in Hw; tauto.
  - destruct Hc. apply new_seq_safe; assumption.
Qed.

Lemma Digester_new_safe pcs H P s k' start' mh :
  size_t (size s) -> unsigned k' -> size_t start' ->
  match Digester_of_string pcs H P s k' start' mh with
  | Returns d => well_formed P d /\ k d = k' /\ c_outs d = []
  | Throws e _ => e = BadConstructionException
  | Undefined u => u = OutOfBoundsRead
  end.
Proof.
  intros Hs Hk Hst. unfold Digester_of_string, Digester_new.
  destruct (Z.ltb_spec k' 4) as [Hk4 | Hk4]; cbn [orb]; [reflexivity |].
  destruct (_ || _); [reflexivity |].
  pose proof (init_hash_well_formed pcs H P
    (mkDigester s (size s) 0 start' (u64 (start' + k')) 0 0 0 k' [] mh false))
    as Hw.
  fields. specialize (Hw Hk Hk4 eq_refl Hs Hst eq_refl).
  destruct (init_hash _ _ _ _) as [[b d'] | |]; cbn [wp bind snd] in *.
  - tauto.
  - contradiction.
  - assumption.
Qed.

Lemma reachable_well_formed pcs H P d :
  reachable pcs H P d -> well_formed P d.
Proof.
  induction 1 as [s k' start' mh d Hs Hk Hst Hmh Hnew
                 | c d d' Hr IH Hc Hp | c d e d' Hr IH Hc Hp].
  - pose proof (Digester_new_safe pcs H P s k' start' mh Hs Hk Hst) as Hw.
    rewrite Hnew in Hw. tauto.
  - pose proof (perform_safe pcs H P c d IH Hc) as Hw.
    rewrite Hp in Hw. apply Hw.
  - pose proof (perform_safe pcs H P c d IH Hc) as Hw.
    rewrite Hp in Hw. apply Hw.
Qed.

(** ** Which calls throw *)

Lemma no_throw_Returns {A} (x : A) : no_throw (Returns x).
Proof. intros e d. discriminate. Qed.

Lemma no_throw_Undefined {A} u : no_throw (@Undefined A u).
Proof. intros e d. discriminate. Qed.

Lemma no_throw_bind {A B} (m : outcome A) (f : A -> outcome B) :
  no_throw m -> (forall x, no_throw (f x)) -> no_throw (x <- m ;; f x).
Proof.
  intros Hm Hf e d. destruct m as [x | e' d' |]; cbn [bind].
  - apply Hf.
  - exfalso. exact (Hm e' d' eq_refl).
  - discriminate.
Qed.

Lemma no_throw_if {A} (b : bool) (m1 m2 : outcome A) :
  no_throw m1 -> no_throw m2 -> no_throw (if b then m1 else m2).
Proof. destruct b; auto. Qed.

Lemma no_throw_read s i : no_throw (read s i).
Proof.
  unfold read. apply no_throw_if; [| apply no_throw_Undefined].
  destruct nth_error; [apply no_throw_Returns | apply no_throw_Undefined].
Qed.

Lemma no_throw_is_ACTG pcs c : no_throw (is_ACTG pcs c).
Proof.
  unfold is_ACTG. destruct actg_at;
    [apply no_throw_Returns | apply no_throw_Undefined].
Qed.

Create HintDb no_throw.
#[local] Hint Resolve no_throw_Returns no_throw_Undefined no_throw_read
  no_throw_is_ACTG : no_throw.

Ltac no_throw_step :=
  repeat first
    [ solve [auto with no_throw]
    | apply no_throw_bind; [| intros ?]
    | apply no_throw_if ].

Lemma no_throw_or_A pcs c : no_throw (or_A pcs c).
Proof. unfold or_A. no_throw_step. Qed.

Lemma no_throw_base_hashes H buf k : no_throw (base_hashes H buf k).
Proof. unfold base_hashes. no_throw_step. Qed.

Lemma no_throw_next_hashes H d o i : no_throw (next_hashes H d o i).
Proof. unfold next_hashes. no_throw_step. Qed.

#[local] Hint Resolve no_throw_or_A no_throw_base_hashes no_throw_next_hashes
  : no_throw.

Lemma no_throw_first_bad pcs s n i : no_throw (first_bad pcs s n i).
Proof.
  revert i. induction n as [| n IH]; intros i; cbn [first_bad]; no_throw_step.
Qed.

Lemma no_throw_read_n s i n : no_throw (read_n s i n).
Proof.
  revert i. induction n as [| n IH]; intros i; cbn [read_n]; no_throw_step.
Qed.

Lemma no_throw_init_str pcs s n i : no_throw (init_str pcs s n i).
Proof.
  revert i. induction n as [| n IH]; intros i; cbn [init_str]; no_throw_step.
Qed.

#[local] Hint Resolve no_throw_first_bad no_throw_read_n no_throw_init_str
  : no_throw.

Lemma no_throw_init_hash pcs H P d : no_throw (init_hash pcs H P d).
Proof.
  unfold init_hash. destruct P.
  - unfold init_hash_write_over. no_throw_step.
  - unfold init_hash_skip_over. generalize (set_c_outs [] d).
    generalize (S (length (seq d))). intros fuel. induction fuel as [| fuel IH];
      intros d0; cbn [init_hash_skip_over_loop]; no_throw_step.
    destruct x; no_throw_step.
Qed.

#[local] Hint Resolve no_throw_init_hash : no_throw.

Lemma no_throw_roll_one pcs H P d : no_throw (roll_one pcs H P d).
Proof.
  unfold roll_one. destruct P.
  - unfold roll_one_write_over. no_throw_step.
    destruct (c_outs d); no_throw_step.
  - unfold roll_one_skip_over. no_throw_step.
    destruct (c_outs d); no_throw_step.
Qed.

Lemma no_throw_append_tail pcs P fuel d temp ind :
  no_throw (append_tail pcs P fuel d temp ind).
Proof.
  revert temp ind. induction fuel as [| fuel IH]; intros temp ind;
    cbn [append_tail]; no_throw_step.
  all: try (destruct P, x0; no_throw_step).
Qed.

Lemma no_throw_append_head_skip_over pcs H P n s l ind d :
  no_throw (append_head_skip_over pcs H P n s l ind d).
Proof.
  revert ind d. induction n as [| n IH]; intros ind d;
    cbn [append_head_skip_over]; no_throw_step.
Qed.

Lemma no_throw_append_head_write_over pcs n s ind d :
  no_throw (append_head_write_over pcs n s ind d).
Proof.
  revert ind d. induction n as [| n IH]; intros ind d;
    cbn [append_head_write_over]; no_throw_step.
Qed.

#[local] Hint Resolve no_throw_roll_one no_throw_append_tail
  no_throw_append_head_skip_over no_throw_append_head_write_over : no_throw.

Lemma no_throw_append_seq_past_guard pcs H P s l d :
  len d <= end_ d -> no_throw (append_seq pcs H P s l d).
Proof.
  intros Hle. unfold append_seq.
  destruct (Z.ltb_spec (end_ d) (len d)); [lia |].
  no_throw_step. destruct P; no_throw_step.
Qed.

(** C6.  [append_seq] throws [NotRolledTillEndException] exactly when
    [end < len] at entry; it throws nothing else, and when it throws the
    cursor is the one it was called on, every member unchanged. *)
Theorem append_seq_throws_iff pcs H P s l d :
  ((exists d', append_seq pcs H P s l d = Throws NotRolledTillEndException d')
   <-> end_ d < len d) /\
  (forall e d', append_seq pcs H P s l d = Throws e d' ->
                e = NotRolledTillEndException /\ d' = d).
Proof.
  destruct (Z.ltb_spec (end_ d) (len d)) as [Hlt | Hle].
  - assert (E : append_seq pcs H P s l d = Throws NotRolledTillEndException d).
    { unfold append_seq. destruct (Z.ltb_spec (end_ d) (len d)); [reflexivity | lia]. }
    rewrite E. split.
    + split; [intros _; exact Hlt | intros _; exists d; reflexivity].
    + intros e d' [= <- <-]. auto.
  - pose proof (no_throw_append_seq_past_guard pcs H P s l d Hle) as Hn.
    split.
    + split; [intros [d' Hd']; exfalso; exact (Hn _ _ Hd') | lia].
    + intros e d' Hd'. exfalso. exact (Hn _ _ Hd').
Qed.

(** The condition under which the constructor throws, as the code has it. *)
Lemma Digester_new_throws_iff pcs H P s l k' start' mh :
  (exists d, Digester_new pcs H P s l k' start' mh
             = Throws BadConstructionException d)
  <-> k' < 4 \/ l <= start' \/ 2 < mh.
Proof.
  unfold Digester_new.
  destruct (Z.ltb_spec k' 4); destruct (Z.leb_spec l start');
    destruct (Z.ltb_spec 2 mh); cbn [orb];
    try (split; [intros _; lia | intros _; eexists; reflexivity]).
  split; [| lia]. intros [d Hd]. exfalso.
  eapply no_throw_bind; [apply no_throw_init_hash | | exact Hd].
  intros x. apply no_throw_Returns.
Qed.

(** C5.  The value -1 is an [int] that is none of the three enumerators,
    and construction with [minimized_h = -1] on "ACGT" (k = 4, start = 0)
    does not throw: it returns a valid cursor that stores -1. *)
Theorem Digester_new_accepts_negative_minimized_h pcs H P :
  int (-1) /\
  (forall h, hash_type_value h <> -1) /\
  exists d,
    Digester_of_string pcs H P (bytes "ACGT") 4 0 (-1) = Returns d /\
    minimized_h d = -1 /\ is_valid_hash d = true.
Proof.
  split; [unfold int; lia |]. split; [intros []; discriminate |].
  destruct pcs, P; eexists; (split; [vm_compute; reflexivity | split; reflexivity]).
Qed.

(** C8.  A [roll_one] on a cursor that is invalid or has [end >= len]
    returns false and leaves the cursor invalid, with position and hashes
    as they were; the cursor it leaves is a fixed point of [roll_one], so
    every later call returns false and changes nothing. *)
Theorem roll_one_off_the_end pcs H P d
  (Hend : is_valid_hash d = false \/ len d <= end_ d) :
  roll_one pcs H P d = Returns (false, set_is_valid_hash false d) /\
  is_valid_hash (set_is_valid_hash false d) = false /\
  report (set_is_valid_hash false d) = report d /\
  forall n,
    roll_times pcs H P n (set_is_valid_hash false d)
    = Returns (repeat false n, set_is_valid_hash false d).
Proof.
  assert (Hfix : forall d0, is_valid_hash d0 = false ->
                            roll_one pcs H P d0 = Returns (false, d0)).
  { intros d0 Hv. unfold roll_one, roll_one_skip_over, roll_one_write_over.
    rewrite Hv. destruct P; reflexivity. }
  split; [| split; [reflexivity | split; [reflexivity |]]].
  - destruct (is_valid_hash d) eqn:Hv.
    + destruct Hend as [Hf | Hle]; [discriminate |].
      unfold roll_one, roll_one_skip_over, roll_one_write_over. rewrite Hv.
      cbn [negb]. destruct (Z.leb_spec (len d) (end_ d)); [| lia].
      destruct P; reflexivity.
    + rewrite (Hfix d Hv). destruct d; cbn in *; subst; reflexivity.
  - induction n as [| n IH]; [reflexivity |].
    cbn [roll_times]. rewrite Hfix by reflexivity. cbn [bind snd fst].
    rewrite IH. reflexivity.
Qed.

Lemma roll_one_off_the_end_witness :
  exists d,
    Digester_of_string true RefHash.hash SKIPOVER (bytes "ACGT") 4 0 0
      = Returns d /\
    len d <= end_ d /\
    roll_one true RefHash.hash SKIPOVER d
      = Returns (false, set_is_valid_hash false d) /\
    roll_times true RefHash.hash SKIPOVER 3 (set_is_valid_hash false d)
      = Returns ([false; false; false], set_is_valid_hash false d).
Proof.
  eexists. split; [vm_compute; reflexivity |].
  split; [vm_compute; discriminate |].
  match goal with
  | |- roll_one _ _ _ ?d = _ /\ _ =>
      pose proof (roll_one_off_the_end true RefHash.hash SKIPOVER d) as Hw
  end.
  destruct Hw as (H1 & _ & _ & H2).
  - right. vm_compute. discriminate.
  - split; [exact H1 | exact (H2 3%nat)].
Defined.

(** C10.  [new_seq] called with [start >= len] throws
    [BadConstructionException], and the cursor it leaves has the new
    sequence, length, start and end, offset 0 and an invalid hash; the
    other members are as before. *)
Theorem new_seq_throws_after_overwriting pcs H P s l pos d (Hpos : l <= pos) :
  new_seq pcs H P s l pos d
  = Throws BadConstructionException
      (mkDigester s l 0 pos (u64 (pos + k d)) (chash d) (fhash d) (rhash d)
                  (k d) (c_outs d) (minimized_h d) false).
Proof.
  unfold new_seq. fields.
  destruct (Z.leb_spec l pos); [reflexivity | lia].
Qed.

Lemma new_seq_throws_after_overwriting_witness :
  exists d d',
    Digester_of_string true RefHash.hash SKIPOVER (bytes "ACGTACGT") 4 0 0
      = Returns d /\
    size (bytes "AC") <= 5 /\
    new_seq_string true RefHash.hash SKIPOVER (bytes "AC") 5 d
      = Throws BadConstructionException d' /\
    seq d' = bytes "AC" /\ len d' = 2 /\ start d' = 5 /\ end_ d' = 9 /\
    offset d' = 0 /\ is_valid_hash d' = false /\ d' <> d.
Proof.
  eexists. eexists. split; [vm_compute; reflexivity |].
  split; [vm_compute; discriminate |].
  split.
  - unfold new_seq_string. apply new_seq_throws_after_overwriting.
    vm_compute. discriminate.
  - vm_compute. repeat split; discriminate.
Defined.

(** ** Invariants of every cursor *)

(** C7, as amended.  In every reachable state [c_outs] holds at most [k]
    bytes; it holds at most [k - 1] after a [roll_one] that returns true,
    and none after construction and after a [new_seq] that returns. *)
Theorem carry_bound pcs H P d (Hr : reachable pcs H P d) :
  size (c_outs d) <= k d /\
  (forall d', roll_one pcs H P d = Returns (true, d') ->
              size (c_outs d') <= k d' - 1) /\
  (forall s pos u d',
     size_t (size s) -> size_t pos ->
     new_seq_string pcs H P s pos d = Returns (u, d') -> c_outs d' = []) /\
  (forall s k' start' mh d0,
     size_t (size s) -> unsigned k' -> size_t start' ->
     Digester_of_string pcs H P s k' start' mh = Returns d0 ->
     c_outs d0 = []).
Proof.
  pose proof (reachable_well_formed _ _ _ _ Hr) as Hwf.
  split; [| split; [| split]].
  - apply Hwf.
  - intros d' Hroll.
    pose proof (roll_one_well_formed pcs H P d Hwf) as Hw.
    rewrite Hroll in Hw. cbn [wp fst snd] in Hw.
    destruct Hw as (_ & _ & -> & Hb). apply Hb. reflexivity.
  - intros s pos u d' Hs Hpos Hnew.
    destruct Hwf as (Hk & Hk4 & _).
    unfold new_seq_string, new_seq in Hnew. fields.
    destruct (size s <=? pos) eqn:Hle; [discriminate |].
    pose proof (init_hash_well_formed pcs H P
      (set_is_valid_hash false (set_end (u64 (pos + k d))
         (set_start pos (set_offset 0 (set_seq s (size s) d)))))) as Hw.
    fields. specialize (Hw Hk Hk4 eq_refl Hs Hpos eq_refl).
    destruct (init_hash _ _ _ _) as [[b d1] | |]; cbn [wp bind snd] in *;
      try discriminate.
    injection Hnew as _ <-. tauto.
  - intros s k' start' mh d0 Hs Hk Hst Hnew.
    pose proof (Digester_new_safe pcs H P s k' start' mh Hs Hk Hst) as Hn.
    rewrite Hnew in Hn. tauto.
Qed.

(** Concrete ranges. *)
Ltac in_range := vm_compute; split; [discriminate | reflexivity].

(** C7, as stated, fails: on "ACTGAC" with k = 4, rolled until [roll_one]
    returns false, [append_seq("CCGGCCGG")] returns with four bytes in
    [c_outs], "GACC", which is [k] and not at most [k - 1]. *)
Lemma carry_holds_k_after_append_seq :
  exists r a,
    digest true RefHash.hash SKIPOVER 10 (bytes "ACTGAC") 4 0 0 = Returns r /\
    is_valid_hash (snd r) = false /\
    append_seq_string true RefHash.hash SKIPOVER (bytes "CCGGCCGG") (snd r)
      = Returns a /\
    c_outs (snd a) = bytes "GACC" /\ k (snd a) = 4 /\
    ~ size (c_outs (snd a)) <= k (snd a) - 1.
Proof.
  eexists. eexists. split; [vm_compute; reflexivity |].
  split; [reflexivity |]. split; [vm_compute; reflexivity |].
  split; [reflexivity |]. split; [reflexivity |].
  vm_compute. intros Hle. apply Hle. reflexivity.
Qed.

(** ** Position coherence *)

Lemma map_written_over_nucleotide s :
  forallb nucleotide s = true -> map written_over s = s.
Proof.
  induction s as [| c s IH]; cbn [forallb map]; [reflexivity |].
  intros Hc. apply andb_prop in Hc as [Hc Hs].
  unfold written_over at 1. rewrite Hc, IH by assumption. reflexivity.
Qed.

Lemma view_written_over P s :
  (P = SKIPOVER -> forallb nucleotide s = true) ->
  map written_over s = view P s.
Proof.
  destruct P; cbn [view]; [reflexivity |].
  intros Hs. apply map_written_over_nucleotide. auto.
Qed.

Lemma forallb_view_written_over P s :
  (P = SKIPOVER -> forallb nucleotide s = true) ->
  forallb nucleotide (view P s) = true.
Proof.
  intros Hs. rewrite <- view_written_over by assumption.
  apply forallb_written_over.
Qed.

Lemma read_map f s i c :
  read s i = Returns c -> read (map f s) i = Returns (f c).
Proof.
  intros Hr. apply read_Returns in Hr as [Hi Hn]. apply read_Returns.
  rewrite size_map. split; [assumption |].
  rewrite nth_error_map, Hn. reflexivity.
Qed.

Lemma read_view P s i c :
  read s i = Returns c -> read (view P s) i = Returns (view_byte P c).
Proof.
  destruct P; cbn [view view_byte]; [apply read_map | auto].
Qed.

Lemma view_one P c : view P [c] = [view_byte P c].
Proof. destruct P; reflexivity. Qed.

Lemma slice_tail (pre s : list byte) i n :
  0 <= i -> slice (pre ++ s) (size pre + i) n = slice s i n.
Proof.
  intros Hi. rewrite slice_app_r by lia. f_equal. lia.
Qed.

Lemma read_tail (pre s : list byte) i :
  0 <= i -> read (pre ++ s) (size pre + i) = read s i.
Proof.
  intros Hi. rewrite read_app_r by lia. f_equal. lia.
Qed.

Lemma hashes_stored h d :
  (fhash (set_hashes h d), rhash (set_hashes h d), chash (set_hashes h d)) = h.
Proof. destruct h as [[f r] c]. reflexivity. Qed.

Lemma init_hash_post_coherent H P T d r :
  unsigned (k d) -> 4 <= k d -> len d = size (seq d) ->
  0 <= start d <= len d ->
  (exists pre, T = pre ++ seq d /\ size pre = offset d) ->
  size T < 2 ^ 63 ->
  init_hash_post H P d r -> coherent H P T (snd r).
Proof.
  intros Hk Hk4 Hlen Hst Hpre HT (p & Hp & _ & Hple & _ & Hres).
  destruct r as [b d']. cbn [fst snd] in *.
  assert (HsT : size T = offset d + len d).
  { destruct Hpre as (pre & -> & <-). rewrite size_app. lia. }
  assert (Hoff : 0 <= offset d).
  { destruct Hpre as (pre & _ & <-). apply size_nonneg. }
  destruct b.
  - destruct Hres as (Hpk & Hall & ->). unfold coherent, position. fields.
    split; [exact Hpre |]. left.
    change (size (@nil byte)) with 0. rewrite Z.sub_0_r.
    assert (Hsl : slice (view P T) (offset d + p) (k d)
                  = view P (slice (seq d) p (k d))).
    { rewrite view_slice. destruct Hpre as (pre & -> & <-).
      rewrite slice_tail by lia. reflexivity. }
    rewrite Hsl.
    conj; try lia; try assumption.
    + rewrite slice_nonpos by lia. reflexivity.
    + intros _ _. reflexivity.
  - destruct Hres as (Hgt & ->). unfold coherent, position. fields.
    split; [exact Hpre |]. right. left.
    pose proof (size_nonneg (seq d)).
    rewrite (u64_small (p + k d)) by wrap_lia.
    conj; try reflexivity; try wrap_lia.
Qed.

Lemma slice_tl {A} (s : list A) i n :
  0 <= i -> tl (slice s i n) = slice s (i + 1) (n - 1).
Proof.
  intros Hi. unfold slice.
  replace (Z.to_nat (i + 1)) with (1 + Z.to_nat i)%nat by lia.
  rewrite <- skipn_skipn.
  destruct (Z_le_gt_dec n 0) as [Hn | Hn].
  - replace (Z.to_nat n) with O by lia. replace (Z.to_nat (n - 1)) with O by lia.
    reflexivity.
  - replace (Z.to_nat n) with (S (Z.to_nat (n - 1))) by lia.
    destruct (skipn (Z.to_nat i) s) as [| x l]; cbn [skipn firstn tl].
    + rewrite firstn_nil. reflexivity.
    + reflexivity.
Qed.

Lemma slice_head s i n x :
  read s i = Returns x -> 0 < n -> slice s i n = x :: slice s (i + 1) (n - 1).
Proof.
  intros Hr Hn. replace n with (n - 1 + 1) at 1 by lia.
  apply slice_cons; [assumption | lia].
Qed.

Lemma rolled_hashes H x t b kk f r c :
  nthash_rolls H -> size (x :: t) = kk ->
  forallb nucleotide (x :: t) = true -> nucleotide b = true ->
  (f, r, c) = kmer_hashes H (x :: t) kk ->
  (next_forward_hash H f kk x b, next_reverse_hash H r kk x b,
   canonical H (next_forward_hash H f kk x b) (next_reverse_hash H r kk x b))
  = kmer_hashes H (t ++ [b]) kk.
Proof.
  intros Hroll <- Hall Hb [= -> -> ->].
  destruct (Hroll x t b Hall Hb) as [Hf Hr].
  unfold kmer_hashes. rewrite Hf, Hr. reflexivity.
Qed.

(** A successful roll: the cursor moves one position to the right. *)
Lemma advance_coherent H P T d d' c x :
  well_formed P d -> coherent H P T d -> size T < 2 ^ 63 ->
  is_valid_hash d = true -> end_ d < len d ->
  read (seq d) (end_ d) = Returns c ->
  nucleotide (view_byte P c) = true ->
  read (view P T) (position d) = Returns x ->
  seq d' = seq d -> len d' = len d -> offset d' = offset d -> k d' = k d ->
  end_ d' = end_ d + 1 -> position d' = position d + 1 ->
  c_outs d' = tl (c_outs d) ->
  (fhash d', rhash d', chash d')
  = (next_forward_hash H (fhash d) (k d) x (view_byte P c),
     next_reverse_hash H (rhash d) (k d) x (view_byte P c),
     canonical H (next_forward_hash H (fhash d) (k d) x (view_byte P c))
                 (next_reverse_hash H (rhash d) (k d) x (view_byte P c))) ->
  coherent H P T d'.
Proof.
  intros Hwf [Hpre Hshape] HT Hv Hlt Hrc Hnc Hrx E1 E2 E3 E4 E5 E6 E7 E8.
  destruct Hwf as (Hk & Hk4 & Hlen & Hsz & Hst & Hen & Hc & Hall & Hse & Hrn).
  destruct Hshape as [(Hp & He & Hle & Hn & Hkm & Hco & Hh)
                     | [(Hf & _) | (Hf & _)]]; try congruence.
  specialize (Hh Hv).
  assert (HsT : size T = offset d + len d).
  { destruct Hpre as (pre & -> & <-). rewrite size_app. lia. }
  assert (Hoff : 0 <= offset d).
  { destruct Hpre as (pre & _ & <-). apply size_nonneg. }
  pose proof (size_nonneg (c_outs d)) as Hn0.
  assert (Hpk : position d + k d = offset d + end_ d).
  { unfold position. lia. }
  assert (Hin : read (view P T) (position d + k d) = Returns (view_byte P c)).
  { apply read_view. rewrite Hpk. destruct Hpre as (pre & -> & <-).
    rewrite read_tail by wrap_lia. exact Hrc. }
  assert (Hkm1 : slice (view P T) (position d) (k d)
                 = x :: slice (view P T) (position d + 1) (k d - 1))
    by (apply slice_head; [assumption | lia]).
  assert (Hkm2 : slice (view P T) (position d + 1) (k d)
                 = slice (view P T) (position d + 1) (k d - 1)
                   ++ [view_byte P c]).
  { replace (k d) with (k d - 1 + 1) at 1 by lia.
    apply slice_snoc; try lia.
    replace (position d + 1 + (k d - 1)) with (position d + k d) by lia.
    exact Hin. }
  split; [rewrite E1, E3; exact Hpre |].
  left. cbv zeta. rewrite E2, E4, E5, E6, E7.
  assert (Hsz' : size (tl (c_outs d)) = size (c_outs d') ) by (rewrite E7; reflexivity).
  assert (Hst' : offset d + start d' - size (tl (c_outs d)) = position d + 1).
  { rewrite <- E6. unfold position. rewrite E3, E7. reflexivity. }
  assert (Htl : size (tl (c_outs d)) <= k d
                /\ end_ d + 1 = start d' + k d - size (tl (c_outs d))).
  { unfold position in *. destruct (c_outs d); cbn [tl] in *;
      rewrite ?size_cons in *; change (size (@nil byte)) with 0 in *; lia. }
  conj; try lia.
  - rewrite Hkm2, forallb_app. rewrite Hkm1 in Hkm. cbn [forallb] in *.
    apply andb_prop in Hkm as [_ Hkm]. rewrite Hkm, Hnc. reflexivity.
  - destruct (Z.eq_dec (size (c_outs d)) 0) as [E0 | E0].
    + destruct (c_outs d); [| rewrite size_cons in E0; pose proof (size_nonneg l); lia].
      cbn [tl]. rewrite slice_nonpos by (change (size (@nil byte)) with 0; lia).
      reflexivity.
    + rewrite size_tl by lia. rewrite Hco at 1. apply slice_tl. lia.
  - intros _ Hroll. rewrite E8, Hkm2.
    apply rolled_hashes with (c := chash d); try assumption.
    + rewrite <- Hkm1. apply slice_size; rewrite ?view_size; lia.
    + rewrite <- Hkm1. exact Hkm.
    + rewrite <- Hkm1. exact (Hh Hroll).
Qed.

Lemma coherent_invalidated H P T d :
  coherent H P T d -> coherent H P T (set_is_valid_hash false d).
Proof.
  intros [Hpre Hshape]. split; [exact Hpre |].
  unfold position in *. fields.
  destruct Hshape as [(Hp & He & Hle & Hn & Hkm & Hco & Hh) | [Hf | Hc]].
  - left. conj; try assumption. discriminate.
  - right. left. tauto.
  - right. right. tauto.
Qed.

Lemma roll_one_coherent pcs H P T d :
  well_formed P d -> coherent H P T d -> size T < 2 ^ 63 ->
  wp (fun r => coherent H P T (snd r)) (roll_one pcs H P d).
Proof.
  intros Hwf Hcoh HT.
  destruct (is_valid_hash d) eqn:Hv.
  2:{ unfold roll_one, roll_one_skip_over, roll_one_write_over. rewrite Hv.
      destruct P; exact Hcoh. }
  destruct (Z.leb_spec (len d) (end_ d)) as [Hle | Hlt].
  { unfold roll_one, roll_one_skip_over, roll_one_write_over. rewrite Hv.
    cbn [negb]. destruct (Z.leb_spec (len d) (end_ d)); [| lia].
    destruct P; apply coherent_invalidated; exact Hcoh. }
  pose proof Hwf as (Hk & Hk4 & Hlen & Hsz & Hst & Hen & Hc & Hall & Hse & Hrn).
  pose proof Hcoh as [Hpre [(Hp & He & Hle & Hn & Hkm & Hco & Hh)
                           | [(Hf & _) | (Hf & _)]]]; try congruence.
  assert (HsT : size T = offset d + len d).
  { destruct Hpre as (pre & -> & <-). rewrite size_app. lia. }
  assert (Hoff : 0 <= offset d).
  { destruct Hpre as (pre & _ & <-). apply size_nonneg. }
  pose proof (size_nonneg (c_outs d)) as Hn0.
  destruct (read_in_range (view P T) (position d)) as [x Hx].
  { rewrite view_size. unfold position in *. lia. }
  (* the byte rolled out *)
  assert (Hfront : forall front rest, c_outs d = front :: rest -> front = x).
  { intros front rest E. rewrite E in Hco.
    rewrite (slice_head _ _ _ _ Hx) in Hco
      by (rewrite size_cons; pose proof (size_nonneg rest); lia).
    congruence. }
  assert (Hout : forall o, c_outs d = [] ->
                           read (seq d) (start d) = Returns o ->
                           view_byte P o = x).
  { intros o E Ho. unfold position in Hx. rewrite E in Hx.
    change (size (@nil byte)) with 0 in Hx. rewrite Z.sub_0_r in Hx.
    destruct Hpre as (pre & HTe & Hps). rewrite HTe, <- Hps in Hx.
    rewrite view_app, read_app_r in Hx by (rewrite view_size; wrap_lia).
    rewrite view_size in Hx.
    replace (size pre + start d - size pre) with (start d) in Hx by lia.
    rewrite (read_view P _ _ _ Ho) in Hx. congruence. }
  (* reinitialisation after a non-ACTG byte *)
  assert (Hinit : forall d3,
    k d3 = k d -> seq d3 = seq d -> len d3 = len d -> offset d3 = offset d ->
    start d3 = u64 (end_ d + 1) -> end_ d3 = u64 (start d3 + k d3) ->
    wp (fun r => coherent H P T (snd r)) (init_hash pcs H P d3)).
  { intros d3 E1 E2 E3 E4 E5 E6.
    rewrite (u64_small (end_ d + 1)) in E5 by wrap_lia.
    eapply wp_mono.
    { apply init_hash_wp; rewrite ?E1, ?E2, ?E3; try assumption;
        [rewrite E5; wrap_lia | rewrite <- E1; exact E6]. }
    intros r Hpost.
    apply init_hash_post_coherent with (d := d3); rewrite ?E1, ?E2, ?E3, ?E4;
      try assumption; wrap_lia. }
  (* a successful roll *)
  assert (Hadv : forall c out_ d',
    read (seq d) (end_ d) = Returns c ->
    nucleotide (view_byte P c) = true ->
    out_ = x ->
    d' = set_hashes
           (next_forward_hash H (fhash d) (k d) out_ (view_byte P c),
            next_reverse_hash H (rhash d) (k d) out_ (view_byte P c),
            canonical H
              (next_forward_hash H (fhash d) (k d) out_ (view_byte P c))
              (next_reverse_hash H (rhash d) (k d) out_ (view_byte P c)))
           (set_end (u64 (end_ d + 1))
              (match c_outs d with
               | [] => set_start (u64 (start d + 1)) d
               | _ :: rest => set_c_outs rest d
               end)) ->
    coherent H P T d').
  { intros c out_ d' Hrc Hnc -> ->.
    rewrite (u64_small (end_ d + 1)) by wrap_lia.
    eapply advance_coherent with (d := d) (c := c) (x := x); try eassumption;
      try (destruct (c_outs d) eqn:E; fields; rewrite ?E; reflexivity).
    unfold position. destruct (c_outs d) as [| y l] eqn:E; fields; rewrite ?E.
    - change (size (@nil byte)) with 0. rewrite u64_small by wrap_lia. lia.
    - rewrite size_cons. lia. }
  unfold roll_one. destruct P.
  - (* WRITEOVER *)
    unfold roll_one_write_over. rewrite Hv. cbn [negb].
    destruct (Z.leb_spec (len d) (end_ d)); [lia |].
    apply wp_bind. eapply wp_mono; [apply wp_read |]. intros c [Hci Hcn].
    assert (Hrc : read (seq d) (end_ d) = Returns c)
      by (apply read_Returns; auto).
    apply wp_bind. eapply wp_mono; [apply wp_or_A |]. intros nc ->.
    destruct (c_outs d) as [| front rest] eqn:Hco'.
    + apply wp_bind. eapply wp_mono; [apply wp_read |]. intros o [Hoi Hon].
      assert (Hro : read (seq d) (start d) = Returns o)
        by (apply read_Returns; auto).
      apply wp_bind. eapply wp_mono; [apply wp_or_A |]. intros oc ->.
      apply wp_bind.
      eapply wp_mono; [apply next_hashes_wp; apply nucleotide_written_over |].
      intros h ->. cbn [wp snd].
      apply (Hadv c (written_over o)); try assumption.
      * apply nucleotide_written_over.
      * apply (Hout o eq_refl Hro).
      * reflexivity.
    + cbn [forallb] in Hall. apply andb_prop in Hall as [Hfn Hall].
      apply wp_bind.
      eapply wp_mono; [apply next_hashes_wp;
                       [exact Hfn | apply nucleotide_written_over] |].
      intros h ->. cbn [wp snd].
      apply (Hadv c front); try assumption.
      * apply nucleotide_written_over.
      * apply (Hfront front rest eq_refl).
      * reflexivity.
  - (* SKIPOVER *)
    unfold roll_one_skip_over. rewrite Hv. cbn [negb].
    destruct (Z.leb_spec (len d) (end_ d)); [lia |].
    apply wp_bind. eapply wp_mono; [apply wp_read |]. intros c [Hci Hcn].
    assert (Hrc : read (seq d) (end_ d) = Returns c)
      by (apply read_Returns; auto).
    apply wp_bind. eapply wp_mono; [apply wp_is_ACTG |]. intros b ->.
    destruct (c_outs d) as [| front rest] eqn:Hco';
      destruct (nucleotide c) eqn:Hnc.
    + apply wp_bind. eapply wp_mono; [apply wp_read |]. intros o [Hoi Hon].
      assert (Hro : read (seq d) (start d) = Returns o)
        by (apply read_Returns; auto).
      pose proof (Hout o eq_refl Hro) as Hox. cbn [view_byte] in Hox.
      assert (Hno : nucleotide o = true).
      { rewrite (slice_head _ _ _ _ Hx) in Hkm by lia. cbn [forallb] in Hkm.
        apply andb_prop in Hkm as [Hkm _]. congruence. }
      apply wp_bind.
      eapply wp_mono; [apply next_hashes_wp; assumption |].
      intros h ->. cbn [wp snd].
      apply (Hadv c o); try assumption. reflexivity.
    + apply Hinit; fields; reflexivity.
    + cbn [forallb] in Hall. apply andb_prop in Hall as [Hfn Hall].
      apply wp_bind.
      eapply wp_mono; [apply next_hashes_wp; assumption |].
      intros h ->. cbn [wp snd].
      apply (Hadv c front); try assumption.
      * apply (Hfront front rest eq_refl).
      * reflexivity.
    + apply Hinit; fields; reflexivity.
Qed.

Lemma slice_app_span {A} (l1 l2 : list A) q a b :
  0 <= q -> 0 <= a -> 0 <= b -> q + a = size l1 ->
  slice (l1 ++ l2) q (a + b) = slice l1 q a ++ slice l2 0 b.
Proof.
  intros Hq Ha Hb Hqa. rewrite slice_app by lia.
  rewrite slice_app_l by lia. rewrite slice_app_r by lia.
  f_equal. f_equal. lia.
Qed.

Lemma size_zero_nil {A} (l : list A) : size l = 0 -> l = [].
Proof.
  destruct l; [reflexivity |]. rewrite size_cons.
  pose proof (size_nonneg l). lia.
Qed.

Lemma tl_slice_carry (s c : list byte) p :
  0 <= p -> c = slice s p (size c) -> tl c = slice s (p + 1) (size (tl c)).
Proof.
  intros Hp Hc. destruct (Z.eq_dec (size c) 0) as [E0 | E0].
  - rewrite (size_zero_nil c E0). cbn [tl].
    rewrite slice_nonpos by (change (size (@nil byte)) with 0; lia).
    reflexivity.
  - pose proof (size_nonneg c). rewrite size_tl by lia.
    rewrite Hc at 1. apply slice_tl. lia.
Qed.

(** After the first loop of [append_seq] the carry is the longest usable
    end of the concatenation: a run of nucleotides, under the policy's
    view, of at most [k - 1] bytes, and of exactly [k - 1] bytes when the
    cursor held a k-mer. *)
Lemma carried_suffix H P T d temp :
  well_formed P d -> coherent H P T d -> len d <= end_ d ->
  size T < 2 ^ 63 ->
  append_tail_post P (append_popped d) temp ->
  let c1 := c_outs (append_popped d) ++ rev temp in
  c1 = slice (view P T) (size T - size c1) (size c1) /\
  size c1 <= k d - 1 /\ size c1 <= size T /\
  forallb nucleotide c1 = true /\
  (is_valid_hash d = true -> size c1 = k d - 1).
Proof.
  intros Hwf [Hpre Hshape] Hge HT (j & Hj & Hjs & -> & Hjn & Hcap & Hmax).
  destruct (append_popped_carry P d Hwf) as [Hpc Hpn].
  destruct (append_popped_fields d)
    as (F1 & F2 & F3 & F4 & F5 & F6 & F7 & F8 & F9 & F10 & F11).
  destruct Hwf as (Hk & Hk4 & Hlen & Hsz & Hst & Hen & Hc & Hall & Hse & Hrn).
  rewrite F1, F2, F3, F5 in *. specialize (Hcap Hpc).
  rewrite rev_involutive.
  assert (HsT : size T = offset d + len d).
  { destruct Hpre as (pre & -> & <-). rewrite size_app. lia. }
  assert (Hoff : 0 <= offset d).
  { destruct Hpre as (pre & _ & <-). apply size_nonneg. }
  pose proof (size_nonneg (c_outs d)) as Hn0.
  pose proof (size_nonneg (c_outs (append_popped d))) as Hn1.
  (* the bytes taken from the old sequence, in the concatenation *)
  assert (Htk : map written_over (slice (seq d) j (len d - j))
                = slice (view P T) (offset d + j) (len d - j)).
  { rewrite (view_written_over P) by exact Hjn. rewrite view_slice.
    destruct Hpre as (pre & -> & <-). rewrite slice_tail by lia. reflexivity. }
  assert (Hts : size (map written_over (slice (seq d) j (len d - j)))
                = len d - j).
  { rewrite size_map. apply slice_size; lia. }
  assert (Htn : forallb nucleotide
                  (map written_over (slice (seq d) j (len d - j))) = true)
    by apply forallb_written_over.
  cbv zeta. rewrite size_app, Hts.
  destruct Hshape as [(Hp & He & Hle & Hn & Hkm & Hco & Hh)
                     | [(Hf & Hc0 & He & Hlt & Hsl)
                       | (Hf & Hn & Hs & He & Hp & Hco & Hcn)]].
  - (* it holds a k-mer *)
    assert (Hel : end_ d = len d) by lia.
    assert (Hpop : c_outs (append_popped d) = tl (c_outs d)).
    { unfold append_popped. fields.
      destruct (Z.eqb_spec (start d) (end_ d)) as [E | E];
        destruct (Z.eqb_spec (size (c_outs d)) (k d)) as [E' | E'];
        destruct (Z.ltb_spec 0 (size (c_outs d))) as [E'' | E''];
        cbn [negb orb andb]; fields; try reflexivity;
        try (rewrite (size_zero_nil (c_outs d)) by lia; reflexivity). }
    assert (Hps : size (tl (c_outs d)) = Z.max 0 (size (c_outs d) - 1)).
    { destruct (c_outs d) as [| y l]; cbn [tl]; rewrite ?size_cons;
        change (size (@nil byte)) with 0; [lia |].
      pose proof (size_nonneg l). lia. }
    rewrite Hpop in *.
    assert (Hrange : P = SKIPOVER -> forall i b,
              start d <= i < len d -> read (seq d) i = Returns b ->
              nucleotide b = true).
    { intros -> i b Hi Hb. cbn [view] in Hkm.
      apply (forallb_slice_elim nucleotide T (position d) (k d) (offset d + i));
        try assumption; [unfold position; lia |].
      destruct Hpre as (pre & -> & <-). rewrite read_tail by wrap_lia.
      exact Hb. }
    assert (Hfull : len d - j + size (tl (c_outs d)) = k d - 1).
    { destruct Hmax as [Hm | [Hm | (HP & b & Hb & Hbn)]]; [lia | lia |].
      destruct (Z_le_gt_dec j (start d)); [lia |].
      rewrite (Hrange HP (j - 1) b) in Hbn; [discriminate | lia | assumption]. }
    assert (Hpj : position d + 1 + size (tl (c_outs d)) = offset d + j)
      by (unfold position; lia).
    assert (Hc1 : tl (c_outs d)
                  ++ map written_over (slice (seq d) j (len d - j))
                  = slice (view P T) (position d + 1) (k d - 1)).
    { rewrite Htk, (tl_slice_carry _ _ _ Hp Hco), <- Hpj.
      pose proof (size_nonneg (tl (c_outs d))).
      rewrite <- slice_app by lia. f_equal. lia. }
    rewrite Hc1.
    conj; try lia.
    + f_equal; unfold position; lia.
    + replace (k d) with (1 + (k d - 1)) in Hkm by lia.
      rewrite slice_app, forallb_app in Hkm by lia.
      apply andb_prop in Hkm. tauto.
  - (* init_hash had failed *)
    assert (Hnil : c_outs (append_popped d) = []).
    { unfold append_popped. fields.
      replace (0 <? size (c_outs d)) with false
        by (rewrite Hc0; reflexivity).
      rewrite andb_false_r. fields. exact Hc0. }
    rewrite Hnil in *. change (size (@nil byte)) with 0 in *. cbn [app].
    rewrite Htk. conj; try lia; try congruence; try (f_equal; lia).
    all: try (rewrite <- Htk; exact Htn).
  - (* it holds a short carry *)
    assert (Hsame : c_outs (append_popped d) = c_outs d).
    { unfold append_popped. fields.
      destruct (Z.eqb_spec (start d) (end_ d)) as [E | E]; [| lia].
      destruct (Z.eqb_spec (size (c_outs d)) (k d)) as [E' | E']; [lia |].
      reflexivity. }
    rewrite Hsame in *.
    assert (j = len d) by lia. subst j. rewrite Z.sub_diag in *.
    rewrite slice_nonpos by lia. cbn [map]. rewrite app_nil_r, Z.add_0_r.
    unfold position in *.
    conj; try lia; try congruence.
Qed.

Lemma append_seq_post_coherent H P T s d d' :
  well_formed P d -> coherent H P T d -> len d <= end_ d ->
  size_t (size s) -> size (T ++ s) < 2 ^ 63 ->
  is_valid_hash d = false \/ s <> [] ->
  append_seq_post H P s d d' -> coherent H P (T ++ s) d'.
Proof.
  intros Hwf Hcoh Hge Hs HT Hproto (temp & d3 & Htail & Hhead & Hn3 & ->).
  assert (HT0 : size T < 2 ^ 63).
  { rewrite size_app in HT. pose proof (size_nonneg s). lia. }
  destruct (carried_suffix H P T d temp Hwf Hcoh Hge HT0 Htail)
    as (Hc1 & Hc1k & Hc1T & Hc1n & Hc1v).
  destruct (append_popped_fields d)
    as (F1 & F2 & F3 & F4 & F5 & F6 & F7 & F8 & F9 & F10 & F11).
  destruct Hcoh as [Hpre _].
  destruct Hwf as (Hk & Hk4 & Hlen & Hsz & Hst & Hen & Hc & Hall & Hse & Hrn).
  assert (HsT : size T = offset d + len d).
  { destruct Hpre as (pre & -> & <-). rewrite size_app. lia. }
  assert (Hoff : 0 <= offset d).
  { destruct Hpre as (pre & _ & <-). apply size_nonneg. }
  assert (Hoff' : u64 (offset d + len d) = size T) by wrap_lia.
  set (c1 := c_outs (append_popped d) ++ rev temp) in *.
  pose proof (size_nonneg c1) as Hc10.
  pose proof (size_nonneg s) as Hs0.
  unfold append_carried in Hhead. fold c1 in Hhead. clearbody c1.
  destruct Hhead as [(m & Hm & Hle & Hsl & Hcap & Hstop & ->)
                    | (HP & j & b & r & Hj & Hsl & Hcap & Hrj & Hb & Hpost & ->)].
  - (* the head of the new sequence was moved to the carry *)
    fields. rewrite F5 in *.
    assert (Hvw : map written_over (slice s 0 m) = view P (slice s 0 m))
      by (apply view_written_over; exact Hsl).
    assert (Hms : size (slice s 0 m) = m) by (apply slice_size; lia).
    assert (Hc3 : c1 ++ map written_over (slice s 0 m)
                  = slice (view P (T ++ s)) (size T - size c1) (size c1 + m)).
    { rewrite view_app, slice_app_span by (rewrite ?view_size; lia).
      rewrite <- Hc1, Hvw, view_slice. reflexivity. }
    assert (Hc3n : forallb nucleotide (c1 ++ map written_over (slice s 0 m))
                   = true).
    { rewrite forallb_app, Hc1n, forallb_written_over. reflexivity. }
    assert (Hc3s : size (c1 ++ map written_over (slice s 0 m)) = size c1 + m).
    { rewrite size_app, size_map, Hms. reflexivity. }
    unfold append_finished. fields. rewrite F5, Hc3s.
    split; [exists T; fields; split; [reflexivity | ] |].
    { destruct (_ =? _); fields; rewrite F7; symmetry; exact Hoff'. }
    unfold position.
    destruct (Z.eqb_spec (size c1 + m) (k d)) as [E | E]; fields;
      rewrite ?F5, ?F6, ?F7, ?Hoff', ?Hc3s, ?Z.add_0_l.
    + left.
      replace (size T + m - (size c1 + m)) with (size T - size c1) by lia.
      rewrite <- E, <- Hc3.
      conj; try lia; try assumption; try reflexivity.
    + right. right.
      replace (size T + m - (size c1 + m)) with (size T - size c1) by lia.
      rewrite <- Hc3.
      assert (Hmm : m = size s /\ size c1 + m < k d). { lia. }
      assert (Hinv : is_valid_hash d = false).
      { destruct (is_valid_hash d) eqn:Hv; [| reflexivity].
        specialize (Hc1v eq_refl).
        destruct Hproto as [Hf | Hne]; [discriminate |].
        destruct s as [| y s']; [congruence |]. rewrite size_cons in *.
        pose proof (size_nonneg s'). lia. }
      conj; try lia; try assumption; reflexivity.
  - (* SKIPOVER met a non-ACTG byte and reinitialised *)
    fields. rewrite F5 in *.
    apply init_hash_post_well_formed in Hpost as Hwf3; fields;
      rewrite ?F5; try assumption; try reflexivity; try wrap_lia.
    destruct Hwf3 as (_ & _ & Hc3 & Hk3 & Hs3 & Hl3 & _). fields.
    unfold append_finished. rewrite Hc3.
    change (size (@nil byte)) with 0.
    destruct (Z.eqb_spec 0 (k (snd r))); [rewrite Hk3, F5 in *; lia |].
    assert (Hsame : set_seq s (size s) (snd r) = snd r).
    { rewrite <- Hl3, <- Hs3. apply set_seq_same. }
    rewrite Hsame.
    eapply init_hash_post_coherent; [.. | exact Hpost]; fields;
      rewrite ?F5, ?F7; try assumption; try reflexivity; try wrap_lia.
    exists T. rewrite Hoff'. split; reflexivity.
Qed.

(** ** The reference instance rolls *)

Lemma RefHash_forward_from l h :
  fold_left (fun h c => u64 (h * 5 + RefHash.code c)) l (u64 h)
  = u64 (fold_left (fun h c => h * 5 + RefHash.code c) l h).
Proof.
  revert h. induction l as [| c l IH]; intros h; cbn [fold_left].
  - unfold u64. lia.
  - rewrite <- IH. f_equal. unfold u64. lia.
Qed.

Lemma RefHash_poly l h :
  fold_left (fun h c => h * 5 + RefHash.code c) l h
  = h * 5 ^ size l + fold_left (fun h c => h * 5 + RefHash.code c) l 0.
Proof.
  revert h. induction l as [| c l IH]; intros h; cbn [fold_left].
  - change (size (@nil byte)) with 0. lia.
  - rewrite IH, (IH (0 * 5 + RefHash.code c)), size_cons.
    rewrite Z.pow_add_r by (pose proof (size_nonneg l); lia). lia.
Qed.

Lemma RefHash_forward_poly l k :
  RefHash.forward l k = u64 (fold_left (fun h c => h * 5 + RefHash.code c) l 0).
Proof. rewrite <- RefHash_forward_from. reflexivity. Qed.

Lemma RefHash_forward_rolls c t b :
  RefHash.roll_forward (RefHash.forward (c :: t) (size (c :: t)))
                       (size (c :: t)) c b
  = RefHash.forward (t ++ [b]) (size (c :: t)).
Proof.
  unfold RefHash.roll_forward. rewrite !RefHash_forward_poly.
  rewrite fold_left_app. cbn [fold_left].
  rewrite (RefHash_poly t (0 * 5 + RefHash.code c)).
  rewrite size_cons, Z.pow_add_r by (pose proof (size_nonneg t); lia).
  set (X := fold_left _ t 0). set (Y := 5 ^ size t).
  replace (RefHash.code c * (Y * 5 ^ 1)) with (5 * (RefHash.code c * Y)) by lia.
  replace ((0 * 5 + RefHash.code c) * Y) with (RefHash.code c * Y) by lia.
  generalize (RefHash.code c * Y). intros W. unfold u64. lia.
Qed.

Lemma RefHash_reverse_snoc t b :
  fold_right (fun c h => RefHash.ccode c + 5 * h) 0 (t ++ [b])
  = fold_right (fun c h => RefHash.ccode c + 5 * h) 0 t
    + RefHash.ccode b * 5 ^ size t.
Proof.
  induction t as [| x t IH]; cbn [app fold_right].
  - change (size (@nil byte)) with 0. lia.
  - rewrite IH, size_cons.
    rewrite Z.pow_add_r by (pose proof (size_nonneg t); lia). lia.
Qed.

Lemma RefHash_reverse_rolls c t b :
  RefHash.roll_reverse (RefHash.reverse (c :: t) (size (c :: t)))
                       (size (c :: t)) c b
  = RefHash.reverse (t ++ [b]) (size (c :: t)).
Proof.
  unfold RefHash.roll_reverse, RefHash.reverse.
  rewrite RefHash_reverse_snoc. cbn [fold_right].
  rewrite size_cons. replace (size t + 1 - 1) with (size t) by lia.
  generalize (fold_right (fun c h => RefHash.ccode c + 5 * h) 0 t).
  generalize (RefHash.ccode b * 5 ^ size t). generalize (RefHash.ccode c).
  intros cc V R. unfold u64, RefHash.inv5. lia.
Qed.

Lemma RefHash_rolls : nthash_rolls RefHash.hash.
Proof.
  intros c t b _ _. split.
  - apply RefHash_forward_rolls.
  - apply RefHash_reverse_rolls.
Qed.

(** ** Runs of construction, [roll_one] and [append_seq] *)

Lemma appended_reachable pcs H P T d :
  appended pcs H P T d -> reachable pcs H P d.
Proof.
  induction 1 as [s k' start' mh d Hs Hk Hst Hmh Hnew
                 | T d s pos r Ha IH Hs Hpos Hr
                 | T d r Ha IH Hr | T d s r Ha IH Hs Hproto Hr].
  - eapply reach_new; eassumption.
  - apply (reach_call pcs H P (NewSeq s pos) d (snd r) IH (conj Hs Hpos)).
    cbn [perform]. rewrite Hr. reflexivity.
  - apply (reach_call pcs H P RollOne d (snd r) IH I).
    cbn [perform]. rewrite Hr. reflexivity.
  - apply (reach_call pcs H P (AppendSeq s) d (snd r) IH Hs).
    cbn [perform]. rewrite Hr. reflexivity.
Qed.

Lemma Digester_new_coherent pcs H P s k' start' mh d :
  size_t (size s) -> unsigned k' -> size_t start' -> size s < 2 ^ 63 ->
  Digester_of_string pcs H P s k' start' mh = Returns d ->
  coherent H P s d.
Proof.
  intros Hs Hk Hst HT. unfold Digester_of_string, Digester_new.
  destruct (Z.ltb_spec k' 4) as [Hk4 | Hk4]; cbn [orb]; [discriminate |].
  destruct (Z.leb_spec (size s) start') as [Hle | Hlt]; cbn [orb];
    [discriminate |].
  destruct (2 <? mh); [discriminate |].
  set (d0 := mkDigester s (size s) 0 start' (u64 (start' + k')) 0 0 0 k' [] mh false).
  pose proof (init_hash_wp pcs H P d0 Hk Hk4 eq_refl Hs Hst eq_refl) as Hw.
  destruct (init_hash pcs H P d0) as [r | |] eqn:Hi; cbn [bind]; try discriminate.
  intros [= <-]. cbn [wp] in Hw.
  apply (init_hash_post_coherent H P s d0 r Hk Hk4 eq_refl); try assumption.
  - unfold d0; cbn [start len]. wrap_lia.
  - exists []. split; reflexivity.
Qed.

Lemma new_seq_coherent pcs H P s pos d r :
  well_formed P d -> size_t (size s) -> size_t pos -> size s < 2 ^ 63 ->
  new_seq_string pcs H P s pos d = Returns r ->
  coherent H P s (snd r).
Proof.
  intros Hwf Hs Hpos HT. unfold new_seq_string, new_seq.
  destruct Hwf as (Hk & Hk4 & _).
  set (d0 := set_is_valid_hash false _).
  assert (E : k d0 = k d /\ len d0 = size s /\ seq d0 = s /\ start d0 = pos
              /\ offset d0 = 0 /\ end_ d0 = u64 (start d0 + k d0))
    by (repeat split; reflexivity).
  destruct E as (Ek & El & Es & Est & Eo & Ee). clearbody d0.
  destruct (Z.leb_spec (size s) pos) as [Hle | Hlt]; [discriminate |].
  assert (Hw : wp (init_hash_post H P d0) (init_hash pcs H P d0)).
  { apply init_hash_wp; try assumption;
      rewrite ?Ek, ?El, ?Es, ?Est; auto. }
  destruct (init_hash pcs H P d0) as [r0 | |] eqn:Hi; cbn [bind];
    try discriminate.
  intros [= <-]. cbn [wp snd] in *.
  apply (init_hash_post_coherent H P s d0 r0); try assumption;
    rewrite ?Ek, ?El, ?Es, ?Est, ?Eo; auto.
  - wrap_lia.
  - exists []. split; reflexivity.
Qed.

Lemma appended_coherent pcs H P T d :
  appended pcs H P T d -> size T < 2 ^ 63 -> coherent H P T d.
Proof.
  intros Ha.
  induction Ha as [s k' start' mh d Hs Hk Hst Hmh Hnew
                  | T d s pos r Ha IH Hs Hpos Hr
                  | T d r Ha IH Hr | T d s r Ha IH Hs Hproto Hr]; intros HT.
  - eapply Digester_new_coherent; eassumption.
  - pose proof (reachable_well_formed pcs H P d
                  (appended_reachable pcs H P T d Ha)) as Hwf.
    exact (new_seq_coherent pcs H P s pos d r Hwf Hs Hpos HT Hr).
  - pose proof (reachable_well_formed pcs H P d
                  (appended_reachable pcs H P T d Ha)) as Hwf.
    pose proof (roll_one_coherent pcs H P T d Hwf (IH HT) HT) as Hw.
    rewrite Hr in Hw. exact Hw.
  - pose proof (reachable_well_formed pcs H P d
                  (appended_reachable pcs H P T d Ha)) as Hwf.
    assert (HT0 : size T < 2 ^ 63).
    { rewrite size_app in HT. pose proof (size_nonneg s). lia. }
    assert (Hge : len d <= end_ d).
    { destruct (Z.ltb_spec (end_ d) (len d)) as [Hlt | Hge]; [| exact Hge].
      unfold append_seq_string, append_seq in Hr.
      destruct (Z.ltb_spec (end_ d) (len d)); [discriminate | lia]. }
    pose proof (append_seq_wp pcs H P s d Hwf Hs Hge) as Hw.
    unfold append_seq_string in Hr. rewrite Hr in Hw. cbn [wp] in Hw.
    exact (append_seq_post_coherent H P T s d (snd r) Hwf (IH HT0) Hge Hs HT
             Hproto Hw).
Qed.

Lemma coherent_valid H P T d :
  coherent H P T d -> well_formed P d -> size T < 2 ^ 63 ->
  is_valid_hash d = true ->
  0 <= position d /\ position d + k d <= size T /\
  get_pos d = position d /\
  forallb nucleotide (slice (view P T) (position d) (k d)) = true /\
  (nthash_rolls H ->
   (fhash d, rhash d, chash d)
     = kmer_hashes H (slice (view P T) (position d) (k d)) (k d)).
Proof.
  intros [(pre & HT & Hoff) Hshape] Hwf HsT Hv.
  destruct Hshape as [(Hp & He & Hel & Hn & Hall & Hc & Hh)
                     | [(Hv' & _) | (Hv' & _)]]; try congruence.
  assert (Hpk : position d + k d <= size T).
  { unfold position in *. rewrite HT, size_app, Hoff.
    destruct Hwf as (Hk & Hk4 & Hlen & _). lia. }
  destruct Hwf as (Hk & Hk4 & _).
  conj; try assumption; [| exact (Hh Hv)].
  unfold get_pos. fold (position d). apply u64_small. lia.
Qed.

Lemma rolls_appended pcs H P T n d r :
  appended pcs H P T d -> rolls pcs H P n d = Returns r ->
  appended pcs H P T (snd r).
Proof.
  revert d r. induction n as [| n IH]; intros d r Ha; cbn [rolls].
  - intros [= <-]. exact Ha.
  - destruct (roll_one pcs H P d) as [[b d1] | |] eqn:Hr; cbn [bind fst snd];
      try discriminate.
    pose proof (appended_roll pcs H P T d (b, d1) Ha Hr) as Ha1.
    destruct b.
    + destruct (rolls pcs H P n d1) as [r1 | |] eqn:Hn; cbn [bind];
        try discriminate.
      intros [= <-]. exact (IH d1 r1 Ha1 Hn).
    + intros [= <-]. exact Ha1.
Qed.

Lemma emit_appended pcs H P T n d r :
  appended pcs H P T d -> emit pcs H P n d = Returns r ->
  appended pcs H P T (snd r).
Proof.
  intros Ha. unfold emit. destruct (is_valid_hash d).
  - destruct (rolls pcs H P n d) as [r1 | |] eqn:Hn; cbn [bind];
      try discriminate.
    intros [= <-]. exact (rolls_appended pcs H P T n d r1 Ha Hn).
  - intros [= <-]. exact Ha.
Qed.

Lemma digest_appended pcs H P n s k' start' mh r :
  size_t (size s) -> unsigned k' -> size_t start' -> int mh ->
  digest pcs H P n s k' start' mh = Returns r ->
  appended pcs H P s (snd r).
Proof.
  intros Hs Hk Hst Hmh. unfold digest.
  destruct (Digester_of_string pcs H P s k' start' mh) as [d | |] eqn:Hd;
    cbn [bind]; try discriminate.
  apply emit_appended. eapply appended_new; eassumption.
Qed.

(** The carry bound on a run that fills the carry: [append_seq] leaves
    four bytes in [c_outs], the next [roll_one] three. *)
Lemma carry_bound_witness :
  exists r a d',
    digest true RefHash.hash SKIPOVER 10 (bytes "ACTGAC") 4 0 0 = Returns r /\
    append_seq_string true RefHash.hash SKIPOVER (bytes "CCGGCCGG") (snd r)
      = Returns a /\
    c_outs (snd a) = bytes "GACC" /\
    roll_one true RefHash.hash SKIPOVER (snd a) = Returns (true, d') /\
    c_outs d' = bytes "ACC" /\
    size (c_outs (snd a)) <= k (snd a) /\ size (c_outs d') <= k d' - 1.
Proof.
  eexists. eexists. eexists. split; [vm_compute; reflexivity |].
  split; [vm_compute; reflexivity |]. split; [reflexivity |].
  split; [vm_compute; reflexivity |]. split; [reflexivity |].
  match goal with
  | |- size (c_outs ?d) <= _ /\ _ =>
      destruct (carry_bound true RefHash.hash SKIPOVER d) as (H1 & H2 & _)
  end.
  - apply (appended_reachable true RefHash.hash SKIPOVER
             (bytes "ACTGAC" ++ bytes "CCGGCCGG")).
    eapply appended_append with (r := (tt, _)).
    + eapply digest_appended with (n := 10%nat) (k' := 4) (start' := 0)
                                  (mh := 0) (r := (_, _)); try in_range.
      vm_compute. reflexivity.
    + in_range.
    + left. reflexivity.
    + vm_compute. reflexivity.
  - split; [exact H1 | apply H2; vm_compute; reflexivity].
Defined.

(** Position coherence where no empty sequence is appended to a valid
    cursor.  After construction (or a [new_seq] that returned) and any
    calls of [roll_one] and [append_seq] that return, where no empty
    sequence is appended to a valid cursor, the sequences given hold fewer
    than 2^63 bytes in all, and the primitives roll: if the cursor is valid,
    [get_pos()] is [offset + start - |c_outs|], the k-mer at that position
    lies within the concatenation [T] of the sequences given, and the
    stored hashes are the base hashes of that k-mer as the policy reads it
    (under WRITEOVER every non-ACTG byte read as 'A'). *)
Theorem position_coherence pcs H P T d
  (Hrolls : nthash_rolls H) (Hrun : appended pcs H P T d)
  (Hsize : size T < 2 ^ 63) (Hvalid : is_valid_hash d = true) :
  get_pos d = offset d + start d - size (c_outs d) /\
  0 <= get_pos d /\ get_pos d + k d <= size T /\
  base_hashes H (slice (view P T) (get_pos d) (k d)) (k d)
    = Returns (fhash d, rhash d, chash d).
Proof.
  pose proof (reachable_well_formed pcs H P d
                (appended_reachable pcs H P T d Hrun)) as Hwf.
  pose proof (appended_coherent pcs H P T d Hrun Hsize) as Hcoh.
  destruct (coherent_valid H P T d Hcoh Hwf Hsize Hvalid)
    as (Hp & Hpk & Hg & Hall & Hh).
  destruct Hwf as (Hk & Hk4 & _). specialize (Hh Hrolls).
  rewrite Hg. split; [reflexivity |]. split; [exact Hp |].
  split; [exact Hpk |].
  assert (Hsz : size (slice (view P T) (position d) (k d)) = k d).
  { apply slice_size; [lia | lia |]. rewrite view_size. lia. }
  unfold base_hashes. rewrite (firstn_size _ _ Hsz), Hsz, Hall.
  destruct (Z.ltb_spec (k d) (k d)); [lia |]. rewrite Hh. reflexivity.
Qed.

Lemma position_coherence_witness :
  exists r a,
    digest true RefHash.hash WRITEOVER 10 (bytes "ACTGNC") 4 0 0 = Returns r /\
    append_seq_string true RefHash.hash WRITEOVER (bytes "CCGG") (snd r)
      = Returns a /\
    is_valid_hash (snd a) = true /\
    get_pos (snd a) = 3 /\
    base_hashes RefHash.hash (bytes "GACC") 4
      = Returns (fhash (snd a), rhash (snd a), chash (snd a)).
Proof.
  eexists. eexists. split; [vm_compute; reflexivity |].
  split; [vm_compute; reflexivity |]. split; [reflexivity |].
  match goal with
  | |- get_pos (snd ?a) = _ /\ _ =>
      destruct (position_coherence true RefHash.hash WRITEOVER
                  (bytes "ACTGNC" ++ bytes "CCGG") (snd a))
        as (_ & _ & _ & Hh)
  end.
  - exact RefHash_rolls.
  - eapply appended_append with (r := (tt, _)).
    + eapply digest_appended with (n := 10%nat) (k' := 4) (start' := 0)
                                  (mh := 0) (r := (_, _)); try in_range.
      vm_compute. reflexivity.
    + in_range.
    + left. reflexivity.
    + vm_compute. reflexivity.
  - vm_compute. reflexivity.
  - reflexivity.
  - split; [reflexivity | exact Hh].
Defined.

(** C2 at the failing input.  A cursor constructed on "ACGT" with k = 4
    is valid at position 0 and has [end = len], so [append_seq] accepts
    it.  [append_seq] of the empty sequence moves "CGT" into [c_outs],
    finds no byte to complete a k-mer, computes no hash, and returns
    without clearing [is_valid_hash]: the cursor is valid, [get_pos()] is
    1, the hashes are still those of "ACGT", the k-mer at 0, and no k-mer
    starts at 1 in the four bytes given. *)
Theorem append_seq_empty_keeps_valid pcs H P :
  exists d a,
    Digester_of_string pcs H P (bytes "ACGT") 4 0 0 = Returns d /\
    is_valid_hash d = true /\ get_pos d = 0 /\
    (fhash d, rhash d, chash d) = kmer_hashes H (bytes "ACGT") 4 /\
    append_seq_string pcs H P [] d = Returns a /\
    is_valid_hash (snd a) = true /\ get_pos (snd a) = 1 /\
    k (snd a) = 4 /\ c_outs (snd a) = bytes "CGT" /\
    (fhash (snd a), rhash (snd a), chash (snd a))
    = kmer_hashes H (bytes "ACGT") 4 /\
    size (bytes "ACGT" ++ []) < get_pos (snd a) + k (snd a).
Proof.
  destruct pcs, P; eexists; eexists;
    (split; [vm_compute; reflexivity |]);
    (split; [reflexivity |]); (split; [reflexivity |]);
    (split; [vm_compute; reflexivity |]);
    (split; [vm_compute; reflexivity |]);
    (split; [reflexivity |]); (split; [reflexivity |]);
    (split; [reflexivity |]); (split; [reflexivity |]);
    (split; [vm_compute; reflexivity |]);
    vm_compute; reflexivity.
Qed.

(** C1 at the failing input.  With k = 4, a cursor constructed on "A",
    rolled to its end, given the empty sequence and rolled again, then given
    "CGTA": the second [append_seq] finds [len = 0] and fewer than [k - 1]
    bytes in [c_outs], sets [ind = len - 1], which wraps to 2^64 - 1, and
    evaluates [this->seq[ind]], a read outside the empty sequence.  A
    cursor constructed on the concatenation "ACGTA" reports positions 0
    and 1. *)
Theorem append_seq_after_empty_reads_out_of_bounds pcs H P :
  observe (and_then pcs H P 10 (bytes "CGTA")
             (and_then pcs H P 10 []
                (digest pcs H P 10 (bytes "A") 4 0 0)))
    = NoBehaviour OutOfBoundsRead /\
  exists l,
    observe (digest pcs H P 10 (bytes "A" ++ [] ++ bytes "CGTA") 4 0 0)
      = Emits l /\
    map reported_pos l = [0; 1].
Proof.
  destruct pcs, P; (split; [vm_compute; reflexivity |]);
    eexists; (split; [vm_compute; reflexivity | reflexivity]).
Qed.

(** C3 at the failing input.  Where plain [char] is signed, WRITEOVER
    construction on the byte 0x80 followed by "CGTA", with k = 4, calls
    [is_ACTG] on the [char] -128 and reads outside [actg]; SKIPOVER on the
    sequence with that byte replaced by 'A' reports positions 0 and 1. *)
Theorem write_over_reads_out_of_bounds H :
  observe (digest true H WRITEOVER 10 ("128"%byte :: bytes "CGTA") 4 0 0)
    = NoBehaviour OutOfBoundsRead /\
  map written_over ("128"%byte :: bytes "CGTA") = bytes "ACGTA" /\
  exists l,
    observe (digest true H SKIPOVER 10
               (map written_over ("128"%byte :: bytes "CGTA")) 4 0 0)
      = Emits l /\
    map reported_pos l = [0; 1].
Proof.
  split; [vm_compute; reflexivity |]. split; [reflexivity |].
  eexists. split; [vm_compute; reflexivity | reflexivity].
Qed.

(** ** WRITEOVER against SKIPOVER on the substituted sequence *)

Lemma is_ACTG_written_over pcs c :
  is_ACTG pcs (written_over c) = Returns true.
Proof. destruct pcs; destruct c; reflexivity. Qed.

Lemma written_over_idem c : written_over (written_over c) = written_over c.
Proof. destruct c; reflexivity. Qed.

Lemma read_indexable pcs s i c :
  forallb (indexable pcs) s = true -> read s i = Returns c ->
  indexable pcs c = true.
Proof.
  intros Hall Hr. apply read_Returns in Hr as [_ Hn].
  rewrite forallb_forall in Hall. apply Hall.
  eapply nth_error_In. eassumption.
Qed.

Lemma or_A_indexable pcs c :
  indexable pcs c = true -> or_A pcs c = Returns (written_over c).
Proof.
  intros Hc. unfold or_A. rewrite (is_ACTG_indexable pcs c Hc).
  reflexivity.
Qed.

Lemma read_map_bind {B} f s i (g : byte -> outcome B) :
  (c <- read (map f s) i ;; g c) = (c <- read s i ;; g (f c)).
Proof.
  destruct (read s i) as [c | e d | u] eqn:Hr.
  - rewrite (read_map f s i c Hr). reflexivity.
  - unfold read in Hr. repeat destruct (_ : bool) in Hr; try discriminate.
    destruct (nth_error _ _); discriminate.
  - assert (Hu : read (map f s) i = Undefined OutOfBoundsRead).
    { unfold read in *. rewrite size_map, nth_error_map.
      destruct ((0 <=? i) && (i <? size s)); [| reflexivity].
      destruct (nth_error s (Z.to_nat i)); [discriminate | reflexivity]. }
    assert (Hu' : u = OutOfBoundsRead).
    { unfold read in Hr. destruct ((0 <=? i) && (i <? size s));
        [destruct (nth_error s (Z.to_nat i)) |]; congruence. }
    rewrite Hu, Hu'. reflexivity.
Qed.

Lemma bind_assoc {A B C} (m : outcome A) (h : A -> outcome B)
  (h' : B -> outcome C) :
  (y <- (x <- m ;; h x) ;; h' y) = (x <- m ;; y <- h x ;; h' y).
Proof. destruct m; reflexivity. Qed.

Lemma read_n_map_bind {B} f s n i (g : list byte -> outcome B) :
  (l <- read_n (map f s) i n ;; g l) = (l <- read_n s i n ;; g (map f l)).
Proof.
  revert i g. induction n as [| n IH]; intros i g; cbn [read_n].
  - reflexivity.
  - rewrite !bind_assoc, read_map_bind.
    destruct (read s i) as [c | |]; cbn [bind]; try reflexivity.
    rewrite !bind_assoc. cbn [bind].
    apply (IH (i + 1) (fun l => g (f c :: l))).
Qed.

Lemma init_str_read_n {B} pcs s n i (g : list byte -> outcome B) :
  forallb (indexable pcs) s = true ->
  (l <- init_str pcs s n i ;; g l)
  = (l <- read_n s i n ;; g (map written_over l)).
Proof.
  intros Hall. revert i g. induction n as [| n IH]; intros i g;
    cbn [init_str read_n].
  - reflexivity.
  - rewrite !bind_assoc.
    destruct (read s i) as [c | |] eqn:Hr; cbn [bind]; try reflexivity.
    rewrite (or_A_indexable pcs c (read_indexable pcs s i c Hall Hr)).
    cbn [bind]. rewrite !bind_assoc. cbn [bind].
    apply (IH (i + 1) (fun l => g (written_over c :: l))).
Qed.

Lemma first_bad_read_n {B} pcs s n i (g : option Z -> outcome B) :
  (b <- first_bad pcs (map written_over s) n i ;; g b)
  = (l <- read_n s i n ;; g None).
Proof.
  revert i. induction n as [| n IH]; intros i; cbn [first_bad read_n].
  - reflexivity.
  - rewrite !bind_assoc, read_map_bind.
    destruct (read s i) as [c | |] eqn:Hr; cbn [bind]; try reflexivity.
    rewrite is_ACTG_written_over. cbn [bind]. rewrite !bind_assoc.
    cbn [bind]. rewrite IH. destruct (read_n s (i + 1) n); reflexivity.
Qed.

Lemma read_n_twice {B} s i n (g : list byte -> outcome B) :
  (l <- read_n s i n ;; l' <- read_n s i n ;; g l') = (l <- read_n s i n ;; g l).
Proof. destruct (read_n s i n) eqn:E; cbn [bind]; rewrite ?E; reflexivity. Qed.

Lemma read_n_out_of_bounds s i n :
  0 <= i -> n <> O -> size s < i + Z.of_nat n ->
  read_n s i n = Undefined OutOfBoundsRead.
Proof.
  intros Hi Hn Hs. pose proof (read_n_wp s i n Hi) as Hw.
  destruct (read_n s i n) as [l | |]; cbn [wp] in Hw.
  - destruct Hw as [_ Hle]. specialize (Hle Hn). lia.
  - contradiction.
  - rewrite Hw. reflexivity.
Qed.

Lemma init_hash_substituted pcs H d :
  forallb (indexable pcs) (seq d) = true ->
  unsigned (k d) -> 4 <= k d -> size_t (start d) -> size_t (size (seq d)) ->
  end_ d = u64 (start d + k d) ->
  init_hash pcs H SKIPOVER (substituted d)
  = substituted_run (init_hash pcs H WRITEOVER d).
Proof.
  intros Hall Hk Hk4 Hst Hsz He.
  unfold init_hash, init_hash_skip_over, init_hash_write_over, substituted.
  cbn [init_hash_skip_over_loop]. fields.
  destruct (u64 (end_ d - 1) <? len d) eqn:Hg; [| reflexivity].
  rewrite (init_str_read_n pcs (seq d) _ _ _ Hall).
  rewrite (first_bad_read_n pcs (seq d)).
  destruct (Z.lt_ge_cases (start d + k d) (2 ^ 64)) as [Hno | Hwrap].
  - assert (En : Z.to_nat (end_ d - start d) = Z.to_nat (k d)) by wrap_lia.
    rewrite En.
    pose proof (read_n_wp (seq d) (start d) (Z.to_nat (k d))
                  ltac:(wrap_lia)) as Hw.
    rewrite (read_n_map_bind written_over (seq d)).
    destruct (read_n (seq d) (start d) (Z.to_nat (k d))) as [l | |];
      cbn [bind wp] in *; [| contradiction | reflexivity].
    unfold base_hashes.
    destruct (_ <? k d); [reflexivity |].
    destruct (forallb nucleotide _); reflexivity.
  - assert (En : Z.to_nat (end_ d - start d) = O) by wrap_lia.
    rewrite En. cbn [read_n bind map].
    rewrite (read_n_map_bind written_over (seq d)).
    rewrite read_n_out_of_bounds by wrap_lia.
    unfold base_hashes. rewrite firstn_nil.
    change (size (@nil byte)) with 0.
    destruct (Z.ltb_spec 0 (k d)); [reflexivity | lia].
Qed.

Lemma roll_one_substituted pcs H d :
  forallb (indexable pcs) (seq d) = true ->
  roll_one pcs H SKIPOVER (substituted d)
  = substituted_run (roll_one pcs H WRITEOVER d).
Proof.
  intros Hall.
  unfold roll_one, roll_one_skip_over, roll_one_write_over, substituted.
  fields.
  destruct (is_valid_hash d); cbn [negb]; [| reflexivity].
  destruct (len d <=? end_ d); [reflexivity |].
  rewrite read_map_bind.
  destruct (read (seq d) (end_ d)) as [c | |] eqn:Hc; cbn [bind];
    [| unfold read in Hc; destruct (_ && _) in Hc;
       [destruct (nth_error _ _) in Hc |]; discriminate
     | reflexivity].
  rewrite is_ACTG_written_over,
    (or_A_indexable pcs c (read_indexable pcs _ _ c Hall Hc)).
  cbn [bind].
  destruct (c_outs d) as [| front rest] eqn:Hco.
  - rewrite read_map_bind.
    destruct (read (seq d) (start d)) as [o | |] eqn:Ho; cbn [bind];
      [| unfold read in Ho; destruct (_ && _) in Ho;
         [destruct (nth_error _ _) in Ho |]; discriminate
       | reflexivity].
    rewrite (or_A_indexable pcs o (read_indexable pcs _ _ o Hall Ho)).
    cbn [bind]. unfold next_hashes. fields.
    destruct (nucleotide (written_over o) && nucleotide (written_over c));
      reflexivity.
  - unfold next_hashes. fields.
    destruct (nucleotide front && nucleotide (written_over c)); reflexivity.
Qed.

Lemma roll_one_write_over_seq pcs H d r :
  roll_one pcs H WRITEOVER d = Returns r -> seq (snd r) = seq d.
Proof.
  unfold roll_one, roll_one_write_over.
  destruct (negb (is_valid_hash d)); [intros [= <-]; reflexivity |].
  destruct (len d <=? end_ d); [intros [= <-]; reflexivity |].
  destruct (read (seq d) (end_ d)) as [c | |]; cbn [bind]; try discriminate.
  destruct (or_A pcs c) as [a | |]; cbn [bind]; try discriminate.
  destruct (c_outs d) as [| front rest].
  - destruct (read (seq d) (start d)) as [o | |]; cbn [bind];
      try discriminate.
    destruct (or_A pcs o) as [a' | |]; cbn [bind]; try discriminate.
    destruct (next_hashes H d a' a) as [h | |]; cbn [bind]; try discriminate.
    intros [= <-]. reflexivity.
  - destruct (next_hashes H d front a) as [h | |]; cbn [bind];
      try discriminate.
    intros [= <-]. reflexivity.
Qed.

Lemma init_hash_write_over_seq pcs H d r :
  init_hash pcs H WRITEOVER d = Returns r -> seq (snd r) = seq d.
Proof.
  unfold init_hash, init_hash_write_over. fields.
  destruct (u64 (end_ d - 1) <? len d); [| intros [= <-]; reflexivity].
  destruct (init_str pcs (seq d) _ (start d)) as [str | |]; cbn [bind];
    try discriminate.
  destruct (base_hashes H str (k d)) as [h | |]; cbn [bind];
    try discriminate.
  intros [= <-]. reflexivity.
Qed.

Lemma rolls_substituted pcs H n d :
  forallb (indexable pcs) (seq d) = true ->
  rolls pcs H SKIPOVER n (substituted d)
  = substituted_run (rolls pcs H WRITEOVER n d).
Proof.
  revert d. induction n as [| n IH]; intros d Hall; cbn [rolls].
  - reflexivity.
  - rewrite (roll_one_substituted pcs H d Hall).
    destruct (roll_one pcs H WRITEOVER d) as [[b d1] | |] eqn:Hr;
      cbn [bind substituted_run fst snd]; try reflexivity.
    destruct b; [| reflexivity].
    pose proof (roll_one_write_over_seq pcs H d _ Hr) as Hseq.
    cbn [snd] in Hseq. rewrite IH by (rewrite Hseq; exact Hall).
    destruct (rolls pcs H WRITEOVER n d1) as [r1 | |]; reflexivity.
Qed.

Lemma emit_substituted pcs H n d :
  forallb (indexable pcs) (seq d) = true ->
  emit pcs H SKIPOVER n (substituted d)
  = substituted_run (emit pcs H WRITEOVER n d).
Proof.
  intros Hall. unfold emit.
  change (is_valid_hash (substituted d)) with (is_valid_hash d).
  destruct (is_valid_hash d); [| reflexivity].
  rewrite (rolls_substituted pcs H n d Hall).
  destruct (rolls pcs H WRITEOVER n d) as [r1 | |]; reflexivity.
Qed.

Lemma digest_substituted pcs H n S k' start' mh :
  size_t (size S) -> unsigned k' -> size_t start' ->
  forallb (indexable pcs) S = true ->
  digest pcs H SKIPOVER n (map written_over S) k' start' mh
  = substituted_run (digest pcs H WRITEOVER n S k' start' mh).
Proof.
  intros Hs Hk Hst Hall.
  unfold digest, Digester_of_string, Digester_new. rewrite size_map.
  destruct (Z.ltb_spec k' 4) as [Hk4 | Hk4]; cbn [orb]; [reflexivity |].
  destruct ((size S <=? start') || (2 <? mh)); [reflexivity |].
  set (d0 := mkDigester S (size S) 0 start' (u64 (start' + k')) 0 0 0 k' []
                        mh false).
  change (mkDigester (map written_over S) (size S) 0 start'
            (u64 (start' + k')) 0 0 0 k' [] mh false)
    with (substituted d0).
  rewrite (init_hash_substituted pcs H d0 Hall Hk Hk4 Hst Hs eq_refl).
  destruct (init_hash pcs H WRITEOVER d0) as [r | |] eqn:Hi;
    cbn [bind substituted_run fst snd]; try reflexivity.
  apply emit_substituted.
  rewrite (init_hash_write_over_seq pcs H d0 r Hi). exact Hall.
Qed.

Lemma observe_substituted_run m : observe (substituted_run m) = observe m.
Proof. destruct m; reflexivity. Qed.

(** WRITEOVER substitution where no byte of the sequence takes [is_ACTG]
    outside its table (every byte below 0x80 where plain [char] is signed):
    the stream of a WRITEOVER cursor on [S] is the stream of a SKIPOVER
    cursor on [S] with every non-ACTG byte replaced by 'A'; either both
    constructions throw, or both streams read the same tuples, or both
    runs read outside the sequence. *)
Theorem write_over_substitution pcs H n S k' start' mh :
  size_t (size S) -> unsigned k' -> size_t start' ->
  forallb (indexable pcs) S = true ->
  observe (digest pcs H WRITEOVER n S k' start' mh)
  = observe (digest pcs H SKIPOVER n (map written_over S) k' start' mh).
Proof.
  intros Hs Hk Hst Hall.
  rewrite (digest_substituted pcs H n S k' start' mh Hs Hk Hst Hall).
  symmetry. apply observe_substituted_run.
Qed.
(** SKIPOVER coverage on runs that return.  Under SKIPOVER, in every
    reachable valid state the current k-mer, [c_outs] followed by
    [seq[start..end)], holds nucleotides only, and each index of
    [seq[start..end)] is a readable nucleotide.  After construction or a
    [new_seq] that returned, and calls of [roll_one] and [append_seq] that
    return, with no empty sequence appended to a valid cursor and fewer
    than 2^63 bytes given: the [k] bytes at the position a valid cursor
    reports lie within the sequences given and are nucleotides. *)
Theorem skip_over_coverage pcs H d
  (Hr : reachable pcs H SKIPOVER d) (Hv : is_valid_hash d = true) :
  (forallb nucleotide (current_kmer d) = true /\
   forall i, start d <= i < end_ d ->
             exists c, read (seq d) i = Returns c /\ nucleotide c = true) /\
  (forall T,
     appended pcs H SKIPOVER T d -> size T < 2 ^ 63 ->
     0 <= get_pos d /\ get_pos d + k d <= size T /\
     forallb nucleotide (slice T (get_pos d) (k d)) = true).
Proof.
  pose proof (reachable_well_formed _ _ _ _ Hr) as Hwf.
  split.
  - destruct Hwf as (Hk & Hk4 & Hlen & Hsz & Hst & Hen & Hc & Hall & Hse & Hrn).
    specialize (Hse Hv). specialize (Hrn eq_refl Hv).
    assert (Hpt : forall i, start d <= i < end_ d ->
              exists c, read (seq d) i = Returns c /\ nucleotide c = true).
    { intros i Hi. destruct (read_in_range (seq d) i) as [c Hc']; [wrap_lia |].
      exists c. split; [assumption |]. apply (Hrn i c Hi Hc'). }
    split; [| exact Hpt].
    unfold current_kmer. rewrite forallb_app, Hall. cbn [andb].
    rewrite <- (Z2Nat.id (end_ d - start d)) by lia.
    apply forallb_slice_intro; [wrap_lia |].
    intros j Hj. apply Hpt. lia.
  - intros T Ha HT.
    pose proof (appended_coherent pcs H SKIPOVER T d Ha HT) as Hcoh.
    destruct (coherent_valid H SKIPOVER T d Hcoh Hwf HT Hv)
      as (Hp & Hpk & Hg & Hall & _).
    rewrite Hg. split; [exact Hp |]. split; [exact Hpk | exact Hall].
Qed.

Lemma skip_over_coverage_witness :
  exists r a,
    digest true RefHash.hash SKIPOVER 10 (bytes "ACTGNNAC") 4 0 0
      = Returns r /\
    append_seq_string true RefHash.hash SKIPOVER (bytes "TGN") (snd r)
      = Returns a /\
    is_valid_hash (snd a) = true /\
    current_kmer (snd a) = bytes "ACTG" /\
    forallb nucleotide (current_kmer (snd a)) = true /\
    get_pos (snd a) = 6 /\
    forallb nucleotide
      (slice (bytes "ACTGNNAC" ++ bytes "TGN") (get_pos (snd a)) (k (snd a)))
      = true.
Proof.
  eexists. eexists. split; [vm_compute; reflexivity |].
  split; [vm_compute; reflexivity |].
  split; [reflexivity |]. split; [reflexivity |].
  match goal with
  | |- forallb _ (current_kmer (snd ?a)) = _ /\ _ =>
      assert (Ha : appended true RefHash.hash SKIPOVER
                     (bytes "ACTGNNAC" ++ bytes "TGN") (snd a))
  end.
  { eapply appended_append with (r := (tt, _)).
    - eapply digest_appended with (n := 10%nat) (k' := 4) (start' := 0)
                                  (mh := 0) (r := (_, _)); try in_range.
      vm_compute. reflexivity.
    - in_range.
    - left. reflexivity.
    - vm_compute. reflexivity. }
  destruct (skip_over_coverage true RefHash.hash _
              (appended_reachable _ _ _ _ _ Ha) eq_refl) as ((H1 & _) & H4).
  split; [exact H1 |].
  split; [reflexivity |].
  apply (H4 _ Ha). vm_compute. reflexivity.
Defined.

(** C4 at the failing input.  A SKIPOVER cursor on "ACGTA" with k = 4 is
    rolled to its end and given "C", which leaves "GTAC" in [c_outs];
    [new_seq("NNNNNNNN", 8)] installs the new sequence, throws, and leaves
    [c_outs] as it was; [append_seq("ACGT")] then completes the stale
    carry and returns a valid cursor that hashes "TACA" and reports
    position 5, where the sequences it holds read "NNNA".  And a valid
    cursor on "ACGT" given the empty sequence stays valid and reports
    position 1, where three bytes are left. *)
Theorem skip_over_reports_position_over_N pcs H :
  (exists r a d1 a2,
     digest pcs H SKIPOVER 10 (bytes "ACGTA") 4 0 0 = Returns r /\
     append_seq_string pcs H SKIPOVER (bytes "C") (snd r) = Returns a /\
     c_outs (snd a) = bytes "GTAC" /\
     new_seq_string pcs H SKIPOVER (bytes "NNNNNNNN") 8 (snd a)
       = Throws BadConstructionException d1 /\
     seq d1 = bytes "NNNNNNNN" /\ offset d1 = 0 /\
     c_outs d1 = bytes "GTAC" /\
     append_seq_string pcs H SKIPOVER (bytes "ACGT") d1 = Returns a2 /\
     is_valid_hash (snd a2) = true /\
     current_kmer (snd a2) = bytes "TACA" /\
     (fhash (snd a2), rhash (snd a2), chash (snd a2))
     = kmer_hashes H (bytes "TACA") 4 /\
     get_pos (snd a2) = 5 /\
     slice (bytes "NNNNNNNN" ++ bytes "ACGT") 5 4 = bytes "NNNA" /\
     forallb nucleotide (slice (bytes "NNNNNNNN" ++ bytes "ACGT") 5 4)
       = false) /\
  (exists d a,
     Digester_of_string pcs H SKIPOVER (bytes "ACGT") 4 0 0 = Returns d /\
     append_seq_string pcs H SKIPOVER [] d = Returns a /\
     is_valid_hash (snd a) = true /\ get_pos (snd a) = 1 /\
     ~ get_pos (snd a) + k (snd a) <= size (bytes "ACGT" ++ [])).
Proof.
  split.
  - destruct pcs; eexists; eexists; eexists; eexists;
      (split; [vm_compute; reflexivity |]);
      (split; [vm_compute; reflexivity |]);
      (split; [reflexivity |]);
      (split; [vm_compute; reflexivity |]);
      (split; [reflexivity |]); (split; [reflexivity |]);
      (split; [reflexivity |]);
      (split; [vm_compute; reflexivity |]);
      (split; [reflexivity |]); (split; [reflexivity |]);
      (split; [vm_compute; reflexivity |]);
      repeat split; reflexivity.
  - destruct pcs; eexists; eexists;
      (split; [vm_compute; reflexivity |]);
      (split; [vm_compute; reflexivity |]);
      (split; [reflexivity |]); (split; [reflexivity |]);
      vm_compute; intros Hle; apply Hle; reflexivity.
Qed.
(** * Further properties *)

(** ** Reads that stay in bounds *)

Lemma in_bounds_bind {A B} (m : outcome A) (f : A -> outcome B) :
  in_bounds m -> (forall x, m = Returns x -> in_bounds (f x)) ->
  in_bounds (x <- m ;; f x).
Proof.
  unfold in_bounds. destruct m as [x | e d | u]; cbn [bind]; intros Hm Hf.
  - apply Hf. reflexivity.
  - discriminate.
  - intros [= ->]. apply Hm. reflexivity.
Qed.

Lemma wp_in_bounds {A} (Q : A -> Prop) (m : outcome A) :
  wp Q m -> in_bounds m -> exists x, m = Returns x /\ Q x.
Proof.
  unfold in_bounds. destruct m as [x | e d | u]; cbn [wp]; intros Hw Hb.
  - exists x. auto.
  - contradiction.
  - subst u. exfalso. apply Hb. reflexivity.
Qed.

Lemma in_bounds_Returns {A} (x : A) : in_bounds (Returns x).
Proof. discriminate. Qed.

Lemma in_bounds_read s i : 0 <= i < size s -> in_bounds (read s i).
Proof.
  intros Hi. destruct (read_in_range s i Hi) as [c ->]. discriminate.
Qed.

Lemma in_bounds_is_ACTG pcs c :
  indexable pcs c = true -> in_bounds (is_ACTG pcs c).
Proof. intros Hc. rewrite (is_ACTG_indexable pcs c Hc). discriminate. Qed.

Lemma in_bounds_or_A pcs c :
  indexable pcs c = true -> in_bounds (or_A pcs c).
Proof. intros Hc. rewrite (or_A_indexable pcs c Hc). discriminate. Qed.

Lemma in_bounds_read_n s n i :
  0 <= i -> i + Z.of_nat n <= size s -> in_bounds (read_n s i n).
Proof.
  revert i. induction n as [| n IH]; intros i Hi Hn; cbn [read_n].
  - discriminate.
  - apply in_bounds_bind; [apply in_bounds_read; lia |]. intros c _.
    apply in_bounds_bind; [apply IH; lia |]. intros cs _. discriminate.
Qed.

Lemma in_bounds_first_bad pcs s n i :
  classifiable pcs s -> 0 <= i -> i + Z.of_nat n <= size s ->
  in_bounds (first_bad pcs s n i).
Proof.
  intros Hs. revert i. induction n as [| n IH]; intros i Hi Hn;
    cbn [first_bad].
  - discriminate.
  - apply in_bounds_bind; [apply in_bounds_read; lia |]. intros c Hc.
    apply in_bounds_bind.
    { apply in_bounds_is_ACTG. exact (read_indexable pcs s i c Hs Hc). }
    intros b _. destruct b; [apply IH; lia | discriminate].
Qed.

Lemma in_bounds_init_str pcs s n i :
  classifiable pcs s -> 0 <= i -> i + Z.of_nat n <= size s ->
  in_bounds (init_str pcs s n i).
Proof.
  intros Hs. revert i. induction n as [| n IH]; intros i Hi Hn;
    cbn [init_str].
  - discriminate.
  - apply in_bounds_bind; [apply in_bounds_read; lia |]. intros c Hc.
    apply in_bounds_bind.
    { apply in_bounds_or_A. exact (read_indexable pcs s i c Hs Hc). }
    intros a _. apply in_bounds_bind; [apply IH; lia |].
    intros cs _. discriminate.
Qed.

Lemma in_bounds_base_hashes H buf k :
  0 <= k <= size buf -> in_bounds (base_hashes H buf k).
Proof.
  intros Hk. unfold base_hashes.
  assert (Hs : size (firstn (Z.to_nat k) buf) = k).
  { unfold size in *. rewrite length_firstn. lia. }
  rewrite Hs. destruct (Z.ltb_spec k k); [lia |].
  destruct (forallb nucleotide _); discriminate.
Qed.

Lemma in_bounds_next_hashes H d o i : in_bounds (next_hashes H d o i).
Proof. unfold next_hashes. destruct (_ && _); discriminate. Qed.

Lemma in_bounds_init_hash_skip_over_loop pcs H fuel d :
  classifiable pcs (seq d) -> len d = size (seq d) -> 0 < k d ->
  0 <= start d <= len d -> end_ d = start d + k d ->
  len d + k d < 2 ^ 64 ->
  in_bounds (init_hash_skip_over_loop pcs H fuel d).
Proof.
  intros Hs. revert d Hs.
  induction fuel as [| fuel IH]; intros d Hs Hlen Hk Hst He Hb;
    cbn [init_hash_skip_over_loop];
    (destruct (Z.ltb_spec (u64 (end_ d - 1)) (len d)) as [Hg | Hg];
      [| discriminate]).
  - discriminate.
  - rewrite u64_small in Hg by wrap_lia.
    assert (Hn : Z.of_nat (Z.to_nat (end_ d - start d)) = k d) by lia.
    apply in_bounds_bind.
    { apply in_bounds_first_bad; [assumption | lia | lia]. }
    intros bad Hbad.
    pose proof (wp_Returns _ _ _ (first_bad_wp pcs (seq d) _ (start d)
                                    ltac:(lia)) Hbad) as Hspec.
    destruct bad as [i |].
    + destruct Hspec as (Hi & His & _).
      apply IH; fields; try assumption;
        rewrite ?(u64_small (i + 1)) by wrap_lia; try lia.
      rewrite u64_small by wrap_lia. reflexivity.
    + apply in_bounds_bind.
      { apply in_bounds_read_n; lia. }
      intros kmer Hkm.
      pose proof (wp_Returns _ _ _ (read_n_wp (seq d) (start d) _
                                      ltac:(lia)) Hkm) as [-> _].
      apply in_bounds_bind; [| intros; discriminate].
      apply in_bounds_base_hashes. rewrite slice_size; lia.
Qed.

Lemma in_bounds_init_hash pcs H P d :
  classifiable pcs (seq d) -> len d = size (seq d) -> 0 < k d ->
  0 <= start d <= len d -> end_ d = start d + k d ->
  len d + k d < 2 ^ 64 ->
  in_bounds (init_hash pcs H P d).
Proof.
  intros Hs Hlen Hk Hst He Hb. unfold init_hash. destruct P.
  - unfold init_hash_write_over. fields.
    destruct (Z.ltb_spec (u64 (end_ d - 1)) (len d)) as [Hg | Hg];
      [| discriminate].
    rewrite u64_small in Hg by wrap_lia.
    assert (Hn : Z.of_nat (Z.to_nat (end_ d - start d)) = k d) by lia.
    apply in_bounds_bind.
    { apply in_bounds_init_str; [assumption | lia | lia]. }
    intros str Hstr.
    pose proof (wp_Returns _ _ _ (init_str_wp pcs (seq d) (start d) _
                                    ltac:(lia)) Hstr) as [-> _].
    apply in_bounds_bind; [| intros; discriminate].
    apply in_bounds_base_hashes. rewrite size_map, slice_size; lia.
  - unfold init_hash_skip_over.
    apply in_bounds_init_hash_skip_over_loop; fields; assumption.
Qed.

Lemma in_bounds_roll_one pcs H P d :
  well_formed P d -> classifiable pcs (seq d) -> len d + k d < 2 ^ 64 ->
  in_bounds (roll_one pcs H P d).
Proof.
  intros (Hk & Hk4 & Hlen & Hsz & Hst & Hen & Hc & Hall & Hse & Hrn) Hs Hb.
  assert (Hinit : forall d3,
    seq d3 = seq d -> len d3 = len d -> k d3 = k d ->
    start d3 = u64 (end_ d + 1) -> end_ d3 = u64 (start d3 + k d3) ->
    end_ d < len d ->
    in_bounds (init_hash pcs H P d3)).
  { intros d3 E1 E2 E3 E4 E5 Hlt.
    rewrite u64_small in E4 by wrap_lia.
    rewrite E4, E3, u64_small in E5 by wrap_lia.
    apply in_bounds_init_hash; rewrite ?E1, ?E2, ?E3, ?E4, ?E5;
      try assumption; wrap_lia. }
  unfold roll_one, roll_one_skip_over, roll_one_write_over.
  destruct (is_valid_hash d) eqn:Hv; cbn [negb];
    [| destruct P; discriminate].
  specialize (Hse eq_refl).
  destruct (Z.leb_spec (len d) (end_ d)) as [Hle | Hlt];
    [destruct P; discriminate |].
  destruct P.
  - apply in_bounds_bind; [apply in_bounds_read; wrap_lia |]. intros c Hrc.
    apply in_bounds_bind.
    { apply in_bounds_or_A. exact (read_indexable pcs _ _ c Hs Hrc). }
    intros a _. destruct (c_outs d) as [| front rest].
    + apply in_bounds_bind; [apply in_bounds_read; wrap_lia |].
      intros o Hro. apply in_bounds_bind.
      { apply in_bounds_or_A. exact (read_indexable pcs _ _ o Hs Hro). }
      intros oc _.
      apply in_bounds_bind; [apply in_bounds_next_hashes |].
      intros; discriminate.
    + apply in_bounds_bind; [apply in_bounds_next_hashes |].
      intros; discriminate.
  - apply in_bounds_bind; [apply in_bounds_read; wrap_lia |]. intros c Hrc.
    apply in_bounds_bind.
    { apply in_bounds_is_ACTG. exact (read_indexable pcs _ _ c Hs Hrc). }
    intros b _. destruct (c_outs d) as [| front rest]; destruct b.
    + apply in_bounds_bind; [apply in_bounds_read; wrap_lia |].
      intros o _.
      apply in_bounds_bind; [apply in_bounds_next_hashes |].
      intros; discriminate.
    + apply Hinit; try reflexivity. exact Hlt.
    + apply in_bounds_bind; [apply in_bounds_next_hashes |].
      intros; discriminate.
    + apply Hinit; try reflexivity. exact Hlt.
Qed.
Lemma in_bounds_append_tail pcs P fuel d temp ind :
  classifiable pcs (seq d) -> size_t (size (seq d)) ->
  0 <= ind < size (seq d) ->
  in_bounds (append_tail pcs P fuel d temp ind).
Proof.
  intros Hs Hsz. revert temp ind.
  induction fuel as [| fuel IH]; intros temp ind Hi; cbn [append_tail];
    (destruct (_ && _); [| discriminate]).
  - discriminate.
  - apply in_bounds_bind; [apply in_bounds_read; lia |]. intros c Hc.
    apply in_bounds_bind.
    { apply in_bounds_is_ACTG. exact (read_indexable pcs _ _ c Hs Hc). }
    intros b _.
    assert (Hrec : in_bounds
              (if ind =? 0
               then Returns (temp ++ [if b then c else "A"%byte])
               else append_tail pcs P fuel d
                      (temp ++ [if b then c else "A"%byte])
                      (u64 (ind - 1)))).
    { destruct (Z.eqb_spec ind 0); [discriminate |].
      apply IH. rewrite u64_small by wrap_lia. lia. }
    destruct P; destruct b; try exact Hrec. discriminate.
Qed.

Lemma in_bounds_append_head_skip_over pcs H P n s ind d :
  classifiable pcs s -> 0 <= ind -> ind + Z.of_nat n <= size s ->
  0 < k d -> size s + k d < 2 ^ 64 ->
  in_bounds (append_head_skip_over pcs H P n s (size s) ind d).
Proof.
  intros Hs. revert ind d.
  induction n as [| n IH]; intros ind d Hi Hn Hk Hb;
    cbn [append_head_skip_over]; [discriminate |].
  destruct (size (c_outs d) <? k d); [| discriminate].
  apply in_bounds_bind; [apply in_bounds_read; lia |]. intros c Hc.
  apply in_bounds_bind.
  { apply in_bounds_is_ACTG. exact (read_indexable pcs _ _ c Hs Hc). }
  intros b _. destruct b; cbn [negb].
  - apply IH; fields; lia.
  - apply in_bounds_bind; [| intros; discriminate].
    apply in_bounds_init_hash; fields;
      rewrite ?(u64_small (ind + 1)) by wrap_lia; try assumption;
      try reflexivity; try lia.
    rewrite u64_small by wrap_lia. reflexivity.
Qed.

Lemma in_bounds_append_head_write_over pcs n s ind d :
  classifiable pcs s -> 0 <= ind -> ind + Z.of_nat n <= size s ->
  in_bounds (append_head_write_over pcs n s ind d).
Proof.
  intros Hs. revert ind d.
  induction n as [| n IH]; intros ind d Hi Hn;
    cbn [append_head_write_over]; [discriminate |].
  destruct (size (c_outs d) <? k d); [| discriminate].
  apply in_bounds_bind; [apply in_bounds_read; lia |]. intros c Hc.
  apply in_bounds_bind.
  { apply in_bounds_or_A. exact (read_indexable pcs _ _ c Hs Hc). }
  intros a _. apply IH; lia.
Qed.

Lemma in_bounds_append_seq pcs H P s d :
  well_formed P d -> classifiable pcs (seq d) -> classifiable pcs s ->
  0 < len d -> size s + k d < 2 ^ 64 ->
  in_bounds (append_seq pcs H P s (size s) d).
Proof.
  intros Hwf Hsd Hs Hl Hb.
  destruct (append_popped_fields d)
    as (F1 & F2 & F3 & F4 & F5 & F6 & F7 & F8 & F9 & F10 & F11).
  destruct Hwf as (Hk & Hk4 & Hlen & Hsz & Hst & Hen & Hc & Hall & Hse & Hrn).
  rewrite append_seq_unfold.
  destruct (end_ d <? len d); [discriminate |].
  apply in_bounds_bind.
  { apply in_bounds_append_tail; rewrite ?F1, ?F2;
      [assumption | rewrite <- Hlen; assumption |].
    rewrite u64_small by wrap_lia. lia. }
  intros temp _.
  assert (Hk3 : k (append_carried (append_popped d) temp) = k d)
    by (unfold append_carried; fields; exact F5).
  apply in_bounds_bind.
  { destruct P.
    - apply in_bounds_append_head_write_over; [assumption | lia |].
      pose proof (size_nonneg s). lia.
    - apply in_bounds_append_head_skip_over; rewrite ?Hk3;
        try assumption; try lia.
      pose proof (size_nonneg s). lia. }
  intros d3 _.
  apply in_bounds_bind; [| intros; discriminate].
  destruct (Z.eqb_spec (size (c_outs d3)) (k d3)) as [E | E];
    [| discriminate].
  apply in_bounds_bind; [| intros; discriminate].
  apply in_bounds_base_hashes. pose proof (size_nonneg (c_outs d3)). lia.
Qed.
(** ** What the calls leave untouched *)

Lemma init_hash_skip_over_loop_frame pcs H fuel d r :
  init_hash_skip_over_loop pcs H fuel d = Returns r ->
  same_sequence d (snd r) /\ same_parameters d (snd r) /\
  c_outs (snd r) = c_outs d.
Proof.
  revert d. induction fuel as [| fuel IH]; intros d;
    cbn [init_hash_skip_over_loop];
    (destruct (u64 (end_ d - 1) <? len d);
      [| intros [= <-]; repeat split]).
  - discriminate.
  - destruct (first_bad pcs (seq d) _ (start d)) as [[i |] | |];
      cbn [bind]; try discriminate.
    + intros Hr. apply IH in Hr. fields. exact Hr.
    + destruct (read_n (seq d) (start d) _) as [kmer | |]; cbn [bind];
        try discriminate.
      destruct (base_hashes H kmer (k d)) as [h | |]; cbn [bind];
        try discriminate.
      intros [= <-]. repeat split.
Qed.

Lemma init_hash_frame pcs H P d r :
  init_hash pcs H P d = Returns r ->
  same_sequence d (snd r) /\ same_parameters d (snd r) /\
  c_outs (snd r) = [].
Proof.
  unfold init_hash. destruct P.
  - unfold init_hash_write_over. fields.
    destruct (u64 (end_ d - 1) <? len d); [| intros [= <-]; repeat split].
    destruct (init_str pcs (seq d) _ (start d)) as [str | |]; cbn [bind];
      try discriminate.
    destruct (base_hashes H str (k d)) as [h | |]; cbn [bind];
      try discriminate.
    intros [= <-]. repeat split.
  - unfold init_hash_skip_over. intros Hr.
    apply init_hash_skip_over_loop_frame in Hr. fields. exact Hr.
Qed.

Lemma roll_one_frame pcs H P d r :
  roll_one pcs H P d = Returns r ->
  same_sequence d (snd r) /\ same_parameters d (snd r).
Proof.
  assert (Hinit : forall d3,
    same_sequence d d3 -> same_parameters d d3 ->
    init_hash pcs H P d3 = Returns r ->
    same_sequence d (snd r) /\ same_parameters d (snd r)).
  { intros d3 (E1 & E2 & E3) (E4 & E5) Hr.
    apply init_hash_frame in Hr as ((F1 & F2 & F3) & (F4 & F5) & _).
    repeat split; congruence. }
  unfold roll_one, roll_one_skip_over, roll_one_write_over.
  destruct (negb (is_valid_hash d));
    [destruct P; intros [= <-]; repeat split |].
  destruct (len d <=? end_ d);
    [destruct P; intros [= <-]; repeat split |].
  destruct P.
  - destruct (read (seq d) (end_ d)) as [c | |]; cbn [bind];
      try discriminate.
    destruct (or_A pcs c) as [a | |]; cbn [bind]; try discriminate.
    destruct (c_outs d) as [| front rest].
    + destruct (read (seq d) (start d)) as [o | |]; cbn [bind];
        try discriminate.
      destruct (or_A pcs o) as [oc | |]; cbn [bind]; try discriminate.
      destruct (next_hashes H d oc a) as [h | |]; cbn [bind];
        try discriminate.
      intros [= <-]. repeat split.
    + destruct (next_hashes H d front a) as [h | |]; cbn [bind];
        try discriminate.
      intros [= <-]. repeat split.
  - destruct (read (seq d) (end_ d)) as [c | |]; cbn [bind];
      try discriminate.
    destruct (is_ACTG pcs c) as [b | |]; cbn [bind]; try discriminate.
    destruct (c_outs d) as [| front rest]; destruct b.
    + destruct (read (seq d) (start d)) as [o | |]; cbn [bind];
        try discriminate.
      destruct (next_hashes H d o c) as [h | |]; cbn [bind];
        try discriminate.
      intros [= <-]. repeat split.
    + apply Hinit; repeat split.
    + destruct (next_hashes H d front c) as [h | |]; cbn [bind];
        try discriminate.
      intros [= <-]. repeat split.
    + apply Hinit; repeat split.
Qed.

(** [roll_one] on a cursor a client can hold, whose sequence [is_ACTG] can
    classify and is short of 2^64 by more than [k]: it returns; the value
    returned is the validity it leaves; the sequence, its length, the
    offset, [k] and [minimized_h] are as before. *)
Theorem roll_one_defined pcs H P d
  (Hr : reachable pcs H P d) (Hs : classifiable pcs (seq d))
  (Hb : len d + k d < 2 ^ 64) :
  exists b d',
    roll_one pcs H P d = Returns (b, d') /\
    is_valid_hash d' = b /\
    same_sequence d d' /\ same_parameters d d'.
Proof.
  pose proof (reachable_well_formed pcs H P d Hr) as Hwf.
  destruct (wp_in_bounds _ _ (roll_one_well_formed pcs H P d Hwf)
              (in_bounds_roll_one pcs H P d Hwf Hs Hb))
    as ([b d'] & Hroll & _ & Hv & _).
  exists b, d'. split; [exact Hroll |]. split; [exact Hv |].
  exact (roll_one_frame pcs H P d _ Hroll).
Qed.

Lemma roll_one_defined_witness :
  exists d b d',
    Digester_of_string true RefHash.hash SKIPOVER (bytes "ACGTNACGTA") 4 0 0
      = Returns d /\
    roll_one true RefHash.hash SKIPOVER d = Returns (b, d') /\
    is_valid_hash d' = b /\ same_sequence d d' /\ same_parameters d d'.
Proof.
  eexists.
  match goal with
  | |- exists b d', ?D = Returns ?d /\ _ =>
      assert (Hd : D = Returns d) by (vm_compute; reflexivity)
  end.
  match type of Hd with
  | _ = Returns ?d =>
      destruct (roll_one_defined true RefHash.hash SKIPOVER d)
        as (b & d' & Hroll & Hrest)
  end.
  - eapply reach_new with (s := bytes "ACGTNACGTA") (k' := 4) (start' := 0)
                          (mh := 0); try in_range. exact Hd.
  - reflexivity.
  - vm_compute. reflexivity.
  - exists b, d'. split; [exact Hd |]. split; [exact Hroll | exact Hrest].
Defined.
(** ** The k-mers a cursor visits *)

Lemma kmer_at_outside P T k q : size T < q + k -> kmer_at P T k q = false.
Proof.
  intros Hq. unfold kmer_at.
  destruct (Z.leb_spec (q + k) (size T)); [lia |].
  rewrite andb_false_r. reflexivity.
Qed.

Lemma kmer_at_bad P T k q j c :
  0 <= q -> q <= j < q + k -> read T j = Returns c ->
  nucleotide (view_byte P c) = false -> kmer_at P T k q = false.
Proof.
  intros Hq Hj Hr Hc. unfold kmer_at.
  destruct (forallb nucleotide (slice (view P T) q k)) eqn:Hall;
    [| apply andb_false_r].
  rewrite (forallb_slice_elim nucleotide (view P T) q k j (view_byte P c))
    in Hc; try assumption; [discriminate |].
  apply read_view. exact Hr.
Qed.

Lemma kmer_at_true P T k q :
  kmer_at P T k q = true ->
  0 <= q /\ q + k <= size T /\
  forallb nucleotide (slice (view P T) q k) = true.
Proof.
  unfold kmer_at. intros Hk.
  apply andb_prop in Hk as [Hk Hall]. apply andb_prop in Hk as [H0 H1].
  repeat split; [lia | lia | exact Hall].
Qed.

Lemma kmer_at_intro P T k q :
  0 <= q -> q + k <= size T ->
  forallb nucleotide (slice (view P T) q k) = true ->
  kmer_at P T k q = true.
Proof.
  intros H0 H1 Hall. unfold kmer_at. rewrite Hall.
  destruct (Z.leb_spec 0 q); [| lia].
  destruct (Z.leb_spec (q + k) (size T)); [reflexivity | lia].
Qed.

Lemma kmers_from_none H P T k q n :
  (forall i, q <= i < q + Z.of_nat n -> kmer_at P T k i = false) ->
  kmers_from H P T k q n = [].
Proof.
  revert q. induction n as [| n IH]; intros q Hq; cbn [kmers_from].
  - reflexivity.
  - rewrite (Hq q) by lia. cbn [app]. apply IH. intros i Hi. apply Hq. lia.
Qed.

Lemma kmers_from_app H P T k q n m :
  kmers_from H P T k q (n + m)
  = kmers_from H P T k q n ++ kmers_from H P T k (q + Z.of_nat n) m.
Proof.
  revert q. induction n as [| n IH]; intros q.
  - cbn [kmers_from Nat.add app]. rewrite Z.add_0_r. reflexivity.
  - replace (q + Z.of_nat (S n)) with (q + 1 + Z.of_nat n) by lia.
    cbn [kmers_from Nat.add app]. rewrite IH, <- app_assoc. reflexivity.
Qed.

(** The list from [q] begins with the first k-mer at or after [q]. *)
Lemma kmers_from_first H P T k q n p :
  q <= p < q + Z.of_nat n ->
  (forall i, q <= i < p -> kmer_at P T k i = false) ->
  kmer_at P T k p = true ->
  kmers_from H P T k q n
  = kmer_tuple H P T k p
    :: kmers_from H P T k (p + 1) (n - Z.to_nat (p - q) - 1).
Proof.
  intros Hp Hnone Hat.
  replace n with (Z.to_nat (p - q) + S (n - Z.to_nat (p - q) - 1))%nat at 1
    by lia.
  rewrite kmers_from_app, kmers_from_none by (intros i Hi; apply Hnone; lia).
  cbn [app kmers_from]. replace (q + Z.of_nat (Z.to_nat (p - q))) with p by lia.
  rewrite Hat. reflexivity.
Qed.
Lemma roll_one_next pcs H P T d r :
  well_formed P d -> coherent H P T d -> size T < 2 ^ 63 ->
  is_valid_hash d = true ->
  roll_one pcs H P d = Returns r ->
  next_kmer P T (k d) (position d) r.
Proof.
  intros Hwf [Hpre Hshape] HT Hv.
  destruct Hwf as (Hk & Hk4 & Hlen & Hsz & Hst & Hen & Hc & Hall & Hse & Hrn).
  destruct Hshape as [(Hp & He & Hle & Hn & Hkm & Hco & Hh)
                     | [(Hf & _) | (Hf & _)]]; try congruence.
  destruct Hpre as (pre & HTe & Hoff).
  assert (HsT : size T = offset d + len d).
  { rewrite HTe, size_app. lia. }
  pose proof (size_nonneg pre) as Hoff0.
  pose proof (size_nonneg (c_outs d)) as Hn0.
  assert (Hpe : position d = offset d + end_ d - k d)
    by (unfold position; lia).
  unfold roll_one, roll_one_skip_over, roll_one_write_over. rewrite Hv.
  cbn [negb].
  destruct (Z.leb_spec (len d) (end_ d)) as [Hge | Hlt].
  { intros Hr.
    assert (Hr' : r = (false, set_is_valid_hash false d))
      by (destruct P; congruence).
    subst r. unfold next_kmer. cbn [fst]. intros q Hq.
    apply kmer_at_outside. lia. }
  (* a roll that moves one position *)
  assert (Hadv : forall h,
    r = (true, set_hashes h (set_end (u64 (end_ d + 1))
                 (match c_outs d with
                  | [] => set_start (u64 (start d + 1)) d
                  | _ :: rest => set_c_outs rest d
                  end))) ->
    next_kmer P T (k d) (position d) r).
  { intros h ->. unfold next_kmer, position. cbn [fst snd].
    assert (E : offset d + start d - size (c_outs d) + 1
                = (let d' := set_hashes h (set_end (u64 (end_ d + 1))
                     (match c_outs d with
                      | [] => set_start (u64 (start d + 1)) d
                      | _ :: rest => set_c_outs rest d
                      end)) in
                   offset d' + start d' - size (c_outs d'))).
    { cbv zeta. destruct (c_outs d) as [| y l] eqn:E; fields; rewrite ?E.
      - change (size (@nil byte)) with 0. rewrite u64_small by wrap_lia. lia.
      - rewrite size_cons. lia. }
    cbv zeta in E. rewrite <- E. split; [lia | intros q Hq; lia]. }
  (* SKIPOVER reinitialises after the non-ACTG byte at [end] *)
  assert (Hinit : forall d3 c,
    read (seq d) (end_ d) = Returns c -> nucleotide c = false ->
    P = SKIPOVER ->
    seq d3 = seq d -> len d3 = len d -> offset d3 = offset d -> k d3 = k d ->
    start d3 = u64 (end_ d + 1) -> end_ d3 = u64 (start d3 + k d3) ->
    init_hash pcs H P d3 = Returns r ->
    next_kmer P T (k d) (position d) r).
  { intros d3 c Hrc Hnc HP E1 E2 E3 E4 E5 E6 Hr.
    rewrite u64_small in E5 by wrap_lia.
    assert (Hw : wp (init_hash_post H P d3) (init_hash pcs H P d3)).
    { apply init_hash_wp; rewrite ?E1, ?E2, ?E4, ?E5; try assumption;
        [wrap_lia | rewrite <- E4, <- E5; exact E6]. }
    rewrite Hr in Hw. cbn [wp] in Hw.
    destruct Hw as (p' & Hp' & _ & Hple & Hskip & Hres).
    rewrite E1, E2, E4, E5 in *.
    assert (Hbad : forall q, position d < q <= offset d + end_ d ->
                             kmer_at P T (k d) q = false).
    { intros q Hq. apply (kmer_at_bad P T (k d) q (offset d + end_ d) c);
        [lia | lia | | subst P; exact Hnc].
      rewrite HTe, <- Hoff. rewrite read_tail by wrap_lia. exact Hrc. }
    assert (Hskipped : forall q, offset d + end_ d < q < offset d + p' ->
                                 kmer_at P T (k d) q = false).
    { intros q Hq.
      destruct (Hskip (q - offset d) ltac:(lia)) as (j & c' & Hj & _ & Hrj & Hc').
      apply (kmer_at_bad P T (k d) q (offset d + j) c');
        [lia | lia | | subst P; exact Hc'].
      rewrite HTe, <- Hoff. rewrite read_tail by wrap_lia. exact Hrj. }
    unfold next_kmer. destruct r as [b d']. cbn [fst snd] in *. destruct b.
    - destruct Hres as (Hpk & _ & ->).
      assert (Hpos : position (set_is_valid_hash true
                (set_hashes (kmer_hashes H (view P (slice (seq d) p' (k d))) (k d))
                   (set_end (p' + k d) (set_start p' (set_c_outs [] d3)))))
              = offset d + p').
      { unfold position. fields. rewrite E3.
        change (size (@nil byte)) with 0. lia. }
      rewrite Hpos.
      split; [lia |]. intros q Hq.
      destruct (Z_le_gt_dec q (offset d + end_ d));
        [apply Hbad | apply Hskipped]; lia.
    - destruct Hres as (Hgt & _). intros q Hq.
      destruct (Z_le_gt_dec q (offset d + end_ d)); [apply Hbad; lia |].
      destruct (Z_lt_ge_dec q (offset d + p')); [apply Hskipped; lia |].
      apply kmer_at_outside. specialize (Hgt ltac:(wrap_lia)). lia. }
  destruct P.
  - destruct (read (seq d) (end_ d)) as [c | |]; cbn [bind];
      try discriminate.
    destruct (or_A pcs c) as [a | |]; cbn [bind]; try discriminate.
    destruct (c_outs d) as [| front rest].
    + destruct (read (seq d) (start d)) as [o | |]; cbn [bind];
        try discriminate.
      destruct (or_A pcs o) as [oc | |]; cbn [bind]; try discriminate.
      destruct (next_hashes H d oc a) as [h | |]; cbn [bind];
        try discriminate.
      intros [= <-]. apply (Hadv h). reflexivity.
    + destruct (next_hashes H d front a) as [h | |]; cbn [bind];
        try discriminate.
      intros [= <-]. apply (Hadv h). reflexivity.
  - destruct (read (seq d) (end_ d)) as [c | |] eqn:Hrc; cbn [bind];
      try discriminate.
    destruct (is_ACTG pcs c) as [b | |] eqn:Hb; cbn [bind];
      try discriminate.
    apply is_ACTG_sound in Hb. subst b.
    destruct (c_outs d) as [| front rest] eqn:Hco';
      destruct (nucleotide c) eqn:Hnc.
    + destruct (read (seq d) (start d)) as [o | |]; cbn [bind];
        try discriminate.
      destruct (next_hashes H d o c) as [h | |]; cbn [bind];
        try discriminate.
      intros [= <-]. apply (Hadv h). reflexivity.
    + apply (Hinit _ c); fields; try reflexivity; assumption.
    + destruct (next_hashes H d front c) as [h | |]; cbn [bind];
        try discriminate.
      intros [= <-]. apply (Hadv h). reflexivity.
    + apply (Hinit _ c); fields; try reflexivity; assumption.
Qed.
Lemma appended_well_formed pcs H P T d :
  appended pcs H P T d -> well_formed P d.
Proof.
  intros Ha. apply (reachable_well_formed pcs H P).
  exact (appended_reachable pcs H P T d Ha).
Qed.

Lemma appended_size pcs H P T d :
  appended pcs H P T d -> size T < 2 ^ 63 ->
  size T = offset d + len d /\ 0 <= offset d.
Proof.
  intros Ha HT.
  destruct (appended_coherent pcs H P T d Ha HT) as [(pre & -> & <-) _].
  rewrite size_app.
  destruct (appended_well_formed pcs H P _ d Ha) as (_ & _ & -> & _).
  split; [reflexivity | apply size_nonneg].
Qed.

(** C2's invariant read at a valid cursor, with the k-mer as a [kmer_at]. *)
Lemma appended_valid pcs H P T d :
  appended pcs H P T d -> size T < 2 ^ 63 -> is_valid_hash d = true ->
  get_pos d = position d /\ kmer_at P T (k d) (position d) = true /\
  (nthash_rolls H -> report d = kmer_tuple H P T (k d) (position d)).
Proof.
  intros Ha HT Hv.
  destruct (coherent_valid H P T d (appended_coherent pcs H P T d Ha HT)
              (appended_well_formed pcs H P T d Ha) HT Hv)
    as (Hp & Hpk & Hg & Hall & Hh).
  split; [exact Hg |]. split; [apply kmer_at_intro; assumption |].
  intros Hrolls. specialize (Hh Hrolls).
  unfold report, kmer_tuple. rewrite Hg, <- Hh. reflexivity.
Qed.

Lemma roll_one_returns pcs H P T d :
  appended pcs H P T d -> size T < 2 ^ 63 -> classifiable pcs (seq d) ->
  exists b d',
    roll_one pcs H P d = Returns (b, d') /\ is_valid_hash d' = b /\
    k d' = k d /\ seq d' = seq d /\ appended pcs H P T d'.
Proof.
  intros Ha HT Hs.
  pose proof (appended_well_formed pcs H P T d Ha) as Hwf.
  destruct (appended_size pcs H P T d Ha HT) as [HsT Hoff].
  assert (Hb : len d + k d < 2 ^ 64).
  { destruct Hwf as (Hk & _). wrap_lia. }
  destruct (wp_in_bounds _ _ (roll_one_well_formed pcs H P d Hwf)
              (in_bounds_roll_one pcs H P d Hwf Hs Hb))
    as ([b d'] & Hroll & _ & Hv & Hk' & _).
  exists b, d'. cbn [fst snd] in *.
  destruct (roll_one_frame pcs H P d _ Hroll) as ((E1 & _) & _).
  repeat split; try assumption.
  exact (appended_roll pcs H P T d (b, d') Ha Hroll).
Qed.

(** Rolling a valid cursor to its end reads the k-mers of [T] after the
    current one, each once and in order. *)
Lemma rolls_stream pcs H P T n d :
  nthash_rolls H -> appended pcs H P T d -> size T < 2 ^ 63 ->
  classifiable pcs (seq d) -> is_valid_hash d = true ->
  size T - position d <= Z.of_nat n ->
  exists d',
    rolls pcs H P n d
    = Returns (kmers_from H P T (k d) (position d + 1)
                 (Z.to_nat (size T - position d - 1)), d') /\
    is_valid_hash d' = false /\ appended pcs H P T d' /\
    seq d' = seq d /\ k d' = k d.
Proof.
  intros Hrolls. revert d.
  induction n as [| n IH]; intros d Ha HT Hs Hv Hn.
  - destruct (appended_valid pcs H P T d Ha HT Hv) as (_ & Hat & _).
    apply kmer_at_true in Hat as (_ & Hfit & _).
    destruct (appended_well_formed pcs H P T d Ha) as (_ & Hk4 & _). lia.
  - destruct (roll_one_returns pcs H P T d Ha HT Hs)
      as (b & d1 & Hroll & Hv1 & Hk1 & Hs1 & Ha1).
    pose proof (roll_one_next pcs H P T d _
                  (appended_well_formed pcs H P T d Ha)
                  (appended_coherent pcs H P T d Ha HT) HT Hv Hroll) as Hnext.
    unfold next_kmer in Hnext. cbn [fst snd] in Hnext.
    cbn [rolls]. rewrite Hroll. cbn [bind fst snd]. destruct b.
    + destruct Hnext as [Hlt Hnone].
      destruct (appended_valid pcs H P T d1 Ha1 HT Hv1) as (Hg1 & Hat1 & Hrep).
      rewrite Hk1 in Hat1.
      pose proof (kmer_at_true _ _ _ _ Hat1) as (_ & Hfit & _).
      destruct (appended_well_formed pcs H P T d Ha) as (_ & Hk4 & _).
      destruct (IH d1 Ha1 HT ltac:(rewrite Hs1; exact Hs) Hv1 ltac:(lia))
        as (d' & Hrest & Hv' & Ha' & Hs' & Hk').
      rewrite Hrest. cbn [bind fst snd]. exists d'.
      split; [| repeat split; try assumption; congruence].
      rewrite (kmers_from_first H P T (k d) (position d + 1) _ (position d1));
        try assumption; [| lia | intros i Hi; apply Hnone; lia].
      rewrite (Hrep Hrolls), Hk1. repeat f_equal. lia.
    + exists d1. split; [| repeat split; assumption].
      rewrite kmers_from_none by (intros i Hi; apply Hnext; lia).
      reflexivity.
Qed.
Lemma init_hash_post_first H P T d r :
  unsigned (k d) -> 4 <= k d -> len d = size (seq d) ->
  0 <= start d <= len d ->
  (exists pre, T = pre ++ seq d /\ size pre = offset d) ->
  size T < 2 ^ 63 ->
  init_hash_post H P d r ->
  if fst r then
    offset d + start d <= position (snd r) /\
    forall q, offset d + start d <= q < position (snd r) ->
              kmer_at P T (k d) q = false
  else forall q, offset d + start d <= q -> kmer_at P T (k d) q = false.
Proof.
  intros Hk Hk4 Hlen Hst (pre & HTe & Hoff) HT
         (p & Hp & HPw & Hple & Hskip & Hres).
  assert (HsT : size T = offset d + len d).
  { rewrite HTe, size_app. lia. }
  pose proof (size_nonneg pre) as Hoff0.
  assert (Hskipped : forall q, offset d + start d <= q < offset d + p ->
                               kmer_at P T (k d) q = false).
  { intros q Hq. destruct P; [specialize (HPw eq_refl); lia |].
    destruct (Hskip (q - offset d) ltac:(lia)) as (j & c & Hj & _ & Hrj & Hc).
    apply (kmer_at_bad SKIPOVER T (k d) q (offset d + j) c);
      [lia | lia | | exact Hc].
    rewrite HTe, <- Hoff. rewrite read_tail by lia. exact Hrj. }
  destruct r as [b d']. cbn [fst snd] in *. destruct b.
  - destruct Hres as (Hpk & _ & ->).
    assert (Hpos : position (set_is_valid_hash true
              (set_hashes (kmer_hashes H (view P (slice (seq d) p (k d))) (k d))
                 (set_end (p + k d) (set_start p (set_c_outs [] d)))))
            = offset d + p).
    { unfold position. fields. change (size (@nil byte)) with 0. lia. }
    rewrite Hpos. split; [lia | exact Hskipped].
  - destruct Hres as (Hgt & _). intros q Hq.
    destruct (Z_lt_ge_dec q (offset d + p)); [apply Hskipped; lia |].
    apply kmer_at_outside. specialize (Hgt ltac:(wrap_lia)). lia.
Qed.

(** Construction with arguments the constructor accepts, on a sequence
    [is_ACTG] can classify: it returns, and the cursor is at the first k-mer
    at or after [start], or invalid if there is none. *)
Lemma Digester_new_returns pcs H P s k' start' mh :
  size_t (size s) -> unsigned k' -> size_t start' -> int mh ->
  4 <= k' -> start' < size s -> mh <= 2 ->
  classifiable pcs s -> size s < 2 ^ 63 ->
  exists d,
    Digester_of_string pcs H P s k' start' mh = Returns d /\
    appended pcs H P s d /\
    (seq d = s /\ len d = size s /\ offset d = 0 /\ k d = k' /\
     minimized_h d = mh /\ c_outs d = []) /\
    if is_valid_hash d then
      start' <= position d /\
      forall q, start' <= q < position d -> kmer_at P s k' q = false
    else forall q, start' <= q -> kmer_at P s k' q = false.
Proof.
  intros Hs Hk Hst Hmhi Hk4 Hlt Hmh Hcl HT.
  unfold Digester_of_string, Digester_new.
  destruct (Z.ltb_spec k' 4); [lia |].
  destruct (Z.leb_spec (size s) start'); [lia |].
  destruct (Z.ltb_spec 2 mh); [lia |]. cbn [orb].
  set (d0 := mkDigester s (size s) 0 start' (u64 (start' + k')) 0 0 0 k' []
                        mh false).
  assert (Hin : in_bounds (init_hash pcs H P d0)).
  { apply in_bounds_init_hash; unfold d0; fields; try assumption;
      try reflexivity; wrap_lia. }
  destruct (wp_in_bounds _ _
              (init_hash_wp pcs H P d0 Hk Hk4 eq_refl Hs Hst eq_refl) Hin)
    as (r & Hr & Hpost).
  rewrite Hr. cbn [bind]. exists (snd r). split; [reflexivity |].
  assert (Hnew : Digester_of_string pcs H P s k' start' mh = Returns (snd r)).
  { unfold Digester_of_string, Digester_new.
    destruct (Z.ltb_spec k' 4); [lia |].
    destruct (Z.leb_spec (size s) start'); [lia |].
    destruct (Z.ltb_spec 2 mh); [lia |]. cbn [orb].
    fold d0. rewrite Hr. reflexivity. }
  split.
  { apply (appended_new pcs H P s k' start' mh); assumption. }
  destruct (init_hash_frame pcs H P d0 r Hr)
    as ((E1 & E2 & E3) & (E4 & E5) & E6).
  split; [repeat split; assumption |].
  pose proof (init_hash_post_first H P s d0 r Hk Hk4 eq_refl
                ltac:(unfold d0; fields; wrap_lia)
                ltac:(exists []; split; reflexivity) HT Hpost) as Hfirst.
  destruct (init_hash_post_well_formed H P d0 r Hk Hk4 eq_refl Hs Hst Hpost)
    as (_ & Hv & _).
  rewrite Hv. unfold d0 in Hfirst at 1 2 3 4 5 6. fields.
  rewrite !Z.add_0_l in Hfirst. exact Hfirst.
Qed.
Lemma init_hash_post_report H P T d r :
  unsigned (k d) -> 4 <= k d -> len d = size (seq d) ->
  0 <= start d <= len d ->
  (exists pre, T = pre ++ seq d /\ size pre = offset d) ->
  size T < 2 ^ 63 ->
  init_hash_post H P d r -> fst r = true ->
  get_pos (snd r) = position (snd r) /\
  kmer_at P T (k d) (position (snd r)) = true /\
  report (snd r) = kmer_tuple H P T (k d) (position (snd r)).
Proof.
  intros Hk Hk4 Hlen Hst (pre & HTe & Hoff) HT
         (p & Hp & _ & _ & _ & Hres) Hb.
  assert (HsT : size T = offset d + len d).
  { rewrite HTe, size_app. lia. }
  pose proof (size_nonneg pre) as Hoff0.
  rewrite Hb in Hres. destruct Hres as (Hpk & Hall & ->).
  assert (Hsl : slice (view P T) (offset d + p) (k d)
                = view P (slice (seq d) p (k d))).
  { rewrite view_slice, HTe, <- Hoff, slice_tail by lia. reflexivity. }
  unfold report, kmer_tuple, get_pos, position. fields.
  change (size (@nil byte)) with 0. rewrite Z.sub_0_r, Hsl.
  rewrite u64_small by wrap_lia.
  split; [reflexivity |]. split; [| reflexivity].
  apply kmer_at_intro; [lia | lia |]. rewrite Hsl. exact Hall.
Qed.

(** Construction with arguments the constructor accepts, on a sequence
    [is_ACTG] can classify and shorter than 2^63: it returns a cursor on
    [s] with offset 0, [k] and [minimized_h] as given and no carry.  The
    cursor is valid exactly if a k-mer of [s] starts at or after [start];
    it is then on the first one and stores its base hashes. *)
Theorem Digester_new_first_kmer pcs H P s k' start' mh
  (Hs : size_t (size s)) (Hk : unsigned k') (Hst : size_t start')
  (Hmhi : int mh) (Hk4 : 4 <= k') (Hlt : start' < size s) (Hmh : mh <= 2)
  (Hcl : classifiable pcs s) (HT : size s < 2 ^ 63) :
  exists d,
    Digester_of_string pcs H P s k' start' mh = Returns d /\
    (seq d = s /\ len d = size s /\ offset d = 0 /\ k d = k' /\
     minimized_h d = mh /\ c_outs d = []) /\
    if is_valid_hash d then
      start' <= get_pos d /\
      kmer_at P s k' (get_pos d) = true /\
      report d = kmer_tuple H P s k' (get_pos d) /\
      forall q, start' <= q < get_pos d -> kmer_at P s k' q = false
    else forall q, start' <= q -> kmer_at P s k' q = false.
Proof.
  destruct (Digester_new_returns pcs H P s k' start' mh
              Hs Hk Hst Hmhi Hk4 Hlt Hmh Hcl HT)
    as (d & Hnew & Ha & Hframe & Hfirst).
  exists d. split; [exact Hnew |]. split; [exact Hframe |].
  destruct (is_valid_hash d) eqn:Hv; [| exact Hfirst].
  destruct Hfirst as [Hle Hnone].
  (* the hashes are those [init_hash] stored *)
  unfold Digester_of_string, Digester_new in Hnew.
  destruct (Z.ltb_spec k' 4); [lia |].
  destruct (Z.leb_spec (size s) start'); [lia |].
  destruct (Z.ltb_spec 2 mh); [lia |]. cbn [orb] in Hnew.
  set (d0 := mkDigester s (size s) 0 start' (u64 (start' + k')) 0 0 0 k' []
                        mh false) in Hnew.
  pose proof (init_hash_wp pcs H P d0 Hk Hk4 eq_refl Hs Hst eq_refl) as Hw.
  destruct (init_hash pcs H P d0) as [r | |] eqn:Hr; cbn [bind] in Hnew;
    try discriminate.
  injection Hnew as <-. cbn [wp] in Hw.
  destruct (init_hash_post_well_formed H P d0 r Hk Hk4 eq_refl Hs Hst Hw)
    as (_ & Hvr & _).
  destruct (init_hash_post_report H P s d0 r Hk Hk4 eq_refl
              ltac:(unfold d0; fields; wrap_lia)
              ltac:(exists []; split; reflexivity) HT Hw
              ltac:(congruence))
    as (Hg & Hat & Hrep).
  change (k d0) with k' in *. rewrite Hg. auto.
Qed.

Lemma Digester_new_first_kmer_witness :
  exists d,
    Digester_of_string true RefHash.hash SKIPOVER (bytes "ACNGTTACGTA") 4 1 0
      = Returns d /\
    is_valid_hash d = true /\ get_pos d = 3 /\
    kmer_at SKIPOVER (bytes "ACNGTTACGTA") 4 1 = false /\
    kmer_at SKIPOVER (bytes "ACNGTTACGTA") 4 2 = false /\
    kmer_at SKIPOVER (bytes "ACNGTTACGTA") 4 3 = true /\
    report d = kmer_tuple RefHash.hash SKIPOVER (bytes "ACNGTTACGTA") 4 3.
Proof.
  destruct (Digester_new_first_kmer true RefHash.hash SKIPOVER
              (bytes "ACNGTTACGTA") 4 1 0)
    as (d & Hnew & _ & Hfirst);
    [in_range | in_range | in_range | in_range | lia
    | vm_compute; reflexivity | lia | reflexivity
    | vm_compute; reflexivity |].
  exists d. split; [exact Hnew |].
  assert (Hd : is_valid_hash d = true /\ get_pos d = 3).
  { vm_compute in Hnew. injection Hnew as <-. split; reflexivity. }
  destruct Hd as [Hv Hg]. rewrite Hv, Hg in Hfirst.
  destruct Hfirst as (_ & Hat & Hrep & Hnone).
  repeat split; try assumption; apply Hnone; lia.
Defined.

(** The stream of a cursor constructed on [S], read with at least [|S|]
    calls of [roll_one]: it is defined, ends with an invalid cursor, and
    holds the k-mers of [S] from [start] on, each once, in order, with
    position and base hashes. *)
Theorem digest_stream pcs H P n S k' start' mh
  (Hs : size_t (size S)) (Hk : unsigned k') (Hst : size_t start')
  (Hmhi : int mh) (Hk4 : 4 <= k') (Hlt : start' < size S) (Hmh : mh <= 2)
  (Hcl : classifiable pcs S) (HT : size S < 2 ^ 63)
  (Hrolls : nthash_rolls H) (Hn : size S <= Z.of_nat n) :
  exists d,
    digest pcs H P n S k' start' mh
    = Returns (kmers_from H P S k' start' (Z.to_nat (size S - start')), d) /\
    is_valid_hash d = false.
Proof.
  destruct (Digester_new_returns pcs H P S k' start' mh
              Hs Hk Hst Hmhi Hk4 Hlt Hmh Hcl HT)
    as (d0 & Hnew & Ha & (E1 & E2 & E3 & E4 & E5 & E6) & Hfirst).
  unfold digest. rewrite Hnew. cbn [bind]. unfold emit.
  destruct (is_valid_hash d0) eqn:Hv.
  - destruct Hfirst as [Hle Hnone].
    destruct (appended_valid pcs H P S d0 Ha HT Hv) as (Hg & Hat & Hrep).
    rewrite E4 in Hat.
    pose proof (kmer_at_true _ _ _ _ Hat) as (_ & Hfit & _).
    destruct (rolls_stream pcs H P S n d0 Hrolls Ha HT
                ltac:(rewrite E1; exact Hcl) Hv ltac:(wrap_lia))
      as (d' & Hrest & Hv' & _).
    rewrite Hrest. cbn [bind fst snd]. exists d'. split; [| exact Hv'].
    rewrite (kmers_from_first H P S k' start' _ (position d0));
      try assumption; [| lia].
    rewrite (Hrep Hrolls), E4. repeat f_equal. lia.
  - exists d0. split; [| exact Hv].
    rewrite kmers_from_none by (intros i Hi; apply Hfirst; lia).
    reflexivity.
Qed.

Lemma digest_stream_witness :
  exists d,
    digest true RefHash.hash SKIPOVER 12 (bytes "ACTGNNACTGAC") 4 0 0
    = Returns (kmers_from RefHash.hash SKIPOVER (bytes "ACTGNNACTGAC") 4 0 12,
               d) /\
    is_valid_hash d = false /\
    map reported_pos
      (kmers_from RefHash.hash SKIPOVER (bytes "ACTGNNACTGAC") 4 0 12)
    = [0; 6; 7; 8].
Proof.
  destruct (digest_stream true RefHash.hash SKIPOVER 12 (bytes "ACTGNNACTGAC")
              4 0 0)
    as (d & Hd & Hv);
    [in_range | in_range | in_range | in_range | lia
    | vm_compute; reflexivity | lia | reflexivity
    | vm_compute; reflexivity | exact RefHash_rolls
    | vm_compute; discriminate |].
  exists d. split; [exact Hd |]. split; [exact Hv | reflexivity].
Defined.
(** [roll_one] on a valid cursor, after construction (or a [new_seq] that
    returned) and calls of [roll_one] and [append_seq] that returned, with
    no empty sequence appended to a valid cursor and fewer than 2^63 bytes
    given: if it returns true the cursor is on the next k-mer of the
    sequences given, at a greater position, and no k-mer starts in between;
    if it returns false the cursor is invalid and no k-mer starts after the
    position it had. *)
Theorem roll_one_next_kmer pcs H P T d b d'
  (Hrun : appended pcs H P T d) (Hsize : size T < 2 ^ 63)
  (Hvalid : is_valid_hash d = true)
  (Hroll : roll_one pcs H P d = Returns (b, d')) :
  is_valid_hash d' = b /\
  if b then
    get_pos d < get_pos d' /\
    kmer_at P T (k d) (get_pos d') = true /\
    forall q, get_pos d < q < get_pos d' -> kmer_at P T (k d) q = false
  else forall q, get_pos d < q -> kmer_at P T (k d) q = false.
Proof.
  pose proof (appended_well_formed pcs H P T d Hrun) as Hwf.
  pose proof (roll_one_well_formed pcs H P d Hwf) as Hw.
  rewrite Hroll in Hw. cbn [wp fst snd] in Hw.
  destruct Hw as (_ & Hv' & Hk' & _). split; [exact Hv' |].
  pose proof (roll_one_next pcs H P T d _ Hwf
                (appended_coherent pcs H P T d Hrun Hsize) Hsize Hvalid Hroll)
    as Hnext.
  unfold next_kmer in Hnext. cbn [fst snd] in Hnext.
  destruct (appended_valid pcs H P T d Hrun Hsize Hvalid) as (Hg & _).
  rewrite Hg. destruct b; [| exact Hnext].
  destruct (appended_valid pcs H P T d'
              (appended_roll pcs H P T d (true, d') Hrun Hroll) Hsize Hv')
    as (Hg' & Hat' & _).
  rewrite Hg'. rewrite Hk' in Hat'. destruct Hnext as [Hlt Hnone].
  split; [exact Hlt |]. split; [exact Hat' | exact Hnone].
Qed.

Lemma roll_one_next_kmer_witness :
  exists d d',
    Digester_of_string true RefHash.hash SKIPOVER (bytes "ACGTNACGTA") 4 0 0
      = Returns d /\
    roll_one true RefHash.hash SKIPOVER d = Returns (true, d') /\
    get_pos d = 0 /\ get_pos d' = 5 /\
    kmer_at SKIPOVER (bytes "ACGTNACGTA") 4 3 = false /\
    get_pos d < get_pos d' /\
    kmer_at SKIPOVER (bytes "ACGTNACGTA") (k d) (get_pos d') = true.
Proof.
  eexists. eexists.
  split; [vm_compute; reflexivity |].
  split; [vm_compute; reflexivity |].
  split; [reflexivity |]. split; [reflexivity |].
  match goal with
  | |- _ /\ get_pos ?d < get_pos ?d' /\ _ =>
      destruct (roll_one_next_kmer true RefHash.hash SKIPOVER
                  (bytes "ACGTNACGTA") d true d')
        as (_ & Hlt & Hat & Hnone)
  end.
  - eapply appended_new with (k' := 4) (start' := 0) (mh := 0);
      try in_range. vm_compute. reflexivity.
  - vm_compute. reflexivity.
  - reflexivity.
  - vm_compute. reflexivity.
  - split; [apply Hnone; vm_compute; split; reflexivity |].
    split; [exact Hlt | exact Hat].
Defined.
(** ** [append_seq] and [new_seq] *)

Lemma init_hash_post_frame H P d r :
  init_hash_post H P d r ->
  same_sequence d (snd r) /\ same_parameters d (snd r).
Proof.
  intros (p & _ & _ & _ & _ & Hres). destruct r as [b d'].
  cbn [fst snd] in *.
  destruct b; [destruct Hres as (_ & _ & ->) | destruct Hres as (_ & ->)];
    repeat split.
Qed.

Lemma append_seq_post_frame H P s d d' :
  append_seq_post H P s d d' ->
  seq d' = s /\ len d' = size s /\ offset d' = u64 (offset d + len d) /\
  same_parameters d d'.
Proof.
  intros (temp & d3 & _ & Hhead & _ & ->).
  destruct (append_popped_fields d)
    as (F1 & F2 & F3 & F4 & F5 & F6 & F7 & F8 & F9 & F10 & F11).
  assert (E : offset d3 = u64 (offset d + len d) /\ k d3 = k d /\
              minimized_h d3 = minimized_h d).
  { destruct Hhead as [(m & _ & _ & _ & _ & _ & ->)
                      | (_ & j & b & r & _ & _ & _ & _ & _ & Hpost & ->)].
    - unfold append_carried. fields. auto.
    - apply init_hash_post_frame in Hpost as ((_ & _ & E3) & (E4 & E5)).
      unfold append_carried in *. fields. rewrite E3, E4, E5. auto. }
  destruct E as (E1 & E2 & E3). unfold append_finished, same_parameters.
  destruct (_ =? _); fields; auto.
Qed.

(** [append_seq] on a cursor a client can hold that has rolled to the end
    of a non-empty sequence, where [is_ACTG] can classify the bytes of the
    old and of the new sequence: it returns; the cursor holds the new
    sequence, [offset] has grown by the length of the old one, and [k] and
    [minimized_h] are as before. *)
Theorem append_seq_defined pcs H P s d
  (Hr : reachable pcs H P d) (Hend : len d <= end_ d) (Hlen : 0 < len d)
  (Hsd : classifiable pcs (seq d)) (Hs : classifiable pcs s)
  (Hsz : size_t (size s)) (Hb : size s + k d < 2 ^ 64) :
  exists d',
    append_seq_string pcs H P s d = Returns (tt, d') /\
    seq d' = s /\ len d' = size s /\
    offset d' = u64 (offset d + len d) /\
    same_parameters d d'.
Proof.
  pose proof (reachable_well_formed pcs H P d Hr) as Hwf.
  destruct (wp_in_bounds _ _ (append_seq_wp pcs H P s d Hwf Hsz Hend)
              (in_bounds_append_seq pcs H P s d Hwf Hsd Hs Hlen Hb))
    as ([[] d'] & Happ & Hpost).
  exists d'. split; [exact Happ |].
  exact (append_seq_post_frame H P s d d' Hpost).
Qed.

Lemma append_seq_defined_witness :
  exists r d',
    digest true RefHash.hash SKIPOVER 10 (bytes "ACTGAC") 4 0 0 = Returns r /\
    append_seq_string true RefHash.hash SKIPOVER (bytes "CCGGNCCGG") (snd r)
      = Returns (tt, d') /\
    seq d' = bytes "CCGGNCCGG" /\ offset d' = 6 /\
    offset d' = u64 (offset (snd r) + len (snd r)).
Proof.
  eexists. eexists. split; [vm_compute; reflexivity |].
  match goal with
  | |- append_seq_string _ _ _ ?s ?d = _ /\ _ =>
      destruct (append_seq_defined true RefHash.hash SKIPOVER s d)
        as (d' & Happ & Hs' & _ & Hoff & _)
  end.
  - apply (appended_reachable true RefHash.hash SKIPOVER (bytes "ACTGAC")).
    eapply digest_appended with (n := 10%nat) (k' := 4) (start' := 0)
                                (mh := 0) (r := (_, _)); try in_range.
    vm_compute. reflexivity.
  - vm_compute. discriminate.
  - reflexivity.
  - reflexivity.
  - reflexivity.
  - in_range.
  - reflexivity.
  - pose proof Happ as Happ'. vm_compute in Happ'.
    injection Happ' as <-.
    split; [exact Happ |]. split; [reflexivity |].
    split; [reflexivity | exact Hoff].
Defined.
(** ** An invalid cursor has rolled to the end *)

Lemma init_hash_post_rolled_out H P d r :
  unsigned (k d) -> 0 <= start d <= len d -> len d + k d < 2 ^ 64 ->
  init_hash_post H P d r -> fst r = false ->
  len (snd r) < end_ (snd r).
Proof.
  intros Hk Hst Hb (p & Hp & _ & Hple & _ & Hres) Hf.
  rewrite Hf in Hres. destruct Hres as (Hgt & ->). fields.
  rewrite u64_small by wrap_lia. apply Hgt. wrap_lia.
Qed.

Lemma roll_one_rolled_out pcs H P d r :
  well_formed P d -> len d + k d < 2 ^ 64 ->
  (is_valid_hash d = false -> len d <= end_ d) ->
  roll_one pcs H P d = Returns r ->
  is_valid_hash (snd r) = false -> len (snd r) <= end_ (snd r).
Proof.
  intros (Hk & Hk4 & Hlen & Hsz & Hst & Hen & Hc & Hall & Hse & Hrn) Hb Hd.
  assert (Hinit : forall d3,
    seq d3 = seq d -> len d3 = len d -> k d3 = k d ->
    start d3 = u64 (end_ d + 1) -> end_ d3 = u64 (start d3 + k d3) ->
    end_ d < len d ->
    init_hash pcs H P d3 = Returns r ->
    is_valid_hash (snd r) = false -> len (snd r) <= end_ (snd r)).
  { intros d3 E1 E2 E3 E4 E5 Hlt Hr Hv.
    rewrite u64_small in E4 by wrap_lia.
    assert (Hw : wp (init_hash_post H P d3) (init_hash pcs H P d3)).
    { apply init_hash_wp; rewrite ?E1, ?E2, ?E3, ?E4; try assumption;
        [wrap_lia | rewrite <- E3, <- E4; exact E5]. }
    rewrite Hr in Hw. cbn [wp] in Hw.
    destruct (init_hash_post_well_formed H P d3 r) as (_ & Hvr & _);
      rewrite ?E1, ?E2, ?E3, ?E4; try assumption; [wrap_lia |].
    apply Z.lt_le_incl.
    apply (init_hash_post_rolled_out H P d3 r);
      rewrite ?E1, ?E2, ?E3, ?E4; try assumption; try wrap_lia.
    congruence. }
  unfold roll_one, roll_one_skip_over, roll_one_write_over.
  destruct (is_valid_hash d) eqn:Hv; cbn [negb].
  2:{ intros Hr _.
      assert (E : r = (false, d)) by (destruct P; congruence).
      subst r. apply Hd. reflexivity. }
  destruct (Z.leb_spec (len d) (end_ d)) as [Hge | Hlt].
  { intros Hr _.
    assert (E : r = (false, set_is_valid_hash false d))
      by (destruct P; congruence).
    subst r. exact Hge. }
  destruct P.
  - destruct (read (seq d) (end_ d)) as [c | |]; cbn [bind];
      try discriminate.
    destruct (or_A pcs c) as [a | |]; cbn [bind]; try discriminate.
    destruct (c_outs d) as [| front rest].
    + destruct (read (seq d) (start d)) as [o | |]; cbn [bind];
        try discriminate.
      destruct (or_A pcs o) as [oc | |]; cbn [bind]; try discriminate.
      destruct (next_hashes H d oc a) as [h | |]; cbn [bind];
        try discriminate.
      intros [= <-]. cbn [snd]. fields. congruence.
    + destruct (next_hashes H d front a) as [h | |]; cbn [bind];
        try discriminate.
      intros [= <-]. cbn [snd]. fields. congruence.
  - destruct (read (seq d) (end_ d)) as [c | |]; cbn [bind];
      try discriminate.
    destruct (is_ACTG pcs c) as [b | |]; cbn [bind]; try discriminate.
    destruct (c_outs d) as [| front rest]; destruct b.
    + destruct (read (seq d) (start d)) as [o | |]; cbn [bind];
        try discriminate.
      destruct (next_hashes H d o c) as [h | |]; cbn [bind];
        try discriminate.
      intros [= <-]. cbn [snd]. fields. congruence.
    + apply Hinit; fields; try reflexivity; assumption.
    + destruct (next_hashes H d front c) as [h | |]; cbn [bind];
        try discriminate.
      intros [= <-]. cbn [snd]. fields. congruence.
    + apply Hinit; fields; try reflexivity; assumption.
Qed.

Lemma append_seq_post_rolled_out H P s d d' :
  well_formed P d -> size_t (size s) -> size s + k d < 2 ^ 64 ->
  append_seq_post H P s d d' ->
  is_valid_hash d' = false -> len d' <= end_ d'.
Proof.
  intros Hwf Hs Hb (temp & d3 & Htail & Hhead & Hn3 & ->).
  destruct (append_popped_carry P d Hwf) as [Hpc Hpn].
  destruct (append_popped_fields d)
    as (F1 & F2 & F3 & F4 & F5 & F6 & F7 & F8 & F9 & F10 & F11).
  destruct Hwf as (Hk & Hk4 & Hlen & Hsz & Hst & Hen & Hc & Hall & Hse & Hrn).
  assert (Hts : size (c_outs (append_popped d)) + size temp <= k d - 1).
  { rewrite <- F5. apply (append_tail_post_size P);
      rewrite ?F1, ?F2, ?F5; assumption. }
  pose proof (size_nonneg s) as Hs0.
  destruct Hhead as [(m & Hm & Hle & Hsl & Hcap & Hstop & ->)
                    | (HP & j & b & r & Hj & Hsl & Hcap & Hrj & Hb' & Hpost & ->)].
  - unfold append_carried in *. fields. rewrite F5 in *.
    rewrite size_app, size_rev in *.
    unfold append_finished. fields. rewrite F5.
    rewrite !size_app, size_rev, size_map, slice_size by lia.
    destruct (Z.eqb_spec (size (c_outs (append_popped d)) + size temp + m)
                         (k d)); fields; [discriminate |].
    intros _. lia.
  - unfold append_carried in *. fields. rewrite F5 in *.
    match type of Hpost with
    | init_hash_post _ _ ?d0 _ => set (d4 := d0) in *
    end.
    assert (E : k d4 = k d /\ len d4 = size s /\ seq d4 = s /\
                start d4 = j + 1).
    { unfold d4. fields. rewrite F5. repeat split. }
    destruct E as (E1 & E2 & E3 & E4). clearbody d4.
    destruct (init_hash_post_well_formed H P d4 r)
      as (_ & Hvr & Hc3 & Hk3 & _ & Hl3 & _);
      rewrite ?E1, ?E2, ?E3, ?E4; try assumption; try reflexivity;
      try wrap_lia.
    unfold append_finished. rewrite Hc3.
    change (size (@nil byte)) with 0.
    destruct (Z.eqb_spec 0 (k (snd r))); [rewrite Hk3, E1 in *; lia |].
    fields. intros Hv.
    apply Z.lt_le_incl. rewrite <- E2, <- Hl3.
    apply (init_hash_post_rolled_out H P d4 r);
      rewrite ?E1, ?E2, ?E3, ?E4; try assumption; try wrap_lia.
    congruence.
Qed.
Lemma Digester_new_rolled_out pcs H P s k' start' mh d :
  size_t (size s) -> unsigned k' -> size_t start' -> size s < 2 ^ 63 ->
  Digester_of_string pcs H P s k' start' mh = Returns d ->
  is_valid_hash d = false -> len d <= end_ d.
Proof.
  intros Hs Hk Hst HT. unfold Digester_of_string, Digester_new.
  destruct (Z.ltb_spec k' 4) as [Hk4 | Hk4]; cbn [orb]; [discriminate |].
  destruct (Z.leb_spec (size s) start') as [Hle | Hlt]; cbn [orb];
    [discriminate |].
  destruct (2 <? mh); [discriminate |].
  set (d0 := mkDigester s (size s) 0 start' (u64 (start' + k')) 0 0 0 k' []
                        mh false).
  pose proof (init_hash_wp pcs H P d0 Hk Hk4 eq_refl Hs Hst eq_refl) as Hw.
  destruct (init_hash pcs H P d0) as [r | |] eqn:Hi; cbn [bind];
    try discriminate.
  intros [= <-] Hv. cbn [wp] in Hw.
  destruct (init_hash_post_well_formed H P d0 r Hk Hk4 eq_refl Hs Hst Hw)
    as (_ & Hvr & _).
  apply Z.lt_le_incl.
  apply (init_hash_post_rolled_out H P d0 r); try assumption;
    unfold d0; fields; try wrap_lia. congruence.
Qed.

Lemma new_seq_rolled_out pcs H P s pos d r :
  well_formed P d -> size_t (size s) -> size_t pos -> size s < 2 ^ 63 ->
  new_seq_string pcs H P s pos d = Returns r ->
  is_valid_hash (snd r) = false -> len (snd r) <= end_ (snd r).
Proof.
  intros Hwf Hs Hpos HT. unfold new_seq_string, new_seq.
  destruct Hwf as (Hk & Hk4 & _).
  set (d0 := set_is_valid_hash false _).
  assert (E : k d0 = k d /\ len d0 = size s /\ seq d0 = s /\ start d0 = pos
              /\ end_ d0 = u64 (start d0 + k d0))
    by (repeat split; reflexivity).
  destruct E as (Ek & El & Es & Est & Ee). clearbody d0.
  destruct (Z.leb_spec (size s) pos) as [Hle | Hlt]; [discriminate |].
  assert (Hw : wp (init_hash_post H P d0) (init_hash pcs H P d0)).
  { apply init_hash_wp; try assumption;
      rewrite ?Ek, ?El, ?Es, ?Est; auto. }
  destruct (init_hash pcs H P d0) as [r0 | |] eqn:Hi; cbn [bind];
    try discriminate.
  intros [= <-] Hv. cbn [wp snd] in *.
  destruct (init_hash_post_well_formed H P d0 r0) as (_ & Hvr & _);
    rewrite ?Ek, ?El, ?Es, ?Est; try assumption; try reflexivity.
  apply Z.lt_le_incl.
  apply (init_hash_post_rolled_out H P d0 r0);
    rewrite ?Ek, ?El, ?Es, ?Est; try assumption; try wrap_lia.
  congruence.
Qed.

Lemma appended_rolled_out pcs H P T d :
  appended pcs H P T d -> size T < 2 ^ 63 ->
  is_valid_hash d = false -> len d <= end_ d.
Proof.
  intros Ha.
  induction Ha as [s k' start' mh d Hs Hk Hst Hmh Hnew
                  | T d s pos r Ha IH Hs Hpos Hr
                  | T d r Ha IH Hr | T d s r Ha IH Hs Hproto Hr]; intros HT.
  - exact (Digester_new_rolled_out pcs H P s k' start' mh d Hs Hk Hst HT Hnew).
  - exact (new_seq_rolled_out pcs H P s pos d r
             (appended_well_formed pcs H P T d Ha) Hs Hpos HT Hr).
  - pose proof (appended_well_formed pcs H P T d Ha) as Hwf.
    destruct (appended_size pcs H P T d Ha HT) as [HsT Hoff].
    apply (roll_one_rolled_out pcs H P d r Hwf); auto.
    destruct Hwf as (Hk & _). wrap_lia.
  - pose proof (appended_well_formed pcs H P T d Ha) as Hwf.
    assert (HT0 : size T < 2 ^ 63).
    { rewrite size_app in HT. pose proof (size_nonneg s). lia. }
    assert (Hge : len d <= end_ d).
    { destruct (Z.ltb_spec (end_ d) (len d)) as [Hlt | Hge]; [| exact Hge].
      unfold append_seq_string, append_seq in Hr.
      destruct (Z.ltb_spec (end_ d) (len d)); [discriminate | lia]. }
    pose proof (append_seq_wp pcs H P s d Hwf Hs Hge) as Hw.
    unfold append_seq_string in Hr. rewrite Hr in Hw. cbn [wp] in Hw.
    apply (append_seq_post_rolled_out H P s d (snd r) Hwf Hs); [| exact Hw].
    rewrite size_app in HT. pose proof (size_nonneg T).
    destruct Hwf as (Hk & _). wrap_lia.
Qed.

(** An invalid cursor has rolled to the end: after construction (or a
    [new_seq] that returned) and calls of [roll_one] and [append_seq] that
    returned, fewer than 2^63 bytes given, an invalid cursor has
    [end >= len], and [append_seq] on it does not throw. *)
Theorem append_seq_accepts_invalid_cursor pcs H P T d s
  (Hrun : appended pcs H P T d) (HT : size T < 2 ^ 63)
  (Hinv : is_valid_hash d = false) :
  len d <= end_ d /\
  forall e d', append_seq_string pcs H P s d <> Throws e d'.
Proof.
  pose proof (appended_rolled_out pcs H P T d Hrun HT Hinv) as Hge.
  split; [exact Hge |].
  exact (no_throw_append_seq_past_guard pcs H P s (size s) d Hge).
Qed.

Lemma append_seq_accepts_invalid_cursor_witness :
  exists r,
    digest true RefHash.hash SKIPOVER 10 (bytes "ACTGNNAC") 4 0 0 = Returns r /\
    is_valid_hash (snd r) = false /\
    len (snd r) <= end_ (snd r) /\
    forall e d',
      append_seq_string true RefHash.hash SKIPOVER (bytes "TGA") (snd r)
      <> Throws e d'.
Proof.
  eexists. split; [vm_compute; reflexivity |]. split; [reflexivity |].
  match goal with
  | |- len ?d <= _ /\ _ =>
      apply (append_seq_accepts_invalid_cursor true RefHash.hash SKIPOVER
               (bytes "ACTGNNAC") d (bytes "TGA"))
  end.
  - eapply digest_appended with (n := 10%nat) (k' := 4) (start' := 0)
                                (mh := 0) (r := (_, _)); try in_range.
    vm_compute. reflexivity.
  - vm_compute. reflexivity.
  - reflexivity.
Defined.
(** ** [new_seq] starts over *)






(** ** The classification of bytes *)

(** [is_ACTG] on a byte whose [char] value is not negative (any byte where
    plain [char] is unsigned): the lookup is inside the table, and it
    returns true exactly for 'A', 'C', 'G', 'T', 'a', 'c', 'g', 't'. *)
Theorem is_ACTG_classifies pcs c (Hc : indexable pcs c = true) :
  exists b,
    is_ACTG pcs c = Returns b /\
    (b = true <-> In c (bytes "ACGTacgt")).
Proof.
  exists (nucleotide c). split; [exact (is_ACTG_indexable pcs c Hc) |].
  unfold nucleotide. rewrite existsb_exists. split.
  - intros (x & Hin & Heq). apply Byte.byte_dec_bl in Heq. subst x.
    exact Hin.
  - intros Hin. exists c. split; [exact Hin |].
    apply Byte.byte_dec_lb. reflexivity.
Qed.

Lemma is_ACTG_classifies_witness :
  exists b,
    is_ACTG true "g"%byte = Returns b /\
    (b = true <-> In "g"%byte (bytes "ACGTacgt")).
Proof.
  apply (is_ACTG_classifies true "g"%byte). reflexivity.
Defined.

Lemma write_over_substitution_witness :
  observe (digest true RefHash.hash WRITEOVER 12 (bytes "ACNGTTANNGTA") 4 1 0)
  = observe (digest true RefHash.hash SKIPOVER 12 (bytes "ACAGTTAAAGTA") 4 1 0).
Proof.
  change (bytes "ACAGTTAAAGTA") with (map written_over (bytes "ACNGTTANNGTA")).
  apply write_over_substitution; [in_range | in_range | in_range |].
  reflexivity.
Defined.
(** ** The k-mers of a longer sequence *)

Lemma blocked_kmer_at P T k q : blocked P T k q -> kmer_at P T k q = false.
Proof.
  intros (j & c & Hj & Hr & Hc).
  destruct (Z_lt_ge_dec q 0) as [Hq | Hq].
  - unfold kmer_at. destruct (Z.leb_spec 0 q); [lia | reflexivity].
  - apply (kmer_at_bad P T k q j c); [lia | exact Hj | exact Hr | exact Hc].
Qed.

Lemma blocked_app P T s k q : blocked P T k q -> blocked P (T ++ s) k q.
Proof.
  intros (j & c & Hj & Hr & Hc). exists j, c.
  split; [exact Hj |]. split; [| exact Hc].
  pose proof (proj1 (read_Returns T j c) Hr) as [Hjr _].
  rewrite read_app_l by lia. exact Hr.
Qed.

Lemma kmers_from_ext H P T T' k q n :
  (forall i, q <= i < q + Z.of_nat n ->
     kmer_at P T' k i = kmer_at P T k i /\
     (kmer_at P T k i = true ->
      kmer_tuple H P T' k i = kmer_tuple H P T k i)) ->
  kmers_from H P T' k q n = kmers_from H P T k q n.
Proof.
  revert q. induction n as [| n IH]; intros q Hq; cbn [kmers_from].
  - reflexivity.
  - destruct (Hq q ltac:(lia)) as [Hat Htu]. rewrite Hat.
    rewrite IH by (intros i Hi; apply Hq; lia).
    destruct (kmer_at P T k q); [rewrite Htu by reflexivity |];
      reflexivity.
Qed.

(** Below a settled frontier the k-mers of [T ++ s] are those of [T]. *)
Lemma kmers_from_settled H P T s k from f :
  0 <= k -> settled P T k from f ->
  kmers_from H P (T ++ s) k from (Z.to_nat (f - from))
  = kmers_from H P T k from (Z.to_nat (f - from)).
Proof.
  intros Hk Hset. apply kmers_from_ext. intros q Hq.
  destruct (Z_le_gt_dec (q + k) (size T)) as [Hfit | Hout].
  - destruct (Z_lt_ge_dec q 0) as [Hneg | Hpos].
    { unfold kmer_at. destruct (Z.leb_spec 0 q); [lia |].
      split; [reflexivity | discriminate]. }
    assert (Hsl : slice (view P (T ++ s)) q k = slice (view P T) q k).
    { rewrite view_app, slice_app_l by (rewrite ?view_size; lia).
      reflexivity. }
    unfold kmer_at, kmer_tuple. rewrite Hsl, size_app.
    pose proof (size_nonneg s).
    destruct (Z.leb_spec (q + k) (size T)); [| lia].
    destruct (Z.leb_spec (q + k) (size T + size s)); [| lia].
    split; reflexivity.
  - pose proof (Hset q ltac:(lia) ltac:(lia)) as Hb.
    rewrite (blocked_kmer_at P T k q Hb).
    rewrite (blocked_kmer_at P (T ++ s) k q (blocked_app P T s k q Hb)).
    split; [reflexivity | discriminate].
Qed.

Lemma kmers_from_blocked H P T k q n :
  (forall i, q <= i < q + Z.of_nat n -> blocked P T k i) ->
  kmers_from H P T k q n = [].
Proof.
  intros Hb. apply kmers_from_none. intros i Hi.
  apply blocked_kmer_at. apply Hb. exact Hi.
Qed.

Lemma settled_app P T s k from f f' :
  settled P T k from f -> f <= f' ->
  (forall q, f <= q < f' -> blocked P (T ++ s) k q) ->
  settled P (T ++ s) k from f'.
Proof.
  intros Hset Hle Hb q Hq Hout.
  destruct (Z_lt_ge_dec q f) as [Hlt | Hge].
  - apply blocked_app. apply Hset; [lia |].
    rewrite size_app in Hout. pose proof (size_nonneg s). lia.
  - apply Hb. lia.
Qed.
(** ** The frontier of a cursor that has rolled to the end *)

Lemma init_hash_post_blocked H P T d r :
  unsigned (k d) -> 4 <= k d -> len d = size (seq d) ->
  0 <= start d <= len d ->
  (exists pre, T = pre ++ seq d /\ size pre = offset d) ->
  size T < 2 ^ 63 ->
  init_hash_post H P d r ->
  offset d + start d <= position (snd r) /\
  (forall q, offset d + start d <= q < position (snd r) ->
             blocked P T (k d) q) /\
  (fst r = false ->
   frontier (snd r) = position (snd r) /\
   size T - k d < position (snd r)).
Proof.
  intros Hk Hk4 Hlen Hst (pre & HTe & Hoff) HT
         (p & Hp & HPw & Hple & Hskip & Hres).
  assert (HsT : size T = offset d + len d).
  { rewrite HTe, size_app. lia. }
  pose proof (size_nonneg pre) as Hoff0.
  assert (Hpos : position (snd r) = offset d + p).
  { destruct r as [b d']. cbn [fst snd] in *.
    destruct b; [destruct Hres as (_ & _ & ->) | destruct Hres as (_ & ->)];
      unfold position; fields; change (size (@nil byte)) with 0; lia. }
  rewrite Hpos. split; [lia |]. split.
  - intros q Hq. destruct P; [specialize (HPw eq_refl); lia |].
    destruct (Hskip (q - offset d) ltac:(lia)) as (j & c & Hj & _ & Hrj & Hc).
    exists (offset d + j), c. split; [lia |]. split; [| exact Hc].
    rewrite HTe, <- Hoff. rewrite read_tail by lia. exact Hrj.
  - intros Hf. rewrite Hf in Hres. destruct Hres as (Hgt & Hr).
    specialize (Hgt ltac:(wrap_lia)). split; [| lia].
    rewrite <- Hpos. rewrite Hr. unfold frontier, position. fields.
    rewrite (u64_small (p + k d)) by wrap_lia.
    destruct (Z.leb_spec (p + k d) (len d)); [lia | reflexivity].
Qed.

Lemma roll_one_frontier pcs H P T d r :
  well_formed P d -> coherent H P T d -> size T < 2 ^ 63 ->
  is_valid_hash d = true ->
  roll_one pcs H P d = Returns r -> fst r = false ->
  position d + 1 <= frontier (snd r) /\
  (forall q, position d + 1 <= q < frontier (snd r) ->
             blocked P T (k d) q) /\
  size T - k d < frontier (snd r).
Proof.
  intros Hwf [Hpre Hshape] HT Hv.
  destruct Hwf as (Hk & Hk4 & Hlen & Hsz & Hst & Hen & Hc & Hall & Hse & Hrn).
  destruct Hshape as [(Hp & He & Hle & Hn & Hkm & Hco & Hh)
                     | [(Hf & _) | (Hf & _)]]; try congruence.
  pose proof Hpre as (pre & HTe & Hoff).
  assert (HsT : size T = offset d + len d).
  { rewrite HTe, size_app. lia. }
  pose proof (size_nonneg pre) as Hoff0.
  pose proof (size_nonneg (c_outs d)) as Hn0.
  assert (Hpe : position d = offset d + end_ d - k d)
    by (unfold position; lia).
  unfold roll_one, roll_one_skip_over, roll_one_write_over. rewrite Hv.
  cbn [negb].
  destruct (Z.leb_spec (len d) (end_ d)) as [Hge | Hlt].
  { intros Hr _.
    assert (Hr' : r = (false, set_is_valid_hash false d))
      by (destruct P; congruence).
    subst r. cbn [snd].
    assert (Hfr : frontier (set_is_valid_hash false d) = position d + 1).
    { unfold frontier, position. fields.
      destruct (Z.leb_spec (end_ d) (len d)); [| lia].
      destruct (Z.eqb_spec (size (c_outs d) + (end_ d - start d)) (k d));
        [reflexivity | lia]. }
    rewrite Hfr. split; [lia |]. split; [intros q Hq; lia | lia]. }
  assert (Hinit : forall d3 c,
    read (seq d) (end_ d) = Returns c -> nucleotide c = false ->
    P = SKIPOVER ->
    seq d3 = seq d -> len d3 = len d -> offset d3 = offset d -> k d3 = k d ->
    start d3 = u64 (end_ d + 1) -> end_ d3 = u64 (start d3 + k d3) ->
    init_hash pcs H P d3 = Returns r -> fst r = false ->
    position d + 1 <= frontier (snd r) /\
    (forall q, position d + 1 <= q < frontier (snd r) ->
               blocked P T (k d) q) /\
    size T - k d < frontier (snd r)).
  { intros d3 c Hrc Hnc HP E1 E2 E3 E4 E5 E6 Hr Hf.
    rewrite u64_small in E5 by wrap_lia.
    assert (Hw : wp (init_hash_post H P d3) (init_hash pcs H P d3)).
    { apply init_hash_wp; rewrite ?E1, ?E2, ?E4, ?E5; try assumption;
        [wrap_lia | rewrite <- E4, <- E5; exact E6]. }
    rewrite Hr in Hw. cbn [wp] in Hw.
    destruct (init_hash_post_blocked H P T d3 r) as (Hle3 & Hb3 & Hf3);
      rewrite ?E1, ?E2, ?E3, ?E4, ?E5; try assumption; [wrap_lia |].
    destruct (Hf3 Hf) as [-> Hout].
    rewrite E3, E4, E5 in *.
    split; [lia |]. split; [| exact Hout].
    intros q Hq.
    destruct (Z_le_gt_dec q (offset d + end_ d)) as [Hq' | Hq'];
      [| apply Hb3; lia].
    exists (offset d + end_ d), c. split; [lia |].
    split; [| subst P; exact Hnc].
    rewrite HTe, <- Hoff. rewrite read_tail by wrap_lia. exact Hrc. }
  destruct P.
  - destruct (read (seq d) (end_ d)) as [c | |]; cbn [bind];
      try discriminate.
    destruct (or_A pcs c) as [a | |]; cbn [bind]; try discriminate.
    destruct (c_outs d) as [| front rest].
    + destruct (read (seq d) (start d)) as [o | |]; cbn [bind];
        try discriminate.
      destruct (or_A pcs o) as [oc | |]; cbn [bind]; try discriminate.
      destruct (next_hashes H d oc a) as [h | |]; cbn [bind];
        try discriminate.
      intros [= <-]. discriminate.
    + destruct (next_hashes H d front a) as [h | |]; cbn [bind];
        try discriminate.
      intros [= <-]. discriminate.
  - destruct (read (seq d) (end_ d)) as [c | |] eqn:Hrc; cbn [bind];
      try discriminate.
    destruct (is_ACTG pcs c) as [b | |] eqn:Hb; cbn [bind];
      try discriminate.
    apply is_ACTG_sound in Hb. subst b.
    destruct (c_outs d) as [| front rest] eqn:Hco';
      destruct (nucleotide c) eqn:Hnc.
    + destruct (read (seq d) (start d)) as [o | |]; cbn [bind];
        try discriminate.
      destruct (next_hashes H d o c) as [h | |]; cbn [bind];
        try discriminate.
      intros [= <-]. discriminate.
    + apply (Hinit _ c); fields; try reflexivity; assumption.
    + destruct (next_hashes H d front c) as [h | |]; cbn [bind];
        try discriminate.
      intros [= <-]. discriminate.
    + apply (Hinit _ c); fields; try reflexivity; assumption.
Qed.

Lemma rolls_frontier pcs H P T n d r :
  appended pcs H P T d -> size T < 2 ^ 63 -> is_valid_hash d = true ->
  rolls pcs H P n d = Returns r -> is_valid_hash (snd r) = false ->
  position d + 1 <= frontier (snd r) /\
  size T - k d < frontier (snd r) /\
  settled P T (k d) (position d + 1) (frontier (snd r)).
Proof.
  revert d r. induction n as [| n IH]; intros d r Ha HT Hv; cbn [rolls].
  - intros [= <-] Hv'. cbn [snd] in Hv'. congruence.
  - pose proof (appended_well_formed pcs H P T d Ha) as Hwf.
    pose proof (appended_coherent pcs H P T d Ha HT) as Hcoh.
    destruct (roll_one pcs H P d) as [[b d1] | |] eqn:Hroll; cbn [bind];
      try discriminate.
    pose proof (appended_roll pcs H P T d _ Ha Hroll) as Ha1.
    pose proof (roll_one_well_formed pcs H P d Hwf) as Hw.
    rewrite Hroll in Hw. cbn [wp fst snd] in *.
    destruct Hw as (_ & Hv1 & Hk1 & _).
    destruct b.
    + destruct (rolls pcs H P n d1) as [r1 | |] eqn:Hrest; cbn [bind];
        try discriminate.
      intros [= <-] Hv'. cbn [snd] in *.
      destruct (IH d1 r1 Ha1 HT Hv1 Hrest Hv') as (Hle & Hout & Hset).
      pose proof (roll_one_next pcs H P T d _ Hwf Hcoh HT Hv Hroll) as Hnext.
      unfold next_kmer in Hnext. cbn [fst snd] in Hnext.
      destruct Hnext as [Hlt _].
      destruct (appended_valid pcs H P T d1 Ha1 HT Hv1) as (_ & Hat1 & _).
      apply kmer_at_true in Hat1 as (_ & Hfit & _).
      rewrite Hk1 in *.
      split; [lia |]. split; [exact Hout |].
      intros q Hq Hqout.
      destruct (Z_le_gt_dec q (position d1)); [lia |].
      apply Hset; lia.
    + intros [= <-] _. cbn [snd].
      destruct (roll_one_frontier pcs H P T d _ Hwf Hcoh HT Hv Hroll eq_refl)
        as (Hle & Hb & Hout).
      cbn [snd] in *. split; [exact Hle |]. split; [exact Hout |].
      intros q Hq _. apply Hb. exact Hq.
Qed.
(** The carry [append_seq] takes from the old sequence starts at the
    frontier, or the positions between are blocked. *)
Lemma carried_frontier H P T d temp :
  well_formed P d -> coherent H P T d -> len d <= end_ d ->
  size T < 2 ^ 63 ->
  append_tail_post P (append_popped d) temp ->
  let c1 := c_outs (append_popped d) ++ rev temp in
  frontier d <= size T - size c1 /\
  forall q, frontier d <= q < size T - size c1 -> blocked P T (k d) q.
Proof.
  intros Hwf [Hpre Hshape] Hge HT (j & Hj & Hjs & -> & Hjn & Hcap & Hmax).
  destruct (append_popped_carry P d Hwf) as [Hpc Hpn].
  destruct (append_popped_fields d)
    as (F1 & F2 & F3 & F4 & F5 & F6 & F7 & F8 & F9 & F10 & F11).
  destruct Hwf as (Hk & Hk4 & Hlen & Hsz & Hst & Hen & Hc & Hall & Hse & Hrn).
  rewrite F1, F2, F3, F5 in *. specialize (Hcap Hpc).
  rewrite rev_involutive.
  destruct Hpre as (pre & HTe & Hoff).
  assert (HsT : size T = offset d + len d).
  { rewrite HTe, size_app. lia. }
  pose proof (size_nonneg pre) as Hoff0.
  pose proof (size_nonneg (c_outs d)) as Hn0.
  pose proof (size_nonneg (c_outs (append_popped d))) as Hn1.
  assert (Hts : size (map written_over (slice (seq d) j (len d - j)))
                = len d - j).
  { rewrite size_map. apply slice_size; lia. }
  cbv zeta. rewrite size_app, Hts.
  (* a non-ACTG byte just before the carry blocks what reaches it *)
  assert (Hbad : forall q, P = SKIPOVER ->
            (exists b, read (seq d) (j - 1) = Returns b /\
                       nucleotide b = false) ->
            q <= offset d + (j - 1) < q + k d -> blocked P T (k d) q).
  { intros q HP (b & Hb & Hbn) Hq. exists (offset d + (j - 1)), b.
    split; [exact Hq |]. split; [| subst P; exact Hbn].
    pose proof (proj1 (read_Returns _ _ _) Hb) as [Hjr _].
    rewrite HTe, <- Hoff. rewrite read_tail by lia. exact Hb. }
  destruct Hshape as [(Hp & He & Hle & Hn & Hkm & Hco & Hh)
                     | [(Hf & Hc0 & He & Hlt & Hsl)
                       | (Hf & Hn & Hs & He & Hp & Hco & Hcn)]].
  - (* it holds a k-mer *)
    assert (Hel : end_ d = len d) by lia.
    assert (Hpop : c_outs (append_popped d) = tl (c_outs d)).
    { unfold append_popped. fields.
      destruct (Z.eqb_spec (start d) (end_ d)) as [E | E];
        destruct (Z.eqb_spec (size (c_outs d)) (k d)) as [E' | E'];
        destruct (Z.ltb_spec 0 (size (c_outs d))) as [E'' | E''];
        cbn [negb orb andb]; fields; try reflexivity;
        try (rewrite (size_zero_nil (c_outs d)) by lia; reflexivity). }
    assert (Hps : size (tl (c_outs d)) = Z.max 0 (size (c_outs d) - 1)).
    { destruct (c_outs d) as [| y l]; cbn [tl]; rewrite ?size_cons;
        change (size (@nil byte)) with 0; [lia |].
      pose proof (size_nonneg l). lia. }
    rewrite Hpop in *.
    assert (Hrange : P = SKIPOVER -> forall i b,
              start d <= i < len d -> read (seq d) i = Returns b ->
              nucleotide b = true).
    { intros -> i b Hi Hb. cbn [view] in Hkm.
      apply (forallb_slice_elim nucleotide T (position d) (k d) (offset d + i));
        try assumption; [unfold position; lia |].
      rewrite HTe, <- Hoff. rewrite read_tail by wrap_lia. exact Hb. }
    assert (Hfull : len d - j + size (tl (c_outs d)) = k d - 1).
    { destruct Hmax as [Hm | [Hm | (HP & b & Hb & Hbn)]]; [lia | lia |].
      destruct (Z_le_gt_dec j (start d)); [lia |].
      rewrite (Hrange HP (j - 1) b) in Hbn; [discriminate | lia | assumption]. }
    assert (Hfr : frontier d = position d + 1).
    { unfold frontier.
      destruct (Z.leb_spec (end_ d) (len d)); [| lia].
      destruct (Z.eqb_spec (size (c_outs d) + (end_ d - start d)) (k d));
        [reflexivity | lia]. }
    rewrite Hfr. unfold position. split; [lia | intros q Hq; lia].
  - (* init_hash had failed *)
    assert (Hnil : c_outs (append_popped d) = []).
    { unfold append_popped. fields.
      replace (0 <? size (c_outs d)) with false
        by (rewrite Hc0; reflexivity).
      rewrite andb_false_r. fields. exact Hc0. }
    rewrite Hnil in *. change (size (@nil byte)) with 0 in *.
    assert (Hfr : frontier d = offset d + start d).
    { unfold frontier, position. rewrite Hc0.
      change (size (@nil byte)) with 0.
      destruct (Z.leb_spec (end_ d) (len d)); [lia |]. cbn [andb]. lia. }
    rewrite Hfr. split; [lia |]. intros q Hq.
    destruct Hmax as [Hm | [Hm | (HP & Hb)]]; [lia | lia |].
    apply (Hbad q HP Hb). lia.
  - (* it holds a short carry *)
    assert (Hsame : c_outs (append_popped d) = c_outs d).
    { unfold append_popped. fields.
      destruct (Z.eqb_spec (start d) (end_ d)) as [E | E]; [| lia].
      destruct (Z.eqb_spec (size (c_outs d)) (k d)) as [E' | E']; [lia |].
      reflexivity. }
    rewrite Hsame in *.
    assert (j = len d) by lia. subst j.
    assert (Hfr : frontier d = position d).
    { unfold frontier.
      destruct (Z.eqb_spec (size (c_outs d) + (end_ d - start d)) (k d));
        [lia |]. rewrite andb_false_r. reflexivity. }
    rewrite Hfr. unfold position. split; [lia | intros q Hq; lia].
Qed.
(** [append_seq] on an invalid cursor: the cursor it leaves is on the first
    k-mer at or after the frontier, or has a frontier beyond which no k-mer
    fits; the positions passed over are blocked. *)
Lemma append_seq_post_frontier H P T s d d2 :
  well_formed P d -> coherent H P T d -> len d <= end_ d ->
  is_valid_hash d = false ->
  size_t (size s) -> size (T ++ s) < 2 ^ 63 ->
  append_seq_post H P s d d2 ->
  let F := if is_valid_hash d2 then position d2 else frontier d2 in
  frontier d <= F /\
  (forall q, frontier d <= q < F -> blocked P (T ++ s) (k d) q) /\
  (is_valid_hash d2 = false -> size (T ++ s) - k d < F).
Proof.
  intros Hwf Hcoh Hge Hinv Hs HT Hpost.
  assert (HT0 : size T < 2 ^ 63).
  { rewrite size_app in HT. pose proof (size_nonneg s). lia. }
  destruct Hpost as (temp & d3 & Htail & Hhead & Hn3 & ->).
  destruct (carried_suffix H P T d temp Hwf Hcoh Hge HT0 Htail)
    as (Hc1 & Hc1k & Hc1T & Hc1n & _).
  destruct (carried_frontier H P T d temp Hwf Hcoh Hge HT0 Htail)
    as (Hfr1 & Hb1).
  destruct (append_popped_fields d)
    as (F1 & F2 & F3 & F4 & F5 & F6 & F7 & F8 & F9 & F10 & F11).
  destruct Hcoh as [Hpre _].
  destruct Hwf as (Hk & Hk4 & Hlen & Hsz & Hst & Hen & Hc & Hall & Hse & Hrn).
  assert (HsT : size T = offset d + len d).
  { destruct Hpre as (pre & -> & <-). rewrite size_app. lia. }
  assert (Hoff : 0 <= offset d).
  { destruct Hpre as (pre & _ & <-). apply size_nonneg. }
  assert (Hoff' : u64 (offset d + len d) = size T) by wrap_lia.
  set (c1 := c_outs (append_popped d) ++ rev temp) in *.
  pose proof (size_nonneg c1) as Hc10.
  pose proof (size_nonneg s) as Hs0.
  assert (HsTs : size (T ++ s) = size T + size s) by apply size_app.
  unfold append_carried in Hhead. fold c1 in Hhead. clearbody c1.
  assert (Hb1' : forall q, frontier d <= q < size T - size c1 ->
                           blocked P (T ++ s) (k d) q).
  { intros q Hq. apply blocked_app. apply Hb1. exact Hq. }
  destruct Hhead as [(m & Hm & Hle & Hsl & Hcap & Hstop & ->)
                    | (HP & j & b & r & Hj & Hsl & Hcap & Hrj & Hb & Hpost & ->)].
  - (* the head of the new sequence was moved to the carry *)
    fields. rewrite F5 in *.
    assert (Hc3s : size (c1 ++ map written_over (slice s 0 m)) = size c1 + m).
    { rewrite size_app, size_map, slice_size by lia. reflexivity. }
    unfold append_finished. fields. rewrite F5, Hc3s.
    destruct (Z.eqb_spec (size c1 + m) (k d)) as [E | E]; cbv zeta; fields.
    + unfold position. fields. rewrite F7, Hoff', Hc3s, Z.add_0_l.
      split; [lia |]. split; [| discriminate].
      intros q Hq. apply Hb1'. lia.
    + rewrite F6, Hinv.
      assert (Hmm : m = size s /\ size c1 + m < k d) by lia.
      assert (Hfr : frontier
                (set_seq s (size s)
                   (set_end (0 + m) (set_start (0 + m)
                      (set_c_outs (c1 ++ map written_over (slice s 0 m))
                         (set_end 0 (set_start 0
                            (set_c_outs c1 (append_popped d))))))))
              = size T - size c1).
      { unfold frontier, position. fields.
        rewrite F5, F7, Hoff', Hc3s, Z.add_0_l, Z.sub_diag, Z.add_0_r.
        destruct (Z.eqb_spec (size c1 + m) (k d)); [lia |].
        rewrite andb_false_r. lia. }
      rewrite Hfr. split; [lia |]. split; [| intros _; lia].
      intros q Hq. apply Hb1'. lia.
  - (* SKIPOVER met a non-ACTG byte and reinitialised *)
    fields. rewrite F5 in *.
    match type of Hpost with
    | init_hash_post _ _ ?d0 _ => set (d4 := d0) in *
    end.
    assert (E : k d4 = k d /\ len d4 = size s /\ seq d4 = s /\
                start d4 = j + 1 /\ offset d4 = size T).
    { unfold d4. fields. rewrite F5, F7. repeat split. exact Hoff'. }
    destruct E as (E1 & E2 & E3 & E4 & E5). clearbody d4.
    destruct (init_hash_post_well_formed H P d4 r)
      as (_ & Hvr & Hc3 & Hk3 & Hs3 & Hl3 & _);
      rewrite ?E1, ?E2, ?E3, ?E4; try assumption; try reflexivity;
      try wrap_lia.
    destruct (init_hash_post_blocked H P (T ++ s) d4 r)
      as (Hle4 & Hb4 & Hf4);
      rewrite ?E1, ?E2, ?E3, ?E4, ?E5; try assumption; try reflexivity;
      try wrap_lia.
    { exists T. split; reflexivity. }
    rewrite E1, E4, E5 in *.
    unfold append_finished. rewrite Hc3.
    change (size (@nil byte)) with 0.
    destruct (Z.eqb_spec 0 (k (snd r))); [rewrite Hk3 in *; lia |].
    assert (Hsame : set_seq s (size s) (snd r) = snd r).
    { rewrite <- E2, <- Hl3, <- E3, <- Hs3. apply set_seq_same. }
    rewrite Hsame. cbv zeta.
    assert (HF : (if is_valid_hash (snd r) then position (snd r)
                  else frontier (snd r)) = position (snd r)).
    { rewrite Hvr. destruct (fst r) eqn:Hf; [reflexivity |].
      exact (proj1 (Hf4 eq_refl)). }
    rewrite HF. split; [lia |]. split.
    + intros q Hq.
      destruct (Z_lt_ge_dec q (size T - size c1)); [apply Hb1'; lia |].
      destruct (Z_le_gt_dec q (size T + j)); [| apply Hb4; lia].
      exists (size T + j), b. split; [lia |].
      split; [| subst P; exact Hb].
      rewrite read_tail by lia. exact Hrj.
    + rewrite Hvr. intros Hf. exact (proj2 (Hf4 Hf)).
Qed.
(** ** The stream across [append_seq] *)

Lemma kmers_from_split H P T k a b c :
  a <= b <= c ->
  kmers_from H P T k a (Z.to_nat (c - a))
  = kmers_from H P T k a (Z.to_nat (b - a))
    ++ kmers_from H P T k b (Z.to_nat (c - b)).
Proof.
  intros Hab.
  replace (Z.to_nat (c - a)) with (Z.to_nat (b - a) + Z.to_nat (c - b))%nat
    by lia.
  rewrite kmers_from_app. repeat f_equal. lia.
Qed.

(** No k-mer starts within [k] of the end of [T]. *)
Lemma kmers_from_beyond H P T k from f :
  0 < k -> from <= f -> size T - k < f ->
  kmers_from H P T k from (Z.to_nat (f - from))
  = kmers_from H P T k from (Z.to_nat (size T - from)).
Proof.
  intros Hk Hle Hf.
  destruct (Z_le_gt_dec f (size T)) as [Hin | Hout].
  - rewrite (kmers_from_split H P T k from f (size T)) by lia.
    rewrite (kmers_from_none H P T k f), app_nil_r; [reflexivity |].
    intros i Hi. apply kmer_at_outside. lia.
  - destruct (Z_le_gt_dec from (size T)) as [Hfrom | Hfrom].
    + rewrite (kmers_from_split H P T k from (size T) f) by lia.
      rewrite (kmers_from_none H P T k (size T)), app_nil_r; [reflexivity |].
      intros i Hi. apply kmer_at_outside. lia.
    + replace (Z.to_nat (size T - from)) with 0%nat by lia.
      cbn [kmers_from]. apply kmers_from_none.
      intros i Hi. apply kmer_at_outside. lia.
Qed.

(** Construction leaves a cursor that has read from [start]. *)
Lemma Digester_new_streamed pcs H P s k' start' mh :
  size_t (size s) -> unsigned k' -> size_t start' -> int mh ->
  4 <= k' -> start' < size s -> mh <= 2 ->
  classifiable pcs s -> size s < 2 ^ 63 ->
  exists d,
    Digester_of_string pcs H P s k' start' mh = Returns d /\
    streamed pcs H P s k' start' s ([], d).
Proof.
  intros Hs Hk Hst Hmhi Hk4 Hlt Hmh Hcl HT.
  unfold Digester_of_string, Digester_new.
  destruct (Z.ltb_spec k' 4); [lia |].
  destruct (Z.leb_spec (size s) start'); [lia |].
  destruct (Z.ltb_spec 2 mh); [lia |]. cbn [orb].
  set (d0 := mkDigester s (size s) 0 start' (u64 (start' + k')) 0 0 0 k' []
                        mh false).
  assert (Hin : in_bounds (init_hash pcs H P d0)).
  { apply in_bounds_init_hash; unfold d0; fields; try assumption;
      try reflexivity; wrap_lia. }
  destruct (wp_in_bounds _ _
              (init_hash_wp pcs H P d0 Hk Hk4 eq_refl Hs Hst eq_refl) Hin)
    as (r & Hr & Hpost).
  rewrite Hr. cbn [bind]. exists (snd r). split; [reflexivity |].
  assert (Hnew : Digester_of_string pcs H P s k' start' mh = Returns (snd r)).
  { unfold Digester_of_string, Digester_new.
    destruct (Z.ltb_spec k' 4); [lia |].
    destruct (Z.leb_spec (size s) start'); [lia |].
    destruct (Z.ltb_spec 2 mh); [lia |]. cbn [orb].
    fold d0. rewrite Hr. reflexivity. }
  destruct (init_hash_frame pcs H P d0 r Hr)
    as ((E1 & E2 & E3) & (E4 & E5) & E6).
  pose proof (init_hash_post_blocked H P s d0 r Hk Hk4 eq_refl
                ltac:(unfold d0; fields; wrap_lia)
                ltac:(exists []; split; reflexivity) HT Hpost)
    as (Hle & Hb & Hf).
  destruct (init_hash_post_well_formed H P d0 r Hk Hk4 eq_refl Hs Hst Hpost)
    as (_ & Hv & _).
  unfold d0 in Hle, Hb, Hf. fields.
  rewrite Z.add_0_l in Hle, Hb.
  assert (HF : reached (snd r) = position (snd r)).
  { unfold reached. rewrite Hv. destruct (fst r); [reflexivity |].
    exact (proj1 (Hf eq_refl)). }
  unfold streamed. cbn [fst snd]. rewrite HF.
  split; [apply (appended_new pcs H P s k' start' mh); assumption |].
  split; [exact E4 |]. split; [exact E1 |]. split; [exact Hle |].
  split; [intros q Hq _; apply Hb; exact Hq |].
  split; [rewrite Hv; intros Hfalse; exact (proj2 (Hf Hfalse)) |].
  symmetry. apply kmers_from_blocked. intros i Hi. apply Hb. lia.
Qed.
(** Reading a cursor to its end leaves it invalid, with every k-mer of the
    sequences given read. *)
Lemma emit_streamed pcs H P T k0 from sp n l d :
  nthash_rolls H -> streamed pcs H P T k0 from sp (l, d) ->
  size T < 2 ^ 63 -> classifiable pcs sp -> size T <= Z.of_nat n ->
  exists r,
    emit pcs H P n d = Returns r /\
    is_valid_hash (snd r) = false /\
    streamed pcs H P T k0 from sp (l ++ fst r, snd r).
Proof.
  intros Hrolls (Ha & Hk & Hsp & Hle & Hset & Hend & Hl) HT Hcl Hn.
  cbn [fst snd] in *. unfold emit, reached in *.
  destruct (is_valid_hash d) eqn:Hv.
  - destruct (appended_valid pcs H P T d Ha HT Hv) as (Hg & Hat & Hrep).
    pose proof (kmer_at_true _ _ _ _ Hat) as (Hp0 & Hfit & _).
    destruct (appended_well_formed pcs H P T d Ha) as (_ & Hk4 & _).
    destruct (rolls_stream pcs H P T n d Hrolls Ha HT
                ltac:(rewrite Hsp; exact Hcl) Hv ltac:(lia))
      as (d' & Hrest & Hv' & Ha' & Hs' & Hk').
    pose proof (rolls_frontier pcs H P T n d _ Ha HT Hv Hrest Hv')
      as (Hf1 & Hf2 & Hf3).
    cbn [snd] in Hf1, Hf2, Hf3.
    rewrite Hrest. cbn [bind fst snd]. eexists. split; [reflexivity |].
    cbn [fst snd]. split; [exact Hv' |].
    unfold streamed. cbn [fst snd]. unfold reached. rewrite Hv'.
    split; [exact Ha' |]. split; [congruence |]. split; [congruence |].
    split; [lia |]. rewrite Hk in *. split.
    { intros q Hq Hout.
      destruct (Z_lt_ge_dec q (position d + 1)); [| apply Hf3; lia].
      destruct (Z_lt_ge_dec q (position d)); [apply Hset; lia | lia]. }
    split; [intros _; exact Hf2 |].
    rewrite (kmers_from_split H P T k0 from (position d) (frontier d'))
      by lia.
    rewrite <- Hl. f_equal.
    rewrite (kmers_from_split H P T k0 (position d) (position d + 1)
               (frontier d')) by lia.
    replace (Z.to_nat (position d + 1 - position d)) with 1%nat by lia.
    cbn [kmers_from]. rewrite Hat, app_nil_r. cbn [app].
    rewrite (Hrep Hrolls). f_equal.
    rewrite (kmers_from_beyond H P T k0 (position d + 1) (frontier d'))
      by lia.
    f_equal. lia.
  - exists ([], d). split; [reflexivity |]. cbn [fst snd].
    split; [exact Hv |].
    unfold streamed. cbn [fst snd]. unfold reached. rewrite Hv, app_nil_r.
    repeat split; assumption.
Qed.

(** [append_seq] on a cursor read to its end: the cursor has then read
    the sequences given, the appended one among them, as far as the first
    k-mer not read, or as far as a k-mer can start. *)
Lemma append_seq_streamed pcs H P T k0 from sp s l d :
  streamed pcs H P T k0 from sp (l, d) -> is_valid_hash d = false ->
  sp <> [] -> classifiable pcs sp -> classifiable pcs s ->
  size (T ++ s) < 2 ^ 63 ->
  exists d2,
    append_seq_string pcs H P s d = Returns (tt, d2) /\
    streamed pcs H P (T ++ s) k0 from s (l, d2).
Proof.
  intros (Ha & Hk & Hsp & Hle & Hset & Hend & Hl) Hv Hne Hclp Hcl HT.
  cbn [fst snd] in *. unfold reached in *. rewrite Hv in *.
  specialize (Hend eq_refl).
  pose proof (size_nonneg s) as Hs0. pose proof (size_nonneg T) as HT0.
  assert (HTs : size (T ++ s) = size T + size s) by apply size_app.
  assert (HT' : size T < 2 ^ 63) by lia.
  assert (Hs : size_t (size s)) by (unfold size_t; lia).
  pose proof (appended_well_formed pcs H P T d Ha) as Hwf.
  pose proof (appended_coherent pcs H P T d Ha HT') as Hcoh.
  pose proof (appended_rolled_out pcs H P T d Ha HT' Hv) as Hge.
  assert (Hlen : 0 < len d).
  { destruct Hwf as (_ & _ & -> & _). rewrite Hsp.
    destruct sp as [| c sp']; [congruence |].
    rewrite size_cons. pose proof (size_nonneg sp'). lia. }
  assert (Hb : size s + k d < 2 ^ 64).
  { destruct Hwf as (Hku & _). unfold unsigned in Hku. lia. }
  destruct (wp_in_bounds _ _ (append_seq_wp pcs H P s d Hwf Hs Hge)
              (in_bounds_append_seq pcs H P s d Hwf
                 ltac:(rewrite Hsp; exact Hclp) Hcl Hlen Hb))
    as ([[] d2] & Happ & Hpost).
  cbn [snd] in Hpost. exists d2. split; [exact Happ |].
  destruct (append_seq_post_frame H P s d d2 Hpost)
    as (E1 & E2 & E3 & E4 & E5).
  pose proof (append_seq_post_frontier H P T s d d2 Hwf Hcoh Hge Hv Hs HT
                Hpost) as (Hf1 & Hf2 & Hf3).
  cbv zeta in Hf1, Hf2, Hf3.
  destruct Hwf as (_ & Hk4 & _).
  unfold streamed. cbn [fst snd]. fold (reached d2) in Hf1, Hf2, Hf3 |- *.
  rewrite Hk in *.
  split.
  { apply (appended_append pcs H P T d s (tt, d2)); auto. }
  split; [congruence |]. split; [exact E1 |]. split; [lia |].
  split; [apply (settled_app P T s k0 from (frontier d)); assumption |].
  split; [exact Hf3 |].
  rewrite (kmers_from_split H P (T ++ s) k0 from (frontier d) (reached d2))
    by lia.
  rewrite (kmers_from_blocked H P (T ++ s) k0 (frontier d)), app_nil_r
    by (intros i Hi; apply Hf2; lia).
  rewrite Hl. symmetry. apply kmers_from_settled; [lia | exact Hset].
Qed.
Lemma classifiable_app pcs s1 s2 :
  classifiable pcs (s1 ++ s2) -> classifiable pcs s1 /\ classifiable pcs s2.
Proof.
  unfold classifiable. rewrite forallb_app. intros Hc.
  apply andb_prop in Hc. exact Hc.
Qed.

(** A cursor read to its end has read every k-mer of the sequences given. *)
Lemma streamed_all pcs H P T k0 from sp r :
  streamed pcs H P T k0 from sp r -> is_valid_hash (snd r) = false ->
  0 < k0 ->
  fst r = kmers_from H P T k0 from (Z.to_nat (size T - from)).
Proof.
  intros (_ & _ & _ & Hle & _ & Hend & ->) Hv Hk.
  apply kmers_from_beyond; [exact Hk | exact Hle | exact (Hend Hv)].
Qed.

Lemma appends_streamed pcs H P k0 from n :
  nthash_rolls H ->
  forall parts T sp l d,
    streamed pcs H P T k0 from sp (l, d) -> is_valid_hash d = false ->
    classifiable pcs sp -> (parts <> [] -> sp <> []) ->
    inner_nonempty parts -> classifiable pcs (concat parts) ->
    size (T ++ concat parts) < 2 ^ 63 ->
    size (T ++ concat parts) <= Z.of_nat n ->
    exists r sp',
      appends pcs H P n parts (Returns (l, d)) = Returns r /\
      is_valid_hash (snd r) = false /\
      streamed pcs H P (T ++ concat parts) k0 from sp' r.
Proof.
  intros Hrolls parts.
  induction parts as [| s rest IH];
    intros T sp l d Hst Hv Hclp Hne Hinner Hcl HT Hn.
  - cbn [concat appends]. rewrite app_nil_r. exists (l, d), sp.
    split; [reflexivity |]. split; assumption.
  - cbn [concat] in Hcl, HT, Hn |- *.
    rewrite app_assoc in HT, Hn |- *.
    apply classifiable_app in Hcl as [Hcls Hclr].
    assert (HTs : size (T ++ s) < 2 ^ 63 /\ size (T ++ s) <= Z.of_nat n).
    { rewrite size_app in HT, Hn. pose proof (size_nonneg (concat rest)).
      lia. }
    destruct HTs as [HTs Hns].
    destruct (append_seq_streamed pcs H P T k0 from sp s l d Hst Hv
                ltac:(apply Hne; discriminate) Hclp Hcls HTs)
      as (d2 & Happ & Hst2).
    destruct (emit_streamed pcs H P (T ++ s) k0 from s n l d2 Hrolls Hst2
                HTs Hcls Hns)
      as ([l' d3] & Hemit & Hv3 & Hst3).
    cbn [fst snd] in Hv3, Hst3.
    assert (Hinner' : (rest <> [] -> s <> []) /\ inner_nonempty rest).
    { cbn [inner_nonempty] in Hinner. destruct rest as [| s' rest'].
      - split; [congruence | exact I].
      - destruct Hinner as [Hs Hr]. split; [intros _; exact Hs | exact Hr]. }
    destruct Hinner' as [Hne' Hinner'].
    destruct (IH (T ++ s) s (l ++ l') d3 Hst3 Hv3 Hcls Hne' Hinner' Hclr
                HT Hn)
      as (r & sp' & Hr & Hvr & Hstr).
    exists r, sp'. split; [| split; assumption].
    cbn [appends]. unfold and_then. cbn [bind snd fst].
    rewrite Happ. cbn [bind snd]. rewrite Hemit. cbn [bind fst snd].
    exact Hr.
Qed.

(** A sequence digested in parts: constructing a cursor on [S1], reading
    it to its end, then appending each of [parts] in turn and reading to
    the end after each, reads what a cursor constructed on the
    concatenation reads, which is every k-mer of the concatenation from
    [start], each once and in order.  Every part but the last is not
    empty, [is_ACTG] can classify every byte, the primitives roll, and
    fewer than 2^63 bytes are given. *)
Theorem append_seq_stream pcs H P n S1 parts k' start' mh
  (Hk : unsigned k') (Hst : size_t start') (Hmhi : int mh)
  (Hk4 : 4 <= k') (Hlt : start' < size S1) (Hmh : mh <= 2)
  (Hinner : inner_nonempty parts)
  (Hcl : classifiable pcs (S1 ++ concat parts))
  (HT : size (S1 ++ concat parts) < 2 ^ 63)
  (Hrolls : nthash_rolls H)
  (Hn : size (S1 ++ concat parts) <= Z.of_nat n) :
  observe (appends pcs H P n parts (digest pcs H P n S1 k' start' mh))
  = observe (digest pcs H P n (S1 ++ concat parts) k' start' mh) /\
  observe (digest pcs H P n (S1 ++ concat parts) k' start' mh)
  = Emits (kmers_from H P (S1 ++ concat parts) k' start'
             (Z.to_nat (size (S1 ++ concat parts) - start'))).
Proof.
  pose proof (size_nonneg S1) as HS0.
  pose proof (size_nonneg (concat parts)) as Hc0.
  pose proof (size_nonneg (S1 ++ concat parts)) as HSc0.
  assert (HSs : size (S1 ++ concat parts) = size S1 + size (concat parts))
    by apply size_app.
  destruct (classifiable_app pcs S1 (concat parts) Hcl) as [Hcl1 Hclp].
  assert (Hwhole :
            observe (digest pcs H P n (S1 ++ concat parts) k' start' mh)
            = Emits (kmers_from H P (S1 ++ concat parts) k' start'
                       (Z.to_nat (size (S1 ++ concat parts) - start')))).
  { destruct (Digester_new_streamed pcs H P (S1 ++ concat parts) k' start' mh
                ltac:(unfold size_t; lia) Hk Hst Hmhi Hk4 ltac:(lia) Hmh
                Hcl HT)
      as (d0 & Hnew & Hst0).
    destruct (emit_streamed pcs H P _ k' start' _ n [] d0 Hrolls Hst0 HT
                Hcl Hn)
      as (r & Hemit & Hv & Hstr).
    unfold digest. rewrite Hnew. cbn [bind]. rewrite Hemit.
    cbn [observe app] in *. f_equal.
    exact (streamed_all pcs H P _ k' start' _ (fst r, snd r) Hstr Hv
             ltac:(lia)). }
  split; [| exact Hwhole]. rewrite Hwhole.
  destruct (Digester_new_streamed pcs H P S1 k' start' mh
              ltac:(unfold size_t; lia) Hk Hst Hmhi Hk4 Hlt Hmh Hcl1
              ltac:(lia))
    as (d0 & Hnew & Hst0).
  destruct (emit_streamed pcs H P S1 k' start' S1 n [] d0 Hrolls Hst0
              ltac:(lia) Hcl1 ltac:(lia))
    as ([l1 d1] & Hemit & Hv1 & Hst1).
  cbn [fst snd app] in Hv1, Hst1.
  assert (HS1 : S1 <> []).
  { intros ->. rewrite size_nil in Hlt. destruct Hst. lia. }
  destruct (appends_streamed pcs H P k' start' n Hrolls parts S1 S1 l1 d1
              Hst1 Hv1 Hcl1 ltac:(intros _; exact HS1) Hinner Hclp HT Hn)
    as (r & sp' & Hr & Hvr & Hstr).
  unfold digest. rewrite Hnew. cbn [bind]. rewrite Hemit, Hr.
  cbn [observe]. f_equal.
  exact (streamed_all pcs H P _ k' start' sp' r Hstr Hvr ltac:(lia)).
Qed.

Lemma append_seq_stream_witness :
  observe (appends true RefHash.hash SKIPOVER 16
             [bytes "TGN"; bytes "ACT"; bytes "G"]
             (digest true RefHash.hash SKIPOVER 16 (bytes "CACTGNNAC") 4 1 0))
  = observe (digest true RefHash.hash SKIPOVER 16
               (bytes "CACTGNNAC"
                ++ concat [bytes "TGN"; bytes "ACT"; bytes "G"]) 4 1 0) /\
  map reported_pos
    (kmers_from RefHash.hash SKIPOVER
       (bytes "CACTGNNAC" ++ concat [bytes "TGN"; bytes "ACT"; bytes "G"])
       4 1 15)
  = [1; 7; 12].
Proof.
  split; [| vm_compute; reflexivity].
  apply (append_seq_stream true RefHash.hash SKIPOVER 16 (bytes "CACTGNNAC")
           [bytes "TGN"; bytes "ACT"; bytes "G"] 4 1 0).
  - in_range.
  - in_range.
  - in_range.
  - lia.
  - vm_compute. reflexivity.
  - lia.
  - cbn [inner_nonempty].
    split; [intros E; vm_compute in E; discriminate E |].
    split; [intros E; vm_compute in E; discriminate E | exact I].
  - vm_compute. reflexivity.
  - vm_compute. reflexivity.
  - exact RefHash_rolls.
  - vm_compute. discriminate.
Defined.
(** ** WRITEOVER skips no position *)

Lemma kmer_at_write_over T k q :
  kmer_at WRITEOVER T k q = (0 <=? q) && (q + k <=? size T).
Proof.
  unfold kmer_at. rewrite view_slice.
  rewrite forallb_view_written_over by discriminate.
  apply andb_true_r.
Qed.

Lemma kmers_from_write_over H T k q n :
  0 <= q -> q + Z.of_nat n + k <= size T + 1 ->
  map reported_pos (kmers_from H WRITEOVER T k q n) = positions_from q n.
Proof.
  revert q. induction n as [| n IH]; intros q Hq Hn;
    cbn [kmers_from positions_from].
  - reflexivity.
  - rewrite kmer_at_write_over.
    destruct (Z.leb_spec 0 q); [| lia].
    destruct (Z.leb_spec (q + k) (size T)); [| lia].
    cbn [andb app map]. rewrite IH by lia. reflexivity.
Qed.

(** Under WRITEOVER a cursor constructed on [S] and read to its end reads
    a k-mer at every position from [start] to [size S - k], in order: a
    byte that is not ACTG ends no k-mer and costs no position. *)
Theorem digest_write_over_positions pcs H n S k' start' mh
  (Hs : size_t (size S)) (Hk : unsigned k') (Hst : size_t start')
  (Hmhi : int mh) (Hk4 : 4 <= k') (Hlt : start' < size S) (Hmh : mh <= 2)
  (Hcl : classifiable pcs S) (HT : size S < 2 ^ 63)
  (Hrolls : nthash_rolls H) (Hn : size S <= Z.of_nat n) :
  exists l d,
    digest pcs H WRITEOVER n S k' start' mh = Returns (l, d) /\
    map reported_pos l
    = positions_from start' (Z.to_nat (size S - k' + 1 - start')).
Proof.
  destruct (Digester_new_streamed pcs H WRITEOVER S k' start' mh
              Hs Hk Hst Hmhi Hk4 Hlt Hmh Hcl HT)
    as (d0 & Hnew & Hst0).
  destruct (emit_streamed pcs H WRITEOVER S k' start' S n [] d0 Hrolls Hst0
              HT Hcl Hn)
    as ([l d] & Hemit & Hv & Hstr).
  cbn [fst snd app] in Hv, Hstr.
  exists l, d. unfold digest. rewrite Hnew. cbn [bind].
  split; [exact Hemit |].
  pose proof (streamed_all pcs H WRITEOVER S k' start' S (l, d) Hstr Hv
                ltac:(lia)) as Hl.
  cbn [fst] in Hl. rewrite Hl. destruct Hst as [Hst0' _].
  destruct (Z_le_gt_dec start' (size S - k' + 1)) as [Hfit | Hout].
  - rewrite <- (kmers_from_beyond H WRITEOVER S k' start' (size S - k' + 1))
      by lia.
    apply kmers_from_write_over; lia.
  - replace (Z.to_nat (size S - k' + 1 - start')) with 0%nat by lia.
    cbn [positions_from].
    rewrite kmers_from_none; [reflexivity |].
    intros i Hi. apply kmer_at_outside. lia.
Qed.

Lemma digest_write_over_positions_witness :
  exists l d,
    digest true RefHash.hash WRITEOVER 12 (bytes "ACTGNNACTGAC") 4 2 0
    = Returns (l, d) /\
    map reported_pos l = [2; 3; 4; 5; 6; 7; 8].
Proof.
  destruct (digest_write_over_positions true RefHash.hash 12
              (bytes "ACTGNNACTGAC") 4 2 0)
    as (l & d & Hd & Hl);
    [in_range | in_range | in_range | in_range | lia
    | vm_compute; reflexivity | lia | reflexivity
    | vm_compute; reflexivity | exact RefHash_rolls
    | vm_compute; discriminate |].
  exists l, d. split; [exact Hd | exact Hl].
Defined.

(** ** The exceptions of construction *)

(** The constructor throws [BadConstructionException] exactly when
    [k < 4], [start >= len] or [(int) minimized_h > 2].  It throws no other
    exception, and with other arguments it throws nothing: [init_hash]
    has no [throw]. *)
Theorem Digester_new_throws_exactly pcs H P s l k' start' mh :
  ((exists d, Digester_new pcs H P s l k' start' mh
              = Throws BadConstructionException d)
   <-> k' < 4 \/ l <= start' \/ 2 < mh) /\
  (forall e d, Digester_new pcs H P s l k' start' mh = Throws e d ->
               e = BadConstructionException /\
               (k' < 4 \/ l <= start' \/ 2 < mh)) /\
  (4 <= k' /\ start' < l /\ mh <= 2 ->
   forall e d, Digester_new pcs H P s l k' start' mh <> Throws e d).
Proof.
  assert (Hguard : 4 <= k' /\ start' < l /\ mh <= 2 ->
            forall e d, Digester_new pcs H P s l k' start' mh <> Throws e d).
  { intros (Hk & Hl & Hm) e d. unfold Digester_new.
    destruct (Z.ltb_spec k' 4); [lia |].
    destruct (Z.leb_spec l start'); [lia |].
    destruct (Z.ltb_spec 2 mh); [lia |]. cbn [orb].
    apply no_throw_bind; [apply no_throw_init_hash |].
    intros x. apply no_throw_Returns. }
  assert (Hthrow : k' < 4 \/ l <= start' \/ 2 < mh ->
            exists d, Digester_new pcs H P s l k' start' mh
                      = Throws BadConstructionException d).
  { intros Hc. unfold Digester_new.
    destruct (Z.ltb_spec k' 4); destruct (Z.leb_spec l start');
      destruct (Z.ltb_spec 2 mh); cbn [orb];
      try (eexists; reflexivity). lia. }
  assert (Honly : forall e d,
            Digester_new pcs H P s l k' start' mh = Throws e d ->
            e = BadConstructionException /\
            (k' < 4 \/ l <= start' \/ 2 < mh)).
  { intros e d He.
    destruct (Z_lt_ge_dec k' 4) as [Hk | Hk]; [| destruct (Z_le_gt_dec l start')
      as [Hl | Hl]; [| destruct (Z_lt_ge_dec 2 mh) as [Hm | Hm]]].
    4: { exfalso. apply (Hguard ltac:(lia) e d He). }
    all: destruct (Hthrow ltac:(lia)) as [d0 Hd0]; rewrite Hd0 in He;
      injection He as <- _; split; [reflexivity | lia]. }
  split; [| split; [exact Honly | exact Hguard]].
  split; [| exact Hthrow].
  intros [d Hd]. exact (proj2 (Honly _ _ Hd)).
Qed.

Lemma Digester_new_throws_exactly_witness :
  (exists d, Digester_new true RefHash.hash SKIPOVER (bytes "ACGT") 4 3 0 0
             = Throws BadConstructionException d) /\
  ~ (exists d, Digester_new true RefHash.hash SKIPOVER (bytes "ACGT") 4 4 0 0
               = Throws BadConstructionException d).
Proof.
  split.
  - apply (proj1 (Digester_new_throws_exactly true RefHash.hash SKIPOVER
                    (bytes "ACGT") 4 3 0 0)).
    lia.
  - intros Hd.
    apply (proj1 (Digester_new_throws_exactly true RefHash.hash SKIPOVER
                    (bytes "ACGT") 4 4 0 0)) in Hd.
    lia.
Defined.
